(** * SafeBench: risk-aware Soft Actor-Critic and its replay buffer

    A shallow embedding of [safebench/gym_carla/replay_buffer.py] and of the
    agent in [safebench/agent/rl/sac.py].

    Tensors are lists over the real numbers: a batch of rows is a list of
    vectors, a [B,1] column is a list of scalars.  The arithmetic is the one
    of the real field, so rounding and overflow of the 32-bit floats of the
    source are outside the model.  Python exceptions are values of [exn],
    dictionaries are [gmap]s with string keys, and every random draw
    (np.random.randint, Normal.sample) is an explicit argument. *)

From Stdlib Require Import Reals Lra ZArith Lia List.
From stdpp Require Import base list gmap strings.
From Stdlib Require Ascii String DecimalString DecimalN.

Open Scope R_scope.

(** ** Exceptions *)

Inductive exn : Type :=
  | KeyError (key : string)
  | IndexError
  | ValueError
  | TypeError
  | ZeroDivisionError.

Inductive result (A : Type) : Type :=
  | Ok (a : A)
  | Raise (e : exn).
Arguments Ok {A} a.
Arguments Raise {A} e.

#[global] Instance result_ret : MRet result := fun A a => Ok a.
#[global] Instance result_bind : MBind result := fun A B f m =>
  match m with
  | Ok a => f a
  | Raise e => Raise e
  end.
#[global] Instance result_fmap : FMap result := fun A B f m =>
  match m with
  | Ok a => Ok (f a)
  | Raise e => Raise e
  end.

(** [o ?! e]: the value of [o], or the exception [e]. *)
Definition or_raise {A} (o : option A) (e : exn) : result A :=
  match o with
  | Some a => Ok a
  | None => Raise e
  end.
Infix "?!" := or_raise (at level 45, left associativity).

(** ** Arrays *)

(** A vector: one row of a tensor. *)
Abbreviation Vec := (list R).

(** A numpy array as the buffer produces it: [Arr1] stacks scalars (shape
    [B]), [Arr2] stacks vectors (shape [B, d]). *)
Inductive ndarray : Type :=
  | Arr1 (xs : list R)
  | Arr2 (rows : list Vec).

(** First dimension of an array. *)
Definition shape0 (a : ndarray) : nat :=
  match a with
  | Arr1 xs => length xs
  | Arr2 rows => length rows
  end.

(** [arr[sample_index]]: fancy indexing along the first axis. *)
Definition take_index {A} (pool : list A) (sample_index : list nat) : result (list A) :=
  mapM (fun i => pool !! i ?! IndexError) sample_index.

(** The shape of an entry of a list handed to [np.stack]: a scalar has the
    empty shape, a vector the shape of its length. *)
Class Shaped (A : Type) : Type := shape : A → list nat.

#[global] Instance R_shaped : Shaped R := fun _ => [].
#[global] Instance Vec_shaped : Shaped Vec := fun v => [length v].

(** [np.stack]: refuses an empty list, and a list whose entries differ in
    shape. *)
Definition np_stack {A} `{Shaped A} (xs : list A) : result (list A) :=
  match xs with
  | [] => Raise ValueError
  | x :: xs' =>
      if decide (Forall (fun y => shape y = shape x) xs') then Ok xs
      else Raise ValueError
  end.

(** ** The replay buffer *)

Module ReplayBuffer.

Record info : Type := { scenario_id : nat }.

(** The argument of [store]: seven parallel sequences. *)
Record data_list : Type := {
  ego_actions : list Vec;
  scenario_actions : list Vec;
  obs : list Vec;
  next_obs : list Vec;
  rewards : list R;
  dones : list R;
  infos : list info;
}.

Record t : Type := mk {
  mode : string;
  buffer_capacity : Z;
  num_scenario : Z;
  buffer_len : Z;
  buffer_ego_actions : list (list Vec);
  buffer_scenario_actions : list (list Vec);
  buffer_obs : list (list Vec);
  buffer_next_obs : list (list Vec);
  buffer_rewards : list (list R);
  buffer_dones : list (list R);
}.

(** [__init__(num_scenario, mode, buffer_capacity)] *)
Definition init (num_scenario : Z) (mode : string) (buffer_capacity : Z) : t :=
  let n := Z.to_nat num_scenario in
  {| mode := mode;
     buffer_capacity := buffer_capacity;
     num_scenario := num_scenario;
     buffer_len := 0;
     buffer_ego_actions := replicate n [];
     buffer_scenario_actions := replicate n [];
     buffer_obs := replicate n [];
     buffer_next_obs := replicate n [];
     buffer_rewards := replicate n [];
     buffer_dones := replicate n [] |}.

(** [buf[sid].append(x)] *)
Definition append_at {A} (sid : nat) (x : A) (buf : list (list A)) : result (list (list A)) :=
  traj ← buf !! sid ?! IndexError;
  Ok (<[sid := traj ++ [x]]> buf).

(** One turn of the loop of [store]. *)
Definition store_one (d : data_list) (b : t) (s_i : nat) : result t :=
  i ← infos d !! s_i ?! IndexError;
  let sid := scenario_id i in
  a ← ego_actions d !! s_i ?! IndexError;
  ea ← append_at sid a (buffer_ego_actions b);
  a ← scenario_actions d !! s_i ?! IndexError;
  sa ← append_at sid a (buffer_scenario_actions b);
  o ← obs d !! s_i ?! IndexError;
  ob ← append_at sid o (buffer_obs b);
  o ← next_obs d !! s_i ?! IndexError;
  nob ← append_at sid o (buffer_next_obs b);
  r ← rewards d !! s_i ?! IndexError;
  rw ← append_at sid r (buffer_rewards b);
  dn ← dones d !! s_i ?! IndexError;
  dns ← append_at sid dn (buffer_dones b);
  Ok {| mode := mode b;
        buffer_capacity := buffer_capacity b;
        num_scenario := num_scenario b;
        buffer_len := buffer_len b;
        buffer_ego_actions := ea;
        buffer_scenario_actions := sa;
        buffer_obs := ob;
        buffer_next_obs := nob;
        buffer_rewards := rw;
        buffer_dones := dns |}.

Fixpoint store_loop (d : data_list) (b : t) (idx : list nat) : result t :=
  match idx with
  | [] => Ok b
  | s_i :: idx' => b' ← store_one d b s_i; store_loop d b' idx'
  end.

(** [store(data_list)].  A raised exception stands for the call as a whole:
    the partly updated object is not exposed. *)
Definition store (b : t) (d : data_list) : result t :=
  let b1 := {| mode := mode b;
               buffer_capacity := buffer_capacity b;
               num_scenario := num_scenario b;
               buffer_len := (buffer_len b + Z.of_nat (length (infos d)))%Z;
               buffer_ego_actions := buffer_ego_actions b;
               buffer_scenario_actions := buffer_scenario_actions b;
               buffer_obs := buffer_obs b;
               buffer_next_obs := buffer_next_obs b;
               buffer_rewards := buffer_rewards b;
               buffer_dones := buffer_dones b |} in
  store_loop d b1 (seq 0 (length (infos d))).

(** The six lists built by the first loop of [sample]. *)
Record prepared : Type := {
  prepared_ego_actions : list Vec;
  prepared_scenario_actions : list Vec;
  prepared_obs : list Vec;
  prepared_next_obs : list Vec;
  prepared_rewards : list R;
  prepared_dones : list R;
}.

Definition prepared_empty : prepared :=
  {| prepared_ego_actions := [];
     prepared_scenario_actions := [];
     prepared_obs := [];
     prepared_next_obs := [];
     prepared_rewards := [];
     prepared_dones := [] |}.

(** [np.max([0, num_trajectory - samples_per_trajectory])] *)
Definition start_idx (samples_per_trajectory : Z) (num_trajectory : nat) : nat :=
  Z.to_nat (Z.max 0 (Z.of_nat num_trajectory - samples_per_trajectory)).

(** One turn of the first loop of [sample]: the slice [[start_idx:]] of every
    sub-buffer of scenario [s_i], where [start_idx] is computed from the
    rewards. *)
Definition prepare_one (samples_per_trajectory : Z) (b : t) (p : prepared) (s_i : nat)
  : result prepared :=
  rw ← buffer_rewards b !! s_i ?! IndexError;
  let start := start_idx samples_per_trajectory (length rw) in
  ea ← buffer_ego_actions b !! s_i ?! IndexError;
  sa ← buffer_scenario_actions b !! s_i ?! IndexError;
  ob ← buffer_obs b !! s_i ?! IndexError;
  nob ← buffer_next_obs b !! s_i ?! IndexError;
  dn ← buffer_dones b !! s_i ?! IndexError;
  Ok {| prepared_ego_actions := prepared_ego_actions p ++ drop start ea;
        prepared_scenario_actions := prepared_scenario_actions p ++ drop start sa;
        prepared_obs := prepared_obs p ++ drop start ob;
        prepared_next_obs := prepared_next_obs p ++ drop start nob;
        prepared_rewards := prepared_rewards p ++ drop start rw;
        prepared_dones := prepared_dones p ++ drop start dn |}.

Fixpoint prepare_loop (samples_per_trajectory : Z) (b : t) (p : prepared) (idx : list nat)
  : result prepared :=
  match idx with
  | [] => Ok p
  | s_i :: idx' =>
      p' ← prepare_one samples_per_trajectory b p s_i;
      prepare_loop samples_per_trajectory b p' idx'
  end.

Definition prepare (b : t) : result prepared :=
  if decide (num_scenario b = 0%Z) then Raise ZeroDivisionError
  else
    let samples_per_trajectory := (buffer_capacity b `div` num_scenario b)%Z in
    prepare_loop samples_per_trajectory b prepared_empty
      (seq 0 (Z.to_nat (num_scenario b))).

(** What [np.random.randint(0, high, size)] promises of its result. *)
Definition randint_spec (high : nat) (size : Z) (sample_index : list nat) : Prop :=
  Z.of_nat (length sample_index) = size ∧ Forall (fun i => (i < high)%nat) sample_index.

(** [np.random.randint(0, high, size=size)].  The generator is the list
    [raw] of the numbers it produces, read as far as it goes and as 0 beyond:
    entry [k] of the result is number [k] reduced below [high], so the result
    has [size] entries, every list [randint_spec] admits is the result for
    some [raw], and no other is.  A negative [size] raises [ValueError]; so
    does an empty range, unless no number is asked for: numpy from 1.17 on
    returns the empty array then.  (Earlier versions raise [ValueError]
    there as well; [sample] on a buffer with aligned fields cannot tell the
    two apart, since [np.stack] raises [ValueError] on the empty pool.) *)
Definition randint (high : nat) (size : Z) (raw : list nat) : result (list nat) :=
  if decide (size < 0)%Z then Raise ValueError
  else if decide (size = 0)%Z then Ok []
  else if decide (high = 0%nat) then Raise ValueError
  else Ok ((fun k => default 0%nat (raw !! k) `mod` high)%nat <$> seq 0 (Z.to_nat size)).

(** [sample(batch_size)]; [raw] is the generator behind the draw
    [np.random.randint(0, len(prepared_rewards), size=batch_size)]. *)
Definition sample (b : t) (batch_size : Z) (raw : list nat)
  : result (gmap string ndarray) :=
  p ← prepare b;
  sample_index ← randint (length (prepared_rewards p)) batch_size raw;
  action ←
    (if decide (mode b = "train_agent")
     then arr ← np_stack (prepared_ego_actions p); take_index arr sample_index
     else arr ← np_stack (prepared_scenario_actions p); take_index arr sample_index);
  arr ← np_stack (prepared_obs p);
  state ← take_index arr sample_index;
  arr ← np_stack (prepared_next_obs p);
  n_state ← take_index arr sample_index;
  arr ← np_stack (prepared_rewards p);
  reward ← take_index arr sample_index;
  arr ← np_stack (prepared_dones p);
  done ← take_index arr sample_index;
  Ok ({[ "action" := Arr2 action;
         "state" := Arr2 state;
         "n_state" := Arr2 n_state;
         "reward" := Arr1 reward;
         "done" := Arr1 done ]} : gmap string ndarray).

End ReplayBuffer.


(** ** Tensor operations *)

(** Noise of a Normal draw, one standard-normal value per (row, column). *)
Definition Noise : Type := nat → nat → R.

(** Parameters of a network: the tensors [net.parameters()] yields. *)
Abbreviation Params := (list (list R)).

(** Elementwise operations on [B, d] tensors. *)
Definition tmap (f : R → R) (x : list Vec) : list Vec := fmap (M:=list) (fmap (M:=list) f) x.
Definition tzip_with (f : R → R → R) (x y : list Vec) : list Vec :=
  zip_with (zip_with f) x y.

Definition sum_R (xs : list R) : R := foldr Rplus 0 xs.

(** [torch.sum(x, dim=1, keepdim=True)] *)
Definition sum_dim1 (x : list Vec) : list R := fmap sum_R x.

(** [x.mean()] *)
Definition mean (xs : list R) : R := sum_R xs / INR (length xs).

(** [torch.clamp(x, lo, hi)] *)
Definition clamp (x lo hi : R) : R := Rmin (Rmax x lo) hi.

(** [nn.MSELoss()(input, target)] *)
Definition MSELoss (input target : list R) : R :=
  mean (zip_with (fun x y => (x - y) ^ 2) input target).

(** [torch.distributions.Normal(loc, scale)] on [B, d] tensors. *)
Record Normal : Type := { loc : list Vec; scale : list Vec }.

(** [dist.sample()]: [loc + scale * eps] for standard-normal [eps]. *)
Definition Normal_sample (dist : Normal) (eps : Noise) : list Vec :=
  imap (fun i '(m, s) => imap (fun j '(mij, sij) => mij + sij * eps i j) (zip m s))
       (zip (loc dist) (scale dist)).

(** Log-density of Normal(m, s) at [v], as torch computes it. *)
Definition normal_log_density (m s v : R) : R :=
  - ((v - m) ^ 2) / (2 * s ^ 2) - ln s - ln (sqrt (2 * PI)).

(** [dist.log_prob(value)] *)
Definition Normal_log_prob (dist : Normal) (value : list Vec) : list Vec :=
  zip_with (fun ms v => zip_with (fun '(m, s) vj => normal_log_density m s vj) ms v)
           (zip_with zip (loc dist) (scale dist)) value.

(** ** Configuration *)

Inductive value : Type :=
  | VInt (z : Z)
  | VFloat (r : R)
  | VStr (s : string).

Definition cfg_int (config : gmap string value) (key : string) : result Z :=
  v ← config !! key ?! KeyError key;
  match v with
  | VInt z => Ok z
  | _ => Raise TypeError
  end.

Definition cfg_float (config : gmap string value) (key : string) : result R :=
  v ← config !! key ?! KeyError key;
  match v with
  | VInt z => Ok (IZR z)
  | VFloat r => Ok r
  | VStr _ => Raise TypeError
  end.

(** ** What the agent takes from torch

    The layers below the heads of the three network shapes, and the
    optimizer, are torch's: they enter as operations of a class.
    [actor_mu θ x] is [fc_mu] of the second hidden layer of [Actor],
    [actor_logstd θ x] is [fc_std] of the same layer, [critic_out] and
    [q_out] are [Critic.forward] and [Q.forward] on one row.
    [optimizer_step o θ loss] is the sequence [zero_grad], [loss.backward],
    [clip_grad_norm_(θ, 0.5)], [step] on the parameters [θ], for [loss] as a
    function of these parameters. *)
Class Torch : Type := {
  actor_mu : Params → Vec → Vec;
  actor_logstd : Params → Vec → Vec;
  critic_out : Params → Vec → R;
  q_out : Params → Vec → Vec → R;
  optimizer : Type;
  Adam : Params → R → optimizer;
  optimizer_step : optimizer → Params → (Params → R) → optimizer * Params;
}.

(** What a replay buffer offers to [SAC.train]. *)
Class Replay (B : Type) : Type := {
  replay_buffer_len : B → Z;
  replay_sample : B → Z → list nat → result (gmap string ndarray);
}.

#[global] Instance ReplayBuffer_Replay : Replay ReplayBuffer.t := {
  replay_buffer_len := ReplayBuffer.buffer_len;
  replay_sample := ReplayBuffer.sample;
}.

(** The random draws of one inner iteration of [SAC.train]: the generator
    behind the index draw of [sample], and the noise of the two Normal
    draws. *)
Record Draw : Type := {
  sample_index : list nat;
  eps_task : Noise;
  eps_rec : Noise;
}.

(** ** The agent *)

Module SAC.
Section WithTorch.
Context `{Torch}.

Record t : Type := mk {
  use_suppression : bool;
  use_recovery : bool;
  lam : R;
  buffer_start_training : Z;
  lr : R;
  continue_episode : Z;
  state_dim : Z;
  action_dim : Z;
  min_Val : R;
  batch_size : Z;
  update_iteration : Z;
  gamma : R;
  tau : R;
  policy_net : Params;
  value_net : Params;
  Q_net : Params;
  Target_value_net : Params;
  value_risk_net : Params;
  policy_recovery_net : Params;
  Q_risk_net : Params;
  Target_value_risk_net : Params;
  policy_optimizer : optimizer;
  value_optimizer : optimizer;
  Q_optimizer : optimizer;
  policy_recovery_optimizer : optimizer;
  value_risk_optimizer : optimizer;
  Q_risk_optimizer : optimizer;
  risk_thresh : R;
  mode : string;
}.

(** [Actor.forward], [Critic.forward] and [Q.forward] on a batch: the mean
    head goes through tanh, the log-std head does not.  Here tanh is the
    function on the reals; [Float32] below has the rounded one, for the
    range of an action. *)
Definition Actor_forward (θ : Params) (x : list Vec) : list Vec * list Vec :=
  (fmap (fun xi => fmap tanh (actor_mu θ xi)) x, fmap (actor_logstd θ) x).

Definition Critic_forward (θ : Params) (x : list Vec) : list R :=
  fmap (critic_out θ) x.

Definition Q_forward (θ : Params) (x a : list Vec) : list R :=
  zip_with (q_out θ) x a.

(** The freshly initialised parameters of the eight networks. *)
Record Fresh : Type := {
  fresh_policy_net : Params;
  fresh_value_net : Params;
  fresh_Q_net : Params;
  fresh_Target_value_net : Params;
  fresh_value_risk_net : Params;
  fresh_policy_recovery_net : Params;
  fresh_Q_risk_net : Params;
  fresh_Target_value_risk_net : Params;
}.

(** [for target_param, param in zip(..): target_param.data.copy_(param.data)] *)
Fixpoint copy_params (target live : Params) : Params :=
  match target, live with
  | _ :: target', param :: live' => param :: copy_params target' live'
  | _, _ => target
  end.

(** [__init__(config, logger)]: suppression, recovery, [lam] and the risk
    threshold are constants of the constructor; the logger and the model
    directory serve the checkpoints only. *)
Definition init (config : gmap string value) (fresh : Fresh) : result t :=
  let use_suppression_ := true in
  let use_recovery_ := true in
  buffer_start_training_ ← cfg_int config "buffer_start_training";
  lr_ ← cfg_float config "lr";
  state_dim_ ← cfg_int config "ego_state_dim";
  action_dim_ ← cfg_int config "ego_action_dim";
  min_Val_ ← cfg_float config "min_Val";
  batch_size_ ← cfg_int config "batch_size";
  update_iteration_ ← cfg_int config "update_iteration";
  gamma_ ← cfg_float config "gamma";
  tau_ ← cfg_float config "tau";
  _ ← config !! "model_id" ?! KeyError "model_id";
  _ ← config !! "ROOT_DIR" ?! KeyError "ROOT_DIR";
  _ ← config !! "model_path" ?! KeyError "model_path";
  Ok {| use_suppression := use_suppression_;
        use_recovery := use_recovery_;
        lam := 2;
        buffer_start_training := buffer_start_training_;
        lr := lr_;
        continue_episode := 0;
        state_dim := state_dim_;
        action_dim := action_dim_;
        min_Val := min_Val_;
        batch_size := batch_size_;
        update_iteration := update_iteration_;
        gamma := gamma_;
        tau := tau_;
        policy_net := fresh_policy_net fresh;
        value_net := fresh_value_net fresh;
        Q_net := fresh_Q_net fresh;
        Target_value_net :=
          copy_params (fresh_Target_value_net fresh) (fresh_value_net fresh);
        value_risk_net := fresh_value_risk_net fresh;
        policy_recovery_net := fresh_policy_recovery_net fresh;
        Q_risk_net := fresh_Q_risk_net fresh;
        Target_value_risk_net :=
          copy_params (fresh_Target_value_risk_net fresh) (fresh_value_risk_net fresh);
        policy_optimizer := Adam (fresh_policy_net fresh) lr_;
        value_optimizer := Adam (fresh_value_net fresh) lr_;
        Q_optimizer := Adam (fresh_Q_net fresh) lr_;
        policy_recovery_optimizer := Adam (fresh_policy_recovery_net fresh) lr_;
        value_risk_optimizer := Adam (fresh_value_risk_net fresh) lr_;
        Q_risk_optimizer := Adam (fresh_Q_risk_net fresh) lr_;
        risk_thresh := 0.1;
        mode := "train" |}.

(** *** get_action *)

(** The local function [sample(mu, log_sigma)] of [get_action]. *)
Definition sample (deterministic : bool) (eps : Noise) (mu log_sigma : list Vec) : list Vec :=
  if deterministic then mu
  else
    let sigma := tmap exp log_sigma in
    let dist := {| loc := mu; scale := sigma |} in
    let z := Normal_sample dist eps in
    tmap tanh z.

(** [get_action(state, infos, deterministic)]; [eps_task] and [eps_rec] are
    the noise of the two Normal draws.  The gate reads the first entry of the
    flattened risk estimate. *)
Definition get_action (agent : t) (state : list Vec) (infos : list ReplayBuffer.info)
    (deterministic : bool) (eps_task eps_rec : Noise) : result (list Vec * list Vec) :=
  let '(mu_task, log_sigma_task) := Actor_forward (policy_net agent) state in
  let task_action := sample deterministic eps_task mu_task log_sigma_task in
  if use_recovery agent then
    let risk := Q_forward (Q_risk_net agent) state task_action in
    risk0 ← risk !! 0%nat ?! IndexError;
    if Rlt_dec risk0 (- risk_thresh agent) then
      let '(mu_rec, log_sigma_rec) := Actor_forward (policy_recovery_net agent) state in
      let action := sample deterministic eps_rec mu_rec log_sigma_rec in
      Ok (task_action, action)
    else
      let action := task_action in
      Ok (task_action, action)
  else
    let action := task_action in
    Ok (task_action, action).

(** *** get_action_log_prob *)

(** [Normal(batch_mu, exp(batch_log_sigma))] for the actor [θ]. *)
Definition policy_dist (θ : Params) (state : list Vec) : Normal :=
  let '(batch_mu, batch_log_sigma) := Actor_forward θ state in
  let batch_sigma := tmap exp batch_log_sigma in
  {| loc := batch_mu; scale := batch_sigma |}.

(** [dist.log_prob(z) - log(maximum(1 - action.pow(2) + min_Val, zeros) + 1e-3)],
    summed over the action dimension. *)
Definition squashed_log_prob (min_Val : R) (dist : Normal) (z action : list Vec) : list R :=
  let log_prob :=
    tzip_with Rminus (Normal_log_prob dist z)
      (tmap (fun a => ln (Rmax (1 - a ^ 2 + min_Val) 0 + 0.001)) action) in
  sum_dim1 log_prob.

Record ActionLogProb : Type := {
  task_action : list Vec;
  task_log_prob : list R;
  mixed_action : list Vec;
  mixed_log_prob : list R;
}.

Definition get_action_log_prob (agent : t) (state : list Vec) (eps_task eps_rec : Noise)
    : ActionLogProb :=
  let dist := policy_dist (policy_net agent) state in
  let z := Normal_sample dist eps_task in
  let task_action := tmap tanh z in
  let task_log_prob := squashed_log_prob (min_Val agent) dist z task_action in
  if use_recovery agent then
    let dist_rec := policy_dist (policy_recovery_net agent) state in
    let z_rec := Normal_sample dist_rec eps_rec in
    let recovery_action := tmap tanh z_rec in
    let recovery_log_prob :=
      squashed_log_prob (min_Val agent) dist_rec z_rec recovery_action in
    (* the source overwrites recovery_log_prob_2 with the sum over
       dimension 1 of the [B,1] tensor recovery_log_prob, which is that
       tensor; the value is not used *)
    let recovery_log_prob_2 := recovery_log_prob in
    let risk := Q_forward (Q_risk_net agent) state task_action in
    let recovery_active :=
      fmap (fun r => if Rlt_dec r (- risk_thresh agent) then 1 else 0) risk in
    let action := recovery_action in
    let log_prob := recovery_log_prob in
    {| task_action := task_action;
       task_log_prob := task_log_prob;
       mixed_action := action;
       mixed_log_prob := log_prob |}
  else
    let action := task_action in
    let log_prob := task_log_prob in
    {| task_action := task_action;
       task_log_prob := task_log_prob;
       mixed_action := action;
       mixed_log_prob := log_prob |}.

(** *** train *)

(** The tensors [train] builds from a batch. *)
Record Columns : Type := {
  bn_s : list Vec;
  bn_a_task : list Vec;
  bn_a_mixed : list Vec;
  bn_r : list R;
  bn_r_risk : list R;
  bn_s_ : list Vec;
  bn_d : list R;
}.

(** [batch[key]] as a [B, d] tensor, and as a [B] tensor.  An array of the
    other rank is refused. *)
Definition batch_rows (batch : gmap string ndarray) (key : string) : result (list Vec) :=
  a ← batch !! key ?! KeyError key;
  match a with
  | Arr2 rows => Ok rows
  | Arr1 _ => Raise ValueError
  end.

Definition batch_scalars (batch : gmap string ndarray) (key : string) : result (list R) :=
  a ← batch !! key ?! KeyError key;
  match a with
  | Arr1 xs => Ok xs
  | Arr2 _ => Raise ValueError
  end.

(** The seven reads at the head of the loop body: the risk is negated and
    [bn_d] is [1 - done]. *)
Definition read_batch (batch : gmap string ndarray) : result Columns :=
  state ← batch_rows batch "state";
  task_action_ ← batch_rows batch "task_action";
  mixed_action_ ← batch_rows batch "mixed_action";
  reward ← batch_scalars batch "reward";
  risk ← batch_scalars batch "risk";
  n_state ← batch_rows batch "n_state";
  done ← batch_scalars batch "done";
  Ok {| bn_s := state;
        bn_a_task := task_action_;
        bn_a_mixed := mixed_action_;
        bn_r := reward;
        bn_r_risk := fmap Ropp risk;
        bn_s_ := n_state;
        bn_d := fmap (fun d => 1 - d) done |}.

(** [next_q_value = bn_r + bn_d * gamma * target_value], where without
    recovery the reward first absorbs [lam * bn_r_risk]. *)
Definition next_q_value (agent : t) (c : Columns) : list R :=
  let bn_r :=
    if use_recovery agent then bn_r c
    else zip_with (fun r k => r + lam agent * k) (bn_r c) (bn_r_risk c) in
  let target_value := Critic_forward (Target_value_net agent) (bn_s_ c) in
  zip_with Rplus bn_r
    (zip_with (fun d v => d * gamma agent * v) (bn_d c) target_value).

(** [50. / (1. - self.gamma)], the upper bound handed to [torch.clamp] in
    the line of [max_terminal]: a division of Python floats, which raises
    for [gamma = 1].  (The other quotient of that line divides a tensor and
    raises nothing.) *)
Definition max_terminal_bound (agent : t) : result R :=
  if Req_dec_T (1 - gamma agent) 0 then Raise ZeroDivisionError
  else Ok (50 / (1 - gamma agent)).

(** [next_q_risk_value], after [next_q_risk_value += max_terminal], once
    the bound of the clamp is there. *)
Definition next_q_risk_value (agent : t) (c : Columns) : list R :=
  let target_value_risk := Critic_forward (Target_value_risk_net agent) (bn_s_ c) in
  let next_q_risk_value :=
    zip_with Rplus (bn_r_risk c)
      (zip_with (fun d v => d * gamma agent * v) (bn_d c) target_value_risk) in
  let max_terminal :=
    zip_with
      (fun k d => clamp (k / (1 - gamma agent) * (1 - d) - k) 0 (50 / (1 - gamma agent)))
      (bn_r_risk c) (bn_d c) in
  zip_with Rplus next_q_risk_value max_terminal.

(** [gate = clamp(-expected_new_Q_risk * suppression_weight * 2, 0.25, 0.75)]
    with [suppression_weight = ones_like(expected_new_Q_risk) * 10.0]. *)
Definition suppression_gate (expected_new_Q_risk : list R) : list R :=
  let suppression_weight := fmap (fun _ => 1 * 10) expected_new_Q_risk in
  let gate := zip_with (fun q w => - q * w) expected_new_Q_risk suppression_weight in
  fmap (fun g => clamp (g * 2) 0.25 0.75) gate.

(** [log_policy_target] as the policy loss reads it. *)
Definition log_policy_target (agent : t)
    (expected_new_Q expected_value expected_new_Q_risk expected_value_risk : list R)
    : list R :=
  let log_policy_target := zip_with Rminus expected_new_Q expected_value in
  if use_recovery agent then
    let log_policy_recovery_target :=
      zip_with Rminus expected_new_Q_risk expected_value_risk in
    if use_suppression agent then
      let gate := suppression_gate expected_new_Q_risk in
      zip_with Rplus
        (zip_with (fun p g => p * (1 - g)) log_policy_target gate)
        (zip_with Rmult gate log_policy_recovery_target)
    else log_policy_target
  else log_policy_target.

(** [target_param.data.copy_(target_param * (1 - tau) + param * tau)] *)
Definition polyak (tau : R) (target_param param : list R) : list R :=
  zip_with (fun t p => t * (1 - tau) + p * tau) target_param param.

(** The soft update of a target network over [zip(target, live)]. *)
Fixpoint soft_update (tau : R) (target live : Params) : Params :=
  match target, live with
  | target_param :: target', param :: live' =>
      polyak tau target_param param :: soft_update tau target' live'
  | _, _ => target
  end.

(** The body of the loop of [train] on the tensors of one batch. *)
Definition update (agent : t) (c : Columns) (eps_task eps_rec : Noise) : t :=
  let next_q_value := next_q_value agent c in
  let next_q_risk_value := next_q_risk_value agent c in
  let expected_value := Critic_forward (value_net agent) (bn_s c) in
  let expected_value_risk := Critic_forward (value_risk_net agent) (bn_s c) in
  let actions_log_probs := get_action_log_prob agent (bn_s c) eps_task eps_rec in
  let expected_new_Q := Q_forward (Q_net agent) (bn_s c) (task_action actions_log_probs) in
  let expected_new_Q_risk :=
    Q_forward (Q_risk_net agent) (bn_s c) (mixed_action actions_log_probs) in
  let next_value := zip_with Rminus expected_new_Q (task_log_prob actions_log_probs) in
  let next_value_risk :=
    zip_with Rminus expected_new_Q_risk (mixed_log_prob actions_log_probs) in
  let V_loss θ := MSELoss (Critic_forward θ (bn_s c)) next_value in
  let V_risk_loss θ := MSELoss (Critic_forward θ (bn_s c)) next_value_risk in
  let Q_loss θ := MSELoss (Q_forward θ (bn_s c) (bn_a_task c)) next_q_value in
  let Q_risk_loss θ := MSELoss (Q_forward θ (bn_s c) (bn_a_mixed c)) next_q_risk_value in
  let log_policy_recovery_target :=
    zip_with Rminus expected_new_Q_risk expected_value_risk in
  let log_policy_target :=
    log_policy_target agent expected_new_Q expected_value
      expected_new_Q_risk expected_value_risk in
  (* the samples are constants of the graph, the log-probabilities are not *)
  let z := Normal_sample (policy_dist (policy_net agent) (bn_s c)) eps_task in
  let z_rec := Normal_sample (policy_dist (policy_recovery_net agent) (bn_s c)) eps_rec in
  let pi_loss θ :=
    mean (zip_with Rmult
            (squashed_log_prob (min_Val agent) (policy_dist θ (bn_s c)) z (tmap tanh z))
            (zip_with Rminus (task_log_prob actions_log_probs) log_policy_target)) in
  let pi_recovery_loss θ :=
    mean (zip_with Rmult
            (squashed_log_prob (min_Val agent) (policy_dist θ (bn_s c)) z_rec (tmap tanh z_rec))
            (zip_with Rminus (mixed_log_prob actions_log_probs)
               log_policy_recovery_target)) in
  let '(value_optimizer', value_net') :=
    optimizer_step (value_optimizer agent) (value_net agent) V_loss in
  let '(Q_optimizer', Q_net') :=
    optimizer_step (Q_optimizer agent) (Q_net agent) Q_loss in
  let '(policy_optimizer', policy_net') :=
    optimizer_step (policy_optimizer agent) (policy_net agent) pi_loss in
  let '(value_risk_optimizer', value_risk_net') :=
    if use_recovery agent
    then optimizer_step (value_risk_optimizer agent) (value_risk_net agent) V_risk_loss
    else (value_risk_optimizer agent, value_risk_net agent) in
  let '(Q_risk_optimizer', Q_risk_net') :=
    if use_recovery agent
    then optimizer_step (Q_risk_optimizer agent) (Q_risk_net agent) Q_risk_loss
    else (Q_risk_optimizer agent, Q_risk_net agent) in
  let '(policy_recovery_optimizer', policy_recovery_net') :=
    if use_recovery agent
    then optimizer_step (policy_recovery_optimizer agent) (policy_recovery_net agent)
           pi_recovery_loss
    else (policy_recovery_optimizer agent, policy_recovery_net agent) in
  {| use_suppression := use_suppression agent;
     use_recovery := use_recovery agent;
     lam := lam agent;
     buffer_start_training := buffer_start_training agent;
     lr := lr agent;
     continue_episode := continue_episode agent;
     state_dim := state_dim agent;
     action_dim := action_dim agent;
     min_Val := min_Val agent;
     batch_size := batch_size agent;
     update_iteration := update_iteration agent;
     gamma := gamma agent;
     tau := tau agent;
     policy_net := policy_net';
     value_net := value_net';
     Q_net := Q_net';
     Target_value_net := soft_update (tau agent) (Target_value_net agent) value_net';
     value_risk_net := value_risk_net';
     policy_recovery_net := policy_recovery_net';
     Q_risk_net := Q_risk_net';
     Target_value_risk_net :=
       if use_recovery agent
       then soft_update (tau agent) (Target_value_risk_net agent) value_risk_net'
       else Target_value_risk_net agent;
     policy_optimizer := policy_optimizer';
     value_optimizer := value_optimizer';
     Q_optimizer := Q_optimizer';
     policy_recovery_optimizer := policy_recovery_optimizer';
     value_risk_optimizer := value_risk_optimizer';
     Q_risk_optimizer := Q_risk_optimizer';
     risk_thresh := risk_thresh agent;
     mode := mode agent |}.

(** One inner iteration on a sampled batch. *)
Definition train_step (agent : t) (batch : gmap string ndarray) (eps_task eps_rec : Noise)
    : result t :=
  c ← read_batch batch;
  Ok (update agent c eps_task eps_rec).

(** [for _ in range(update_iteration)]: iteration [k] uses the draws
    [entropy k]; the result carries the number of the next unused draw.
    With recovery an iteration evaluates [max_terminal_bound] after it has
    read the batch and before its first optimizer step; an iteration that
    raises leaves no agent behind here, so the bound is asked for once the
    reads of [train_step] have gone through. *)
Fixpoint train_loop {B} `{Replay B} (n : nat) (agent : t) (replay_buffer : B)
    (entropy : nat → Draw) (k : nat) : result (t * nat) :=
  match n with
  | O => Ok (agent, k)
  | S n' =>
      batch ← replay_sample replay_buffer (batch_size agent) (sample_index (entropy k));
      agent' ← train_step agent batch (eps_task (entropy k)) (eps_rec (entropy k));
      _ ← (if use_recovery agent then max_terminal_bound agent else Ok 0);
      train_loop n' agent' replay_buffer entropy (S k)
  end.

(** [train(replay_buffer)] *)
Definition train {B} `{Replay B} (agent : t) (replay_buffer : B)
    (entropy : nat → Draw) (k : nat) : result (t * nat) :=
  if decide (replay_buffer_len replay_buffer < buffer_start_training agent)%Z
  then Ok (agent, k)
  else train_loop (Z.to_nat (update_iteration agent)) agent replay_buffer entropy k.

End WithTorch.
End SAC.

(** ** The last tanh in 32-bit floats

    The tensors of the source are 32-bit floats ([torch.FloatTensor]), and
    the embedding of the agent above computes over the reals.  For most of
    what is proved there the difference is one of rounding; for the range of
    an action it is not, since a rounded tanh reaches 1 and -1.  This module
    embeds [Actor.forward] and [get_action] once more, with the tanh that
    ends every action rounded to the nearest binary32 number, ties to even.
    The arithmetic before that tanh is left exact: rounding it changes the
    argument of the tanh, and what is proved here holds for every argument.
    Infinities and NaN are outside the model. *)

Module Float32.

(** The exponent of the binary32 numbers around [x]: the largest [e] from
    127 down to -126 with [2^e <= |x|], and -126, the exponent of the
    subnormal numbers, when there is none. *)
Fixpoint exponent_from (n : nat) (e : Z) (x : R) : Z :=
  match n with
  | O => e
  | S n' => if Rle_dec (powerRZ 2 e) (Rabs x) then e else exponent_from n' (e - 1) x
  end.

Definition exponent (x : R) : Z := exponent_from 253 127 x.

(** The integer nearest to [t], the even one of two that are equally near. *)
Definition nearest_even (t : R) : Z :=
  let below := Int_part t in
  let rest := t - IZR below in
  if Rlt_dec rest (1 / 2) then below
  else if Rlt_dec (1 / 2) rest then (below + 1)%Z
  else if Z.even below then below else (below + 1)%Z.

(** Rounding to binary32: 24 significant bits, so the numbers around [x]
    are the multiples of [2^(exponent x - 23)]. *)
Definition round32 (x : R) : R :=
  let ulp := powerRZ 2 (exponent x - 23) in
  IZR (nearest_even (x / ulp)) * ulp.

(** [torch.tanh] on a 32-bit float. *)
Definition tanh32 (x : R) : R := round32 (tanh x).

Section WithTorch.
Context `{Torch}.

(** [Actor.forward] *)
Definition Actor_forward (θ : Params) (x : list Vec) : list Vec * list Vec :=
  (fmap (fun xi => fmap tanh32 (actor_mu θ xi)) x, fmap (actor_logstd θ) x).

(** The local function [sample(mu, log_sigma)] of [get_action]. *)
Definition sample (deterministic : bool) (eps : Noise) (mu log_sigma : list Vec) : list Vec :=
  if deterministic then mu
  else
    let sigma := tmap exp log_sigma in
    let dist := {| loc := mu; scale := sigma |} in
    let z := Normal_sample dist eps in
    tmap tanh32 z.

(** [get_action(state, infos, deterministic)] *)
Definition get_action (agent : SAC.t) (state : list Vec) (infos : list ReplayBuffer.info)
    (deterministic : bool) (eps_task eps_rec : Noise) : result (list Vec * list Vec) :=
  let '(mu_task, log_sigma_task) := Actor_forward (SAC.policy_net agent) state in
  let task_action := sample deterministic eps_task mu_task log_sigma_task in
  if SAC.use_recovery agent then
    let risk := SAC.Q_forward (SAC.Q_risk_net agent) state task_action in
    risk0 ← risk !! 0%nat ?! IndexError;
    if Rlt_dec risk0 (- SAC.risk_thresh agent) then
      let '(mu_rec, log_sigma_rec) :=
        Actor_forward (SAC.policy_recovery_net agent) state in
      let action := sample deterministic eps_rec mu_rec log_sigma_rec in
      Ok (task_action, action)
    else
      let action := task_action in
      Ok (task_action, action)
  else
    let action := task_action in
    Ok (task_action, action).

End WithTorch.
End Float32.

(** ** Notions used by the statements *)

Module Spec.

(** The most recent [w] entries of a trajectory. *)
Definition window {A} (w : Z) (traj : list A) : list A :=
  drop (length traj - Z.to_nat w) traj.

(** The sampling pool of one field: the windows of all scenarios, scenario
    after scenario. *)
Definition pool {A} (w : Z) (field : list (list A)) : list A :=
  concat (window w <$> field).

(** Number of transitions a buffer holds. *)
Definition stored (b : ReplayBuffer.t) : nat :=
  sum_list (length <$> ReplayBuffer.buffer_rewards b).

(** The six fields of a buffer hold one trajectory per scenario, and the
    six trajectories of a scenario have one length. *)
Record aligned_fields (b : ReplayBuffer.t) : Prop := {
  aligned_scenarios :
    length (ReplayBuffer.buffer_rewards b) = Z.to_nat (ReplayBuffer.num_scenario b);
  aligned_ego_actions :
    length <$> ReplayBuffer.buffer_ego_actions b = length <$> ReplayBuffer.buffer_rewards b;
  aligned_scenario_actions :
    length <$> ReplayBuffer.buffer_scenario_actions b
    = length <$> ReplayBuffer.buffer_rewards b;
  aligned_obs :
    length <$> ReplayBuffer.buffer_obs b = length <$> ReplayBuffer.buffer_rewards b;
  aligned_next_obs :
    length <$> ReplayBuffer.buffer_next_obs b = length <$> ReplayBuffer.buffer_rewards b;
  aligned_dones :
    length <$> ReplayBuffer.buffer_dones b = length <$> ReplayBuffer.buffer_rewards b;
}.

(** Aligned fields, and [buffer_len] counts the stored transitions. *)
Definition aligned (b : ReplayBuffer.t) : Prop :=
  aligned_fields b ∧ ReplayBuffer.buffer_len b = Z.of_nat (stored b).

(** The buffers a program can hold: a fresh one, and one after a call of
    [store] that returned. *)
Inductive reachable : ReplayBuffer.t → Prop :=
  | reachable_init num_scenario mode buffer_capacity :
      reachable (ReplayBuffer.init num_scenario mode buffer_capacity)
  | reachable_store b d b' :
      reachable b → ReplayBuffer.store b d = Ok b' → reachable b'.

(** The action field [sample] reads in the mode of the buffer. *)
Definition action_field (b : ReplayBuffer.t) : list (list Vec) :=
  if decide (ReplayBuffer.mode b = "train_agent")
  then ReplayBuffer.buffer_ego_actions b
  else ReplayBuffer.buffer_scenario_actions b.

(** Every entry of a [B, d] tensor lies strictly between -1 and 1. *)
Definition in_open_unit (x : list Vec) : Prop :=
  Forall (Forall (fun v => -1 < v < 1)) x.

(** Every entry of a [B, d] tensor lies between -1 and 1, ends included. *)
Definition in_closed_unit (x : list Vec) : Prop :=
  Forall (Forall (fun v => -1 <= v <= 1)) x.

(** The entries of a list have one shape, as [np.stack] asks. *)
Definition stackable {A} `{Shaped A} (xs : list A) : Prop :=
  ∀ x y, x ∈ xs → y ∈ xs → shape x = shape y.

(** Entry [j] of parameter tensor [i]. *)
Definition param_at (θ : Params) (i j : nat) : option R :=
  row ← θ !! i; row !! j.

(** Two parameter lists of one architecture. *)
Definition same_shape (θ1 θ2 : Params) : Prop :=
  Forall2 (fun p1 p2 => length p1 = length p2) θ1 θ2.

(** The squashed-Gaussian log-density of one action component:
    [log N(z) - log(1 - tanh(z)^2 + ε)]. *)
Definition corrected_log_density (ε m s z : R) : R :=
  normal_log_density m s z - ln (1 - tanh z ^ 2 + ε).

(** The pre-squash sample of one observation [x] under the actor [θ], for
    the noise [eps_row] of its row, and the sum over the action dimensions
    of its corrected log-densities. *)
Definition pre_squash `{Torch} (θ : Params) (x : Vec) (eps_row : nat → R) : Vec :=
  imap (fun j '(m, s) => m + s * eps_row j)
       (zip (tanh <$> actor_mu θ x) (exp <$> actor_logstd θ x)).

Definition corrected_log_prob `{Torch} (ε : R) (θ : Params) (x : Vec) (eps_row : nat → R) : R :=
  sum_R (zip_with (fun '(m, s) z => corrected_log_density ε m s z)
           (zip (tanh <$> actor_mu θ x) (exp <$> actor_logstd θ x))
           (pre_squash θ x eps_row)).

(** The risk target in the words of the specification, on the risk and the
    done flag of the batch. *)
Definition claimed_next_q_risk_value (γ risk done v_next : R) : R :=
  risk + (1 - done) * γ * v_next
  + clamp (risk / (1 - γ) * (1 - done) - risk) 0 (50 / (1 - γ)).

(** The gate in the words of the specification: the weight is the option
    [suppression_weight] of the configuration, 10.0 when it is not set. *)
Definition claimed_gate (config : gmap string value) (new_Q_risk : R) : R :=
  let weight :=
    match cfg_float config "suppression_weight" with
    | Ok w => w
    | Raise _ => 10
    end in
  clamp (- new_Q_risk * weight * 2) 0.25 0.75.

End Spec.

(** ** Concrete instances *)

Module Demo.

(** A small instance of the torch operations: the mean head returns the
    first parameter tensor, the log-std head is zero, the critic sums its
    first parameter tensor, the Q network reads the first entry of the
    observation, and the optimizer halves every weight. *)
#[local] Instance toy : Torch := {|
  actor_mu θ x := default [] (θ !! 0%nat);
  actor_logstd θ x := (fun _ => 0) <$> default [] (θ !! 0%nat);
  critic_out θ x := sum_R (default [] (θ !! 0%nat));
  q_out θ x a := default 0 (x !! 0%nat);
  optimizer := unit;
  Adam _ _ := tt;
  optimizer_step o θ loss := (o, tmap (fun w => w / 2) θ);
|}.

Definition agent : SAC.t := {|
  SAC.use_suppression := true;
  SAC.use_recovery := true;
  SAC.lam := 2;
  SAC.buffer_start_training := 1;
  SAC.lr := 0.001;
  SAC.continue_episode := 0;
  SAC.state_dim := 1;
  SAC.action_dim := 1;
  SAC.min_Val := 0;
  SAC.batch_size := 2;
  SAC.update_iteration := 1;
  SAC.gamma := 0.5;
  SAC.tau := 0.5;
  SAC.policy_net := [[0]];
  SAC.value_net := [[1]];
  SAC.Q_net := [[0]];
  SAC.Target_value_net := [[0]];
  SAC.value_risk_net := [[1]];
  SAC.policy_recovery_net := [[1]];
  SAC.Q_risk_net := [[0]];
  SAC.Target_value_risk_net := [[0]];
  SAC.policy_optimizer := tt;
  SAC.value_optimizer := tt;
  SAC.Q_optimizer := tt;
  SAC.policy_recovery_optimizer := tt;
  SAC.value_risk_optimizer := tt;
  SAC.Q_risk_optimizer := tt;
  SAC.risk_thresh := 0.1;
  SAC.mode := "train";
|}.

(** A batch of one transition with the seven keys [train] reads. *)
Definition batch : gmap string ndarray :=
  {[ "state" := Arr2 [[0]];
     "task_action" := Arr2 [[0]];
     "mixed_action" := Arr2 [[0]];
     "reward" := Arr1 [1];
     "risk" := Arr1 [1];
     "n_state" := Arr2 [[0]];
     "done" := Arr1 [0] ]}.

Definition columns : SAC.Columns := {|
  SAC.bn_s := [[0]];
  SAC.bn_a_task := [[0]];
  SAC.bn_a_mixed := [[0]];
  SAC.bn_r := [1];
  SAC.bn_r_risk := [- 1];
  SAC.bn_s_ := [[0]];
  SAC.bn_d := [1 - 0];
|}.

Definition no_noise : Noise := fun _ _ => 0.

Definition entropy : nat → Draw := fun _ =>
  {| sample_index := [0; 1]%nat; eps_task := no_noise; eps_rec := no_noise |}.

(** Two scenarios, one step each. *)
Definition step : ReplayBuffer.data_list := {|
  ReplayBuffer.ego_actions := [[0]; [0]];
  ReplayBuffer.scenario_actions := [[0]; [0]];
  ReplayBuffer.obs := [[0]; [-1]];
  ReplayBuffer.next_obs := [[0]; [-1]];
  ReplayBuffer.rewards := [1; 1];
  ReplayBuffer.dones := [0; 0];
  ReplayBuffer.infos :=
    [ {| ReplayBuffer.scenario_id := 0 |}; {| ReplayBuffer.scenario_id := 1 |} ];
|}.

(** The buffer of two scenarios and capacity four after [store step]. *)
Definition buffer : ReplayBuffer.t := {|
  ReplayBuffer.mode := "train_agent";
  ReplayBuffer.buffer_capacity := 4;
  ReplayBuffer.num_scenario := 2;
  ReplayBuffer.buffer_len := 2;
  ReplayBuffer.buffer_ego_actions := [[[0]]; [[0]]];
  ReplayBuffer.buffer_scenario_actions := [[[0]]; [[0]]];
  ReplayBuffer.buffer_obs := [[[0]]; [[-1]]];
  ReplayBuffer.buffer_next_obs := [[[0]]; [[-1]]];
  ReplayBuffer.buffer_rewards := [[1]; [1]];
  ReplayBuffer.buffer_dones := [[0]; [0]];
|}.

(** The same step stored in a buffer of two scenarios and capacity one. *)
Definition cramped : ReplayBuffer.t := {|
  ReplayBuffer.mode := "train_agent";
  ReplayBuffer.buffer_capacity := 1;
  ReplayBuffer.num_scenario := 2;
  ReplayBuffer.buffer_len := 2;
  ReplayBuffer.buffer_ego_actions := [[[0]]; [[0]]];
  ReplayBuffer.buffer_scenario_actions := [[[0]]; [[0]]];
  ReplayBuffer.buffer_obs := [[[0]]; [[-1]]];
  ReplayBuffer.buffer_next_obs := [[[0]]; [[-1]]];
  ReplayBuffer.buffer_rewards := [[1]; [1]];
  ReplayBuffer.buffer_dones := [[0]; [0]];
|}.

(** A configuration with every key [SAC.__init__] reads, and one more. *)
Definition config : gmap string value :=
  {[ "buffer_start_training" := VInt 1;
     "lr" := VFloat 0.001;
     "ego_state_dim" := VInt 1;
     "ego_action_dim" := VInt 1;
     "min_Val" := VFloat 0;
     "batch_size" := VInt 2;
     "update_iteration" := VInt 1;
     "gamma" := VFloat 0.5;
     "tau" := VFloat 0.5;
     "model_id" := VInt 0;
     "ROOT_DIR" := VStr "/";
     "model_path" := VStr "model";
     "suppression_weight" := VFloat 5 ]}.

Definition fresh : SAC.Fresh := {|
  SAC.fresh_policy_net := [[0]];
  SAC.fresh_value_net := [[1]];
  SAC.fresh_Q_net := [[0]];
  SAC.fresh_Target_value_net := [[0]];
  SAC.fresh_value_risk_net := [[1]];
  SAC.fresh_policy_recovery_net := [[1]];
  SAC.fresh_Q_risk_net := [[0]];
  SAC.fresh_Target_value_risk_net := [[0]];
|}.

End Demo.

(** ** Further notions for the replay buffer *)

Module Notions.

(** The entries of [xs] that one call of [store] files under scenario [s]:
    those whose info carries the id [s], in their order. *)
Definition stored_with {A} (infos : list ReplayBuffer.info) (xs : list A) (s : nat) : list A :=
  omap (fun '(inf, x) =>
          if decide (ReplayBuffer.scenario_id inf = s) then Some x else None)
       (zip infos xs).

(** The argument of [store] fits the buffer: every scenario id indexes a
    sub-buffer and no data sequence is shorter than [infos]. *)
Definition fits (b : ReplayBuffer.t) (d : ReplayBuffer.data_list) : Prop :=
  Forall (fun inf => (ReplayBuffer.scenario_id inf < length (ReplayBuffer.buffer_rewards b))%nat)
         (ReplayBuffer.infos d)
  ∧ (length (ReplayBuffer.infos d) ≤ length (ReplayBuffer.ego_actions d))%nat
  ∧ (length (ReplayBuffer.infos d) ≤ length (ReplayBuffer.scenario_actions d))%nat
  ∧ (length (ReplayBuffer.infos d) ≤ length (ReplayBuffer.obs d))%nat
  ∧ (length (ReplayBuffer.infos d) ≤ length (ReplayBuffer.next_obs d))%nat
  ∧ (length (ReplayBuffer.infos d) ≤ length (ReplayBuffer.rewards d))%nat
  ∧ (length (ReplayBuffer.infos d) ≤ length (ReplayBuffer.dones d))%nat.

(** Scenario and time step of entry [i] of a pool with window [w], for
    trajectories of the lengths [lens]. *)
Fixpoint locate (w : nat) (lens : list nat) (i : nat) : option (nat * nat) :=
  match lens with
  | [] => None
  | n :: lens' =>
      if decide (i < Nat.min w n)%nat then Some (0%nat, (n - w + i)%nat)
      else (fun '(s, t) => (S s, t)) <$> locate w lens' (i - Nat.min w n)
  end.

End Notions.

(** ** Further notions for the agent *)

Module AgentNotions.
Section WithTorch.
Context `{Torch}.

(** The keys [SAC.__init__] reads from its configuration. *)
Definition init_keys : list string :=
  [ "buffer_start_training"; "lr"; "ego_state_dim"; "ego_action_dim"; "min_Val";
    "batch_size"; "update_iteration"; "gamma"; "tau"; "model_id"; "ROOT_DIR";
    "model_path" ].

(** Two agents with the same flags, constants and options: everything but
    networks and optimizers. *)
Definition same_configuration (a1 a2 : SAC.t) : Prop :=
  SAC.use_suppression a1 = SAC.use_suppression a2
  ∧ SAC.use_recovery a1 = SAC.use_recovery a2
  ∧ SAC.lam a1 = SAC.lam a2
  ∧ SAC.buffer_start_training a1 = SAC.buffer_start_training a2
  ∧ SAC.lr a1 = SAC.lr a2
  ∧ SAC.continue_episode a1 = SAC.continue_episode a2
  ∧ SAC.state_dim a1 = SAC.state_dim a2
  ∧ SAC.action_dim a1 = SAC.action_dim a2
  ∧ SAC.min_Val a1 = SAC.min_Val a2
  ∧ SAC.batch_size a1 = SAC.batch_size a2
  ∧ SAC.update_iteration a1 = SAC.update_iteration a2
  ∧ SAC.gamma a1 = SAC.gamma a2
  ∧ SAC.tau a1 = SAC.tau a2
  ∧ SAC.risk_thresh a1 = SAC.risk_thresh a2
  ∧ SAC.mode a1 = SAC.mode a2.

(** [n] soft updates of a target towards one live network. *)
Definition soft_updates (n : nat) (tau : R) (target live : Params) : Params :=
  Nat.iter n (fun target => SAC.soft_update tau target live) target.

End WithTorch.
End AgentNotions.

(** ** Checkpoints and modes

    [save_model], [load_model] and [set_mode] of the agent.  The model
    directory is a value: the files directly in it, by name, each holding
    what [torch.save] wrote (a dictionary of state dicts, with whatever keys
    it has), and the names of the files below its sub-directories.  The
    model id is the formatted [config['model_id']] and holds no path
    separator.  Files of other content, and state dicts of another
    architecture, are outside the model.  The logger is left out. *)

Module Checkpoint.
Import Stdlib.Strings.Ascii.

(** The characters the file names are built from. *)
Definition dot : ascii := "."%char.
Definition minus : ascii := "-"%char.
Definition digit_0 : ascii := "0"%char.

(** Python's [int] on a string.  It is the interpreter's; the statements
    that depend on it say what they ask of it. *)
Class Python : Type := { py_int : string → result Z }.

(** [s.split(sep)] for a one-character separator. *)
Fixpoint split_on (sep : ascii) (s : string) : list string :=
  match s with
  | EmptyString => [EmptyString]
  | String c s' =>
      if Ascii.eqb c sep then EmptyString :: split_on sep s'
      else match split_on sep s' with
           | h :: t => String c h :: t
           | [] => [String c EmptyString]
           end
  end.

(** [xs[-2]] *)
Definition second_last {A} (xs : list A) : result A :=
  if decide (2 ≤ length xs)%nat then xs !! (length xs - 2)%nat ?! IndexError
  else Raise IndexError.

(** [fnmatch(name, "*torch")]: the name ends in torch (names are matched
    as they are, as on a POSIX system). *)
Definition ends_with_torch (name : string) : bool :=
  bool_decide (Stdlib.Strings.String.list_ascii_of_string "torch" `suffix_of` Stdlib.Strings.String.list_ascii_of_string name).

(** [s.zfill(width)] for a string of digits. *)
Definition zfill (width : nat) (s : string) : string :=
  Nat.iter (width - Stdlib.Strings.String.length s) (String digit_0) s.

(** [f'{episode:04}'] for an integer: sign-aware zero padding to width 4. *)
Definition format_04 (episode : Z) : string :=
  let digits := DecimalString.NilZero.string_of_uint (N.to_uint (Z.abs_N episode)) in
  if decide (episode < 0)%Z then String minus (zfill 3 digits) else zfill 4 digits.

(** [f'model.sac.{model_id}.{episode:04}.torch'] *)
Definition file_name (model_id : string) (episode : Z) : string :=
  "model.sac." +:+ model_id +:+ "." +:+ format_04 episode +:+ ".torch".

(** The directory [model_path]. *)
Record Dir : Type := {
  top : gmap string (gmap string Params);
  nested : list string;
}.

(** The file names [os.walk(model_path)] yields: the directory itself first,
    then its sub-directories. *)
Definition walk (d : Dir) : list string := (map_to_list (top d)).*1 ++ nested d.

(** [int(name.split(".")[-2])] *)
Definition episode_of `{Python} (name : string) : result Z :=
  component ← second_last (split_on dot name);
  py_int component.

(** The loop of [load_model] over the walked names. *)
Fixpoint scan `{Python} (names : list string) (episode : Z) : result Z :=
  match names with
  | [] => Ok episode
  | name :: names' =>
      if ends_with_torch name then
        cur_episode ← episode_of name;
        scan names' (if decide (episode < cur_episode)%Z then cur_episode else episode)
      else scan names' episode
  end.

(** The training flags of the six networks [set_mode] switches. *)
Record Flags : Type := {
  policy_net_training : bool;
  value_net_training : bool;
  Q_net_training : bool;
  policy_recovery_net_training : bool;
  value_risk_net_training : bool;
  Q_risk_net_training : bool;
}.

Section WithTorch.
Context `{Torch} `{Python}.

(** The agent with other task networks, recovery networks, continue episode
    and mode; all else as it is. *)
Definition with_state (agent : SAC.t) (policy_net value_net Q_net : Params)
    (policy_recovery_net value_risk_net Q_risk_net : Params)
    (continue_episode : Z) (mode : string) : SAC.t :=
  {| SAC.use_suppression := SAC.use_suppression agent;
     SAC.use_recovery := SAC.use_recovery agent;
     SAC.lam := SAC.lam agent;
     SAC.buffer_start_training := SAC.buffer_start_training agent;
     SAC.lr := SAC.lr agent;
     SAC.continue_episode := continue_episode;
     SAC.state_dim := SAC.state_dim agent;
     SAC.action_dim := SAC.action_dim agent;
     SAC.min_Val := SAC.min_Val agent;
     SAC.batch_size := SAC.batch_size agent;
     SAC.update_iteration := SAC.update_iteration agent;
     SAC.gamma := SAC.gamma agent;
     SAC.tau := SAC.tau agent;
     SAC.policy_net := policy_net;
     SAC.value_net := value_net;
     SAC.Q_net := Q_net;
     SAC.Target_value_net := SAC.Target_value_net agent;
     SAC.value_risk_net := value_risk_net;
     SAC.policy_recovery_net := policy_recovery_net;
     SAC.Q_risk_net := Q_risk_net;
     SAC.Target_value_risk_net := SAC.Target_value_risk_net agent;
     SAC.policy_optimizer := SAC.policy_optimizer agent;
     SAC.value_optimizer := SAC.value_optimizer agent;
     SAC.Q_optimizer := SAC.Q_optimizer agent;
     SAC.policy_recovery_optimizer := SAC.policy_recovery_optimizer agent;
     SAC.value_risk_optimizer := SAC.value_risk_optimizer agent;
     SAC.Q_risk_optimizer := SAC.Q_risk_optimizer agent;
     SAC.risk_thresh := SAC.risk_thresh agent;
     SAC.mode := mode |}.

(** [set_mode(mode)]: the mode is stored first; an unknown mode raises after
    that. *)
Definition set_mode (agent : SAC.t) (flags : Flags) (mode : string)
    : SAC.t * Flags * result unit :=
  let agent :=
    with_state agent (SAC.policy_net agent) (SAC.value_net agent) (SAC.Q_net agent)
      (SAC.policy_recovery_net agent) (SAC.value_risk_net agent) (SAC.Q_risk_net agent)
      (SAC.continue_episode agent) mode in
  let switch (training : bool) :=
    {| policy_net_training := training;
       value_net_training := training;
       Q_net_training := training;
       policy_recovery_net_training :=
         if SAC.use_recovery agent then training else policy_recovery_net_training flags;
       value_risk_net_training :=
         if SAC.use_recovery agent then training else value_risk_net_training flags;
       Q_risk_net_training :=
         if SAC.use_recovery agent then training else Q_risk_net_training flags |} in
  if decide (mode = "train") then (agent, switch true, Ok ())
  else if decide (mode = "eval") then (agent, switch false, Ok ())
  else (agent, flags, Raise ValueError).

(** [save_model(episode)] *)
Definition save_model (agent : SAC.t) (model_id : string) (d : Dir) (episode : Z) : Dir :=
  let states : gmap string Params :=
    {[ "policy_net" := SAC.policy_net agent;
       "value_net" := SAC.value_net agent;
       "Q_net" := SAC.Q_net agent ]} in
  let states :=
    if SAC.use_recovery agent then
      <["policy_recovery_net" := SAC.policy_recovery_net agent]>
        (<["value_risk_net" := SAC.value_risk_net agent]>
           (<["Q_risk_net" := SAC.Q_risk_net agent]> states))
    else states in
  let filepath := file_name model_id episode in
  {| top := <[filepath := states]> (top d); nested := nested d |}.

(** [self.<net>.load_state_dict(state)] for each of the six networks, and
    the assignment to [self.continue_episode]. *)
Definition load_policy_net (agent : SAC.t) (state : Params) : SAC.t :=
  with_state agent state (SAC.value_net agent) (SAC.Q_net agent)
    (SAC.policy_recovery_net agent) (SAC.value_risk_net agent) (SAC.Q_risk_net agent)
    (SAC.continue_episode agent) (SAC.mode agent).

Definition load_value_net (agent : SAC.t) (state : Params) : SAC.t :=
  with_state agent (SAC.policy_net agent) state (SAC.Q_net agent)
    (SAC.policy_recovery_net agent) (SAC.value_risk_net agent) (SAC.Q_risk_net agent)
    (SAC.continue_episode agent) (SAC.mode agent).

Definition load_Q_net (agent : SAC.t) (state : Params) : SAC.t :=
  with_state agent (SAC.policy_net agent) (SAC.value_net agent) state
    (SAC.policy_recovery_net agent) (SAC.value_risk_net agent) (SAC.Q_risk_net agent)
    (SAC.continue_episode agent) (SAC.mode agent).

Definition load_policy_recovery_net (agent : SAC.t) (state : Params) : SAC.t :=
  with_state agent (SAC.policy_net agent) (SAC.value_net agent) (SAC.Q_net agent)
    state (SAC.value_risk_net agent) (SAC.Q_risk_net agent)
    (SAC.continue_episode agent) (SAC.mode agent).

Definition load_value_risk_net (agent : SAC.t) (state : Params) : SAC.t :=
  with_state agent (SAC.policy_net agent) (SAC.value_net agent) (SAC.Q_net agent)
    (SAC.policy_recovery_net agent) state (SAC.Q_risk_net agent)
    (SAC.continue_episode agent) (SAC.mode agent).

Definition load_Q_risk_net (agent : SAC.t) (state : Params) : SAC.t :=
  with_state agent (SAC.policy_net agent) (SAC.value_net agent) (SAC.Q_net agent)
    (SAC.policy_recovery_net agent) (SAC.value_risk_net agent) state
    (SAC.continue_episode agent) (SAC.mode agent).

Definition set_continue_episode (agent : SAC.t) (episode : Z) : SAC.t :=
  with_state agent (SAC.policy_net agent) (SAC.value_net agent) (SAC.Q_net agent)
    (SAC.policy_recovery_net agent) (SAC.value_risk_net agent) (SAC.Q_risk_net agent)
    episode (SAC.mode agent).

(** The body of [load_model] once the file is open: the networks are
    replaced one after the other, so a missing key leaves the earlier ones
    replaced. *)
Definition load_state_dicts (agent : SAC.t) (episode : Z)
    (checkpoint : gmap string Params) : SAC.t * result unit :=
  match checkpoint !! "policy_net" with
  | None => (agent, Raise (KeyError "policy_net"))
  | Some state =>
  let agent := load_policy_net agent state in
  match checkpoint !! "value_net" with
  | None => (agent, Raise (KeyError "value_net"))
  | Some state =>
  let agent := load_value_net agent state in
  match checkpoint !! "Q_net" with
  | None => (agent, Raise (KeyError "Q_net"))
  | Some state =>
  let agent := load_Q_net agent state in
  let agent := set_continue_episode agent episode in
  if SAC.use_recovery agent then
    match checkpoint !! "policy_recovery_net" with
    | None => (agent, Raise (KeyError "policy_recovery_net"))
    | Some state =>
    let agent := load_policy_recovery_net agent state in
    match checkpoint !! "value_risk_net" with
    | None => (agent, Raise (KeyError "value_risk_net"))
    | Some state =>
    let agent := load_value_risk_net agent state in
    match checkpoint !! "Q_risk_net" with
    | None => (agent, Raise (KeyError "Q_risk_net"))
    | Some state => (load_Q_risk_net agent state, Ok ())
    end end end
  else (agent, Ok ())
  end end end.

(** [load_model(episode)]; [None] asks for the highest episode among the
    walked names that end in torch. *)
Definition load_model (agent : SAC.t) (model_id : string) (d : Dir) (episode : option Z)
    : SAC.t * result unit :=
  let found :=
    match episode with
    | None => scan (walk d) (-1)
    | Some episode => Ok episode
    end in
  match found with
  | Raise e => (agent, Raise e)
  | Ok episode =>
      let filepath := file_name model_id episode in
      match top d !! filepath with
      | Some checkpoint => load_state_dicts agent episode checkpoint
      | None => (agent, Ok ())
      end
  end.

End WithTorch.
End Checkpoint.

(** ** Further instances *)

Module Cases.
Import Stdlib.Strings.Ascii.
#[local] Existing Instance Demo.toy.

(** A replay source that returns the seven-key batch of [Demo] at every
    call. *)
#[local] Instance steady : Replay unit := {|
  replay_buffer_len _ := 5%Z;
  replay_sample _ _ _ := Ok Demo.batch;
|}.

(** The agent of [Demo] with recovery and suppression switched off. *)
Definition plain : SAC.t := {|
  SAC.use_suppression := false;
  SAC.use_recovery := false;
  SAC.lam := 2;
  SAC.buffer_start_training := 1;
  SAC.lr := 0.001;
  SAC.continue_episode := 0;
  SAC.state_dim := 1;
  SAC.action_dim := 1;
  SAC.min_Val := 0;
  SAC.batch_size := 2;
  SAC.update_iteration := 1;
  SAC.gamma := 0.5;
  SAC.tau := 0.5;
  SAC.policy_net := [[0]];
  SAC.value_net := [[1]];
  SAC.Q_net := [[0]];
  SAC.Target_value_net := [[0]];
  SAC.value_risk_net := [[1]];
  SAC.policy_recovery_net := [[1]];
  SAC.Q_risk_net := [[0]];
  SAC.Target_value_risk_net := [[0]];
  SAC.policy_optimizer := tt;
  SAC.value_optimizer := tt;
  SAC.Q_optimizer := tt;
  SAC.policy_recovery_optimizer := tt;
  SAC.value_risk_optimizer := tt;
  SAC.Q_risk_optimizer := tt;
  SAC.risk_thresh := 0.1;
  SAC.mode := "train";
|}.


(** An agent of the same configuration as [Demo.agent] with other
    networks, as a fresh process would have before it loads a checkpoint. *)
Definition blank : SAC.t :=
  Checkpoint.with_state Demo.agent [[5]] [[5]] [[5]] [[5]] [[5]] [[5]] 0 "train".

(** The agent of [Demo] with a policy network whose mean head puts out 16. *)
Definition saturated : SAC.t :=
  Checkpoint.with_state Demo.agent [[16]] [[1]] [[0]] [[1]] [[1]] [[0]] 0 "train".

(** Two steps of one scenario whose observations differ in length. *)
Definition ragged_steps : ReplayBuffer.data_list := {|
  ReplayBuffer.ego_actions := [[0]; [0]];
  ReplayBuffer.scenario_actions := [[0]; [0]];
  ReplayBuffer.obs := [[0]; [0; 1]];
  ReplayBuffer.next_obs := [[0]; [0; 1]];
  ReplayBuffer.rewards := [1; 1];
  ReplayBuffer.dones := [0; 0];
  ReplayBuffer.infos :=
    [ {| ReplayBuffer.scenario_id := 0 |}; {| ReplayBuffer.scenario_id := 0 |} ];
|}.

(** The buffer of one scenario and capacity four after [store ragged_steps]. *)
Definition ragged : ReplayBuffer.t := {|
  ReplayBuffer.mode := "train_agent";
  ReplayBuffer.buffer_capacity := 4;
  ReplayBuffer.num_scenario := 1;
  ReplayBuffer.buffer_len := 2;
  ReplayBuffer.buffer_ego_actions := [[[0]; [0]]];
  ReplayBuffer.buffer_scenario_actions := [[[0]; [0]]];
  ReplayBuffer.buffer_obs := [[[0]; [0; 1]]];
  ReplayBuffer.buffer_next_obs := [[[0]; [0; 1]]];
  ReplayBuffer.buffer_rewards := [[1; 1]];
  ReplayBuffer.buffer_dones := [[0; 0]];
|}.

(** [int] on decimal numerals with an optional minus sign.  The other
    strings Python's [int] reads (blanks around the numeral, a plus sign,
    underscores between digits) are errors here. *)
Definition decimal_int (s : string) : result Z :=
  match DecimalString.NilZero.uint_of_string s with
  | Some u => Ok (Z.of_N (N.of_uint u))
  | None =>
      match s with
      | String c s' =>
          if Ascii.eqb c Checkpoint.minus then
            u ← DecimalString.NilZero.uint_of_string s' ?! ValueError;
            Ok (- Z.of_N (N.of_uint u))%Z
          else Raise ValueError
      | EmptyString => Raise ValueError
      end
  end.

#[local] Instance decimal : Checkpoint.Python := {| Checkpoint.py_int := decimal_int |}.

(** A model directory with one checkpoint file of model 0 at episode 3
    (holding no state dict), and below it a file of model 1 at episode 7 and
    a file that is no checkpoint. *)
Definition dir : Checkpoint.Dir := {|
  Checkpoint.top := {[ "model.sac.0.0003.torch" := ∅ ]};
  Checkpoint.nested := ["model.sac.1.0007.torch"; "notes.txt"];
|}.

Definition empty_dir : Checkpoint.Dir := {|
  Checkpoint.top := ∅;
  Checkpoint.nested := [];
|}.

(** A model directory with one file whose name ends in torch and carries no
    episode. *)
Definition stray : Checkpoint.Dir := {|
  Checkpoint.top := ∅;
  Checkpoint.nested := ["best.torch"];
|}.

End Cases.

(** ** Facts about the exception monad and the replay buffer *)

Import Spec.

Lemma bind_Ok {A B} (m : result A) (f : A → result B) (b : B) :
  m ≫= f = Ok b ↔ ∃ a, m = Ok a ∧ f a = Ok b.
Proof.
  destruct m as [a|e]; simpl; split.
  - intros Hf. by exists a.
  - by intros (a' & [= ->] & Hf).
  - intros [=].
  - by intros (a' & [=] & _).
Qed.

Lemma or_raise_Ok {A} (o : option A) e a : o ?! e = Ok a ↔ o = Some a.
Proof. destruct o; simpl; split; congruence. Qed.

Lemma take_index_Ok {A} (pool : list A) (sample_index : list nat) :
  Forall (fun i => (i < length pool)%nat) sample_index →
  ∃ out, take_index pool sample_index = Ok out
    ∧ length out = length sample_index
    ∧ ∀ k i, sample_index !! k = Some i → out !! k = pool !! i.
Proof.
  induction 1 as [|i idx Hi _ (out & Hout & Hlen & Hrow)].
  - exists []. by split_and!.
  - destruct (lookup_lt_is_Some_2 pool i Hi) as [x Hx].
    exists (x :: out). unfold take_index in *. cbn. rewrite Hx. cbn. rewrite Hout. cbn.
    split_and!; [done|by rewrite Hlen|].
    intros [|k] j; cbn; [by intros [= <-]|by apply Hrow].
Qed.

Ltac result_inv :=
  repeat match goal with
    | H : _ ≫= _ = Ok _ |- _ => apply bind_Ok in H; destruct H as (? & ? & H)
    | H : _ ?! _ = Ok _ |- _ => apply or_raise_Ok in H
    | H : Ok _ = Ok _ |- _ => injection H as H
    | H : Raise _ = Ok _ |- _ => discriminate H
    end.

Lemma sum_list_insert_S (l : list nat) i n :
  l !! i = Some n → sum_list (<[i := S n]> l) = S (sum_list l).
Proof.
  revert i. induction l as [|x l IH]; intros [|i] Hi; simplify_eq/=; [done|].
  rewrite (IH _ Hi). lia.
Qed.

Lemma append_at_lengths {A} sid (x : A) buf buf' :
  ReplayBuffer.append_at sid x buf = Ok buf' →
  ∃ n, (length <$> buf) !! sid = Some n
     ∧ length <$> buf' = <[sid := S n]> (length <$> buf).
Proof.
  unfold ReplayBuffer.append_at. intros Hb.
  apply bind_Ok in Hb as (traj & Htraj & Hb).
  apply or_raise_Ok in Htraj. injection Hb as <-.
  exists (length traj). split.
  - by rewrite list_lookup_fmap, Htraj.
  - rewrite list_fmap_insert, length_app. cbn. f_equal. lia.
Qed.

Lemma store_one_aligned d b s_i b' :
  aligned_fields b → ReplayBuffer.store_one d b s_i = Ok b' →
  aligned_fields b'
  ∧ stored b' = S (stored b)
  ∧ ReplayBuffer.buffer_len b' = ReplayBuffer.buffer_len b.
Proof.
  intros [Hn He Hs Ho Hno Hd] Hst. unfold ReplayBuffer.store_one in Hst.
  result_inv. subst b'.
  repeat match goal with
    | H : ReplayBuffer.append_at _ _ _ = Ok _ |- _ =>
        apply append_at_lengths in H; destruct H as (? & ? & ?)
    end.
  rewrite He in *. rewrite Hs in *. rewrite Ho in *. rewrite Hno in *. rewrite Hd in *.
  simplify_eq.
  split_and!; [split; cbn; try congruence| |done].
  - match goal with
    | Hrw : length <$> ?rw = _ |- length ?rw = _ =>
        apply (f_equal length) in Hrw;
        rewrite length_insert, !length_fmap in Hrw; congruence
    end.
  - unfold stored. cbn.
    match goal with
    | Hrw : length <$> ?rw = _ |- context [length <$> ?rw] => rewrite Hrw
    end.
    by apply sum_list_insert_S.
Qed.

Lemma store_loop_aligned d idx : ∀ b b',
  aligned_fields b → ReplayBuffer.store_loop d b idx = Ok b' →
  aligned_fields b'
  ∧ stored b' = (stored b + length idx)%nat
  ∧ ReplayBuffer.buffer_len b' = ReplayBuffer.buffer_len b.
Proof.
  induction idx as [|s_i idx IH]; intros b b' Hb Hst; cbn in Hst.
  - injection Hst as <-. split_and!; [done|cbn; lia|done].
  - apply bind_Ok in Hst as (b1 & H1 & Hst).
    destruct (store_one_aligned _ _ _ _ Hb H1) as (Hb1 & Hs1 & Hl1).
    destruct (IH _ _ Hb1 Hst) as (Hb' & Hs' & Hl').
    split_and!; [done|cbn; lia|congruence].
Qed.

Lemma init_aligned num_scenario mode buffer_capacity :
  aligned (ReplayBuffer.init num_scenario mode buffer_capacity).
Proof.
  split; [split|]; cbn; rewrite ?length_replicate, ?fmap_replicate; try done.
  unfold stored. cbn.
  induction (Z.to_nat num_scenario); cbn; [done|lia].
Qed.

Lemma store_aligned b d b' :
  aligned b → ReplayBuffer.store b d = Ok b' → aligned b'.
Proof.
  intros [Hf Hlen] Hst. unfold ReplayBuffer.store in Hst.
  apply store_loop_aligned in Hst as (Hf' & Hs & Hl).
  - split; [done|]. rewrite Hl. cbn. rewrite Hs, Hlen, length_seq.
    unfold stored. cbn. lia.
  - by destruct Hf.
Qed.

(** Every reachable buffer has aligned fields, and its [buffer_len] is the
    number of stored transitions. *)
Lemma reachable_aligned b : reachable b → aligned b.
Proof.
  induction 1 as [| b d b' _ IH Hst]; [apply init_aligned|].
  by eapply store_aligned.
Qed.

Lemma drop_start_idx {A} w (traj : list A) len :
  length traj = len → drop (ReplayBuffer.start_idx w len) traj = window w traj.
Proof.
  intros <-. unfold ReplayBuffer.start_idx, window.
  destruct (decide (0 ≤ w)%Z).
  - f_equal. lia.
  - rewrite !drop_ge; [done|lia|lia].
Qed.

Lemma aligned_lookup {A B} (f : list (list A)) (g : list (list B)) k rw :
  length <$> f = length <$> g → g !! k = Some rw →
  ∃ t, f !! k = Some t ∧ length t = length rw.
Proof.
  intros Heq Hg. apply (f_equal (.!! k)) in Heq.
  rewrite !list_lookup_fmap, Hg in Heq.
  destruct (f !! k) as [t|]; simplify_eq/=. eauto.
Qed.

Lemma aligned_length {A B} (f : list (list A)) (g : list (list B)) :
  length <$> f = length <$> g → length f = length g.
Proof. intros Heq. apply (f_equal length) in Heq. by rewrite !length_fmap in Heq. Qed.

Lemma pool_cons {A} w (t : list A) f : pool w (t :: f) = window w t ++ pool w f.
Proof. done. Qed.

Lemma prepare_loop_Ok w b :
  aligned_fields b → ∀ m k p,
  (k + m = length (ReplayBuffer.buffer_rewards b))%nat →
  ReplayBuffer.prepare_loop w b p (seq k m) =
  Ok {| ReplayBuffer.prepared_ego_actions :=
          ReplayBuffer.prepared_ego_actions p
          ++ pool w (drop k (ReplayBuffer.buffer_ego_actions b));
        ReplayBuffer.prepared_scenario_actions :=
          ReplayBuffer.prepared_scenario_actions p
          ++ pool w (drop k (ReplayBuffer.buffer_scenario_actions b));
        ReplayBuffer.prepared_obs :=
          ReplayBuffer.prepared_obs p ++ pool w (drop k (ReplayBuffer.buffer_obs b));
        ReplayBuffer.prepared_next_obs :=
          ReplayBuffer.prepared_next_obs p
          ++ pool w (drop k (ReplayBuffer.buffer_next_obs b));
        ReplayBuffer.prepared_rewards :=
          ReplayBuffer.prepared_rewards p ++ pool w (drop k (ReplayBuffer.buffer_rewards b));
        ReplayBuffer.prepared_dones :=
          ReplayBuffer.prepared_dones p ++ pool w (drop k (ReplayBuffer.buffer_dones b)) |}.
Proof.
  intros [Hn He Hs Ho Hno Hd]. induction m as [|m IH]; intros k p Hk; cbn.
  - apply aligned_length in He, Hs, Ho, Hno, Hd.
    rewrite !drop_ge by lia. cbn. rewrite !app_nil_r. by destruct p.
  - destruct (lookup_lt_is_Some_2 (ReplayBuffer.buffer_rewards b) k) as [rw Hrw]; [lia|].
    destruct (aligned_lookup _ _ _ _ He Hrw) as (ea & Hea & Lea).
    destruct (aligned_lookup _ _ _ _ Hs Hrw) as (sa & Hsa & Lsa).
    destruct (aligned_lookup _ _ _ _ Ho Hrw) as (ob & Hob & Lob).
    destruct (aligned_lookup _ _ _ _ Hno Hrw) as (nob & Hnob & Lnob).
    destruct (aligned_lookup _ _ _ _ Hd Hrw) as (dn & Hdn & Ldn).
    unfold ReplayBuffer.prepare_one. rewrite Hrw, Hea, Hsa, Hob, Hnob, Hdn. cbn.
    rewrite IH by lia. cbn.
    rewrite (drop_S _ _ _ Hrw), (drop_S _ _ _ Hea), (drop_S _ _ _ Hsa),
      (drop_S _ _ _ Hob), (drop_S _ _ _ Hnob), (drop_S _ _ _ Hdn).
    rewrite !pool_cons, <- !app_assoc.
    by rewrite !drop_start_idx.
Qed.

(** The first loop of [sample] builds the pool of every field. *)
Lemma prepare_Ok b :
  aligned_fields b → ReplayBuffer.num_scenario b ≠ 0%Z →
  let w := (ReplayBuffer.buffer_capacity b `div` ReplayBuffer.num_scenario b)%Z in
  ReplayBuffer.prepare b =
  Ok {| ReplayBuffer.prepared_ego_actions := pool w (ReplayBuffer.buffer_ego_actions b);
        ReplayBuffer.prepared_scenario_actions :=
          pool w (ReplayBuffer.buffer_scenario_actions b);
        ReplayBuffer.prepared_obs := pool w (ReplayBuffer.buffer_obs b);
        ReplayBuffer.prepared_next_obs := pool w (ReplayBuffer.buffer_next_obs b);
        ReplayBuffer.prepared_rewards := pool w (ReplayBuffer.buffer_rewards b);
        ReplayBuffer.prepared_dones := pool w (ReplayBuffer.buffer_dones b) |}.
Proof.
  intros Hb Hn w. unfold ReplayBuffer.prepare. rewrite decide_False by done.
  rewrite (prepare_loop_Ok _ b Hb); [done|].
  destruct Hb. cbn. lia.
Qed.

Lemma length_window {A} w (t : list A) :
  length (window w t) = Nat.min (Z.to_nat w) (length t).
Proof. unfold window. rewrite length_drop. lia. Qed.

Lemma length_pool {A} w (f : list (list A)) :
  length (pool w f) = sum_list (Nat.min (Z.to_nat w) <$> (length <$> f)).
Proof.
  induction f as [|t f IH]; [done|].
  rewrite pool_cons, length_app, length_window, IH. done.
Qed.

Lemma pool_nonempty (w : Z) (l : list nat) :
  (1 ≤ w)%Z → (0 < sum_list l)%nat → (0 < sum_list (Nat.min (Z.to_nat w) <$> l))%nat.
Proof.
  intros Hw. induction l as [|n l IH]; cbn; [lia|].
  intros Hs. destruct n; cbn in *; [rewrite Nat.min_0_r; cbn; auto|lia].
Qed.

Lemma np_stack_Ok {A} `{Shaped A} (xs : list A) :
  (0 < length xs)%nat → stackable xs → np_stack xs = Ok xs.
Proof.
  destruct xs as [|x xs]; cbn; [lia|]. intros _ Hst.
  rewrite decide_True; [done|].
  apply Forall_forall. intros y Hy. apply Hst; [by right|by left].
Qed.

Lemma np_stack_inv {A} `{Shaped A} (xs arr : list A) :
  np_stack xs = Ok arr → arr = xs ∧ (0 < length xs)%nat ∧ stackable xs.
Proof.
  destruct xs as [|x xs]; cbn; [done|]. case_decide as Hall; [|done].
  intros [= <-]. split_and!; [done|lia|].
  rewrite Forall_forall in Hall.
  assert (∀ y, y ∈ x :: xs → shape y = shape x) as Hx.
  { intros y [->|Hy]%elem_of_cons; [done|by apply Hall]. }
  intros y z Hy Hz. by rewrite (Hx y Hy), (Hx z Hz).
Qed.

Lemma stackable_scalars (xs : list R) : stackable xs.
Proof. by intros x y _ _. Qed.

Lemma randint_inv high size raw sample_index :
  ReplayBuffer.randint high size raw = Ok sample_index →
  ReplayBuffer.randint_spec high size sample_index.
Proof.
  unfold ReplayBuffer.randint, ReplayBuffer.randint_spec.
  repeat case_decide; try done; intros [= <-].
  - split; [by subst|constructor].
  - split; [rewrite length_fmap, length_seq; lia|].
    apply Forall_fmap, Forall_forall. intros k _. cbn.
    apply Nat.mod_upper_bound. lia.
Qed.

Lemma randint_Ok high size raw :
  (0 ≤ size)%Z → (0 < high)%nat →
  ∃ sample_index, ReplayBuffer.randint high size raw = Ok sample_index.
Proof.
  intros Hsize Hhigh. unfold ReplayBuffer.randint.
  rewrite decide_False by lia. case_decide; [by eexists|].
  rewrite decide_False by lia. by eexists.
Qed.

(** Every list [np.random.randint] may return is the draw of a generator:
    of the one that produces this list. *)
Lemma randint_onto high size sample_index :
  ReplayBuffer.randint_spec high size sample_index →
  ReplayBuffer.randint high size sample_index = Ok sample_index.
Proof.
  intros [Hsize Hidx]. unfold ReplayBuffer.randint.
  rewrite decide_False by lia. case_decide as Hz.
  { destruct sample_index; [done|]. cbn in Hsize. lia. }
  destruct sample_index as [|i idx] eqn:Heq; [cbn in Hsize; lia|]. rewrite <- Heq in *.
  rewrite decide_False.
  2:{ intros ->. rewrite Heq in Hidx. apply Forall_cons in Hidx as [Hi _]. lia. }
  f_equal. apply list_eq. intros k.
  rewrite list_lookup_fmap.
  destruct (decide (k < length sample_index)%nat) as [Hk|Hk].
  - rewrite lookup_seq_lt by lia. cbn.
    destruct (lookup_lt_is_Some_2 sample_index k Hk) as [j Hj]. rewrite Hj. cbn.
    rewrite Forall_lookup in Hidx. f_equal. apply Nat.mod_small. by eapply Hidx.
  - rewrite lookup_seq_ge by lia. cbn. symmetry. apply lookup_ge_None. lia.
Qed.

(** C9, as amended.  For a buffer reached from [__init__] by calls of
    [store], with at least one scenario, a capacity of at least the number
    of scenarios and at least one stored transition, whose pooled actions,
    observations and next observations each have rows of one shape, and for
    a non-negative [batch_size]: [sample(batch_size)] returns the five
    arrays, each with first dimension [batch_size], and row [k] of every
    array is entry [sample_index[k]] of the pool that concatenates, scenario
    after scenario, the most recent [buffer_capacity // num_scenario]
    transitions of that scenario.  Here [sample_index] is the draw
    [np.random.randint(0, len(pool), size=batch_size)] of the generator:
    [batch_size] indices below the length of the pool, and any such list for
    the generator that produces it, so rows may repeat.  That the draw is
    uniform is numpy's contract. *)
Theorem sample_batch_rows (b : ReplayBuffer.t) (batch_size : Z) (raw : list nat) :
  reachable b →
  (0 < ReplayBuffer.num_scenario b ≤ ReplayBuffer.buffer_capacity b)%Z →
  (0 < ReplayBuffer.buffer_len b)%Z →
  (0 ≤ batch_size)%Z →
  let w := (ReplayBuffer.buffer_capacity b `div` ReplayBuffer.num_scenario b)%Z in
  stackable (pool w (action_field b)) →
  stackable (pool w (ReplayBuffer.buffer_obs b)) →
  stackable (pool w (ReplayBuffer.buffer_next_obs b)) →
  ∃ sample_index action state n_state reward done,
    (ReplayBuffer.randint (length (pool w (ReplayBuffer.buffer_rewards b))) batch_size raw
     = Ok sample_index
     ∧ ReplayBuffer.randint_spec (length (pool w (ReplayBuffer.buffer_rewards b)))
         batch_size sample_index
     ∧ (ReplayBuffer.randint_spec (length (pool w (ReplayBuffer.buffer_rewards b)))
          batch_size raw → sample_index = raw))
    ∧ ReplayBuffer.sample b batch_size raw
      = Ok ({[ "action" := Arr2 action; "state" := Arr2 state;
               "n_state" := Arr2 n_state; "reward" := Arr1 reward;
               "done" := Arr1 done ]} : gmap string ndarray)
    ∧ (Z.of_nat (length action) = batch_size ∧ Z.of_nat (length state) = batch_size
       ∧ Z.of_nat (length n_state) = batch_size ∧ Z.of_nat (length reward) = batch_size
       ∧ Z.of_nat (length done) = batch_size)
    ∧ ∀ k i, sample_index !! k = Some i →
        (i < length (pool w (ReplayBuffer.buffer_rewards b)))%nat
        ∧ action !! k = pool w (action_field b) !! i
        ∧ state !! k = pool w (ReplayBuffer.buffer_obs b) !! i
        ∧ n_state !! k = pool w (ReplayBuffer.buffer_next_obs b) !! i
        ∧ reward !! k = pool w (ReplayBuffer.buffer_rewards b) !! i
        ∧ done !! k = pool w (ReplayBuffer.buffer_dones b) !! i.
Proof.
  intros Hreach [Hn Hcap] Hlen Hbatch w Sact Sobs Snobs.
  destruct (reachable_aligned b Hreach) as [Hb Hstored].
  assert (1 ≤ w)%Z as Hw.
  { unfold w. apply Z.div_le_lower_bound; lia. }
  assert (0 < length (pool w (ReplayBuffer.buffer_rewards b)))%nat as Hpos.
  { rewrite length_pool. apply pool_nonempty; [done|]. unfold stored in Hstored. lia. }
  destruct (randint_Ok (length (pool w (ReplayBuffer.buffer_rewards b))) batch_size raw
              Hbatch Hpos) as [sample_index Hdraw].
  destruct (randint_inv _ _ _ _ Hdraw) as [Hsize Hidx].
  pose proof Hb as [_ He Hs Ho Hno Hd].
  assert (∀ A (f : list (list A)),
    length <$> f = length <$> ReplayBuffer.buffer_rewards b →
    length (pool w f) = length (pool w (ReplayBuffer.buffer_rewards b))) as Hsame.
  { intros A f Hf. by rewrite !length_pool, Hf. }
  assert (length (pool w (action_field b))
          = length (pool w (ReplayBuffer.buffer_rewards b))) as Ha.
  { unfold action_field. case_decide; by apply Hsame. }
  destruct (take_index_Ok (pool w (action_field b)) sample_index)
    as (action & Hact & Lact & Ract); [by rewrite Ha|].
  destruct (take_index_Ok (pool w (ReplayBuffer.buffer_obs b)) sample_index)
    as (state & Hst & Lst & Rst); [by rewrite Hsame|].
  destruct (take_index_Ok (pool w (ReplayBuffer.buffer_next_obs b)) sample_index)
    as (n_state & Hnst & Lnst & Rnst); [by rewrite Hsame|].
  destruct (take_index_Ok (pool w (ReplayBuffer.buffer_rewards b)) sample_index)
    as (reward & Hrw & Lrw & Rrw); [done|].
  destruct (take_index_Ok (pool w (ReplayBuffer.buffer_dones b)) sample_index)
    as (done & Hdn & Ldn & Rdn); [by rewrite Hsame|].
  exists sample_index, action, state, n_state, reward, done. split_and!; try lia.
  - done.
  - by split.
  - intros Hraw. apply randint_onto in Hraw. congruence.
  - unfold ReplayBuffer.sample. rewrite (prepare_Ok b Hb) by lia. cbn.
    fold w. rewrite Hdraw. cbn.
    unfold action_field in Hact, Ha, Sact.
    replace (if decide (ReplayBuffer.mode b = "train_agent")
             then _ else _) with (Ok (A:=list Vec) action).
    2:{ case_decide; (rewrite np_stack_Ok; [by cbn|lia|done]). }
    cbn. rewrite (np_stack_Ok (pool w (ReplayBuffer.buffer_obs b)))
      by (rewrite ?Hsame by done; done || lia).
    cbn. rewrite Hst. cbn.
    rewrite (np_stack_Ok (pool w (ReplayBuffer.buffer_next_obs b)))
      by (rewrite ?Hsame by done; done || lia).
    cbn. rewrite Hnst. cbn.
    rewrite (np_stack_Ok (pool w (ReplayBuffer.buffer_rewards b)))
      by (done || apply stackable_scalars).
    cbn. rewrite Hrw. cbn.
    rewrite (np_stack_Ok (pool w (ReplayBuffer.buffer_dones b)))
      by (rewrite ?Hsame by done; done || apply stackable_scalars).
    cbn. rewrite Hdn. done.
  - intros k i Hk. split_and!; auto.
    rewrite Forall_lookup in Hidx. by eapply Hidx.
Qed.

(** ** Facts about the agent *)

Lemma tanh_open_unit x : -1 < tanh x < 1.
Proof.
  unfold tanh, sinh, cosh.
  pose proof (exp_pos x) as Hp. pose proof (exp_pos (- x)) as Hn.
  replace ((exp x - exp (- x)) / 2 / ((exp x + exp (- x)) / 2))
    with ((exp x - exp (- x)) / (exp x + exp (- x))) by (field; lra).
  split.
  - apply Rmult_lt_reg_r with (exp x + exp (- x)); [lra|].
    unfold Rdiv. rewrite Rmult_assoc, Rinv_l by lra. lra.
  - apply Rmult_lt_reg_r with (exp x + exp (- x)); [lra|].
    unfold Rdiv. rewrite Rmult_assoc, Rinv_l by lra. lra.
Qed.

Lemma tanh_sqr_lt_1 x : tanh x ^ 2 < 1.
Proof. pose proof (tanh_open_unit x). nra. Qed.

Lemma tanh_0_eq : tanh 0 = 0.
Proof. unfold tanh. rewrite sinh_0. unfold Rdiv. apply Rmult_0_l. Qed.

Lemma tanh_1_pos : 0 < tanh 1.
Proof.
  unfold tanh. apply Rdiv_lt_0_compat.
  - rewrite <- sinh_0. apply sinh_lt. lra.
  - unfold cosh. apply Rdiv_lt_0_compat; [|lra].
    apply Rplus_lt_0_compat; apply exp_pos.
Qed.

(** ** The rounded tanh *)

Lemma exponent_from_spec n : ∀ e x,
  (e - Z.of_nat n ≤ Float32.exponent_from n e x ≤ e)%Z
  ∧ (powerRZ 2 (Float32.exponent_from n e x) <= Rabs x
     ∨ Float32.exponent_from n e x = (e - Z.of_nat n)%Z).
Proof.
  induction n as [|n IH]; intros e x; cbn [Float32.exponent_from].
  - split; [lia|right; lia].
  - destruct (Rle_dec _ _) as [Hle|_].
    + split; [lia|by left].
    + destruct (IH (e - 1)%Z x) as [Hb Hor]. split; [lia|].
      destruct Hor as [Hle| ->]; [by left|right; lia].
Qed.

Lemma powerRZ_2_ge_1 (e : Z) : (0 ≤ e)%Z → 1 <= powerRZ 2 e.
Proof.
  intros He. rewrite <- (Z2Nat.id e He), <- pow_powerRZ. apply pow_R1_Rle. lra.
Qed.

Lemma powerRZ_2_lt (e1 e2 : Z) : (e1 < e2)%Z → powerRZ 2 e1 < powerRZ 2 e2.
Proof.
  intros Hlt. replace e2 with (e1 + (e2 - e1))%Z by lia.
  rewrite powerRZ_add by lra.
  pose proof (powerRZ_lt 2 e1 ltac:(lra)) as Hpos.
  assert (1 < powerRZ 2 (e2 - e1)) as Hgt.
  { rewrite <- (Z2Nat.id (e2 - e1)) by lia. rewrite <- pow_powerRZ.
    apply Rlt_pow_R1; [lra|lia]. }
  nra.
Qed.

Lemma exponent_below_1 (x : R) : Rabs x < 1 → (-126 ≤ Float32.exponent x ≤ -1)%Z.
Proof.
  intros Hx. unfold Float32.exponent.
  destruct (exponent_from_spec 253 127 x) as [Hb [Hle|Heq]]; [|lia].
  split; [lia|].
  destruct (Z_lt_le_dec (Float32.exponent_from 253 127 x) 0) as [Hneg|Hnn]; [lia|].
  pose proof (powerRZ_2_ge_1 _ Hnn). lra.
Qed.

Lemma exponent_eq (x : R) (e0 : Z) :
  (-126 ≤ e0 ≤ 127)%Z → powerRZ 2 e0 <= Rabs x < powerRZ 2 (e0 + 1) →
  Float32.exponent x = e0.
Proof.
  intros He0 [Hlo Hhi]. unfold Float32.exponent.
  assert (∀ n e, (e0 ≤ e)%Z → (e - Z.of_nat n ≤ e0)%Z →
            Float32.exponent_from n e x = e0) as Hsearch.
  { induction n as [|n IH]; intros e H1 H2; cbn [Float32.exponent_from]; [lia|].
    destruct (Rle_dec _ _) as [Hle|Hnle].
    - destruct (Z_lt_le_dec e0 e) as [Hlt|Hge]; [|lia].
      assert (powerRZ 2 (e0 + 1) <= powerRZ 2 e) as Hmono.
      { destruct (Z.eq_dec (e0 + 1)%Z e) as [->|Hne]; [lra|].
        left. apply powerRZ_2_lt. lia. }
      lra.
    - apply IH; [|lia].
      destruct (Z.eq_dec e0 e) as [->|Hne]; [lra|lia]. }
  apply Hsearch; lia.
Qed.

Lemma nearest_even_le (t : R) (N : Z) : t <= IZR N → (Float32.nearest_even t ≤ N)%Z.
Proof.
  intros Ht. unfold Float32.nearest_even.
  destruct (base_Int_part t) as [Hlo Hhi].
  assert (Int_part t ≤ N)%Z as Hle by (apply le_IZR; lra).
  destruct (Z.eq_dec (Int_part t) N) as [Heq|Hne].
  - rewrite Heq in *. destruct (Rlt_dec _ _) as [_|Hn]; [lia|]. lra.
  - repeat destruct (Rlt_dec _ _); try destruct (Z.even _); lia.
Qed.

Lemma nearest_even_ge (t : R) (N : Z) : IZR N <= t → (N ≤ Float32.nearest_even t)%Z.
Proof.
  intros Ht. unfold Float32.nearest_even.
  destruct (base_Int_part t) as [Hlo Hhi].
  assert (N ≤ Int_part t)%Z as Hle.
  { apply Z.lt_succ_r, lt_IZR. rewrite succ_IZR. lra. }
  repeat destruct (Rlt_dec _ _); try destruct (Z.even _); lia.
Qed.

Lemma round32_closed_unit (x : R) : Rabs x < 1 → -1 <= Float32.round32 x <= 1.
Proof.
  intros Hx. unfold Float32.round32.
  destruct (exponent_below_1 x Hx) as [Hlo Hhi].
  set (e := Float32.exponent x) in *.
  pose proof (powerRZ_lt 2 (e - 23) ltac:(lra)) as Hulp.
  set (ulp := powerRZ 2 (e - 23)) in *.
  set (N := (2 ^ (23 - e))%Z).
  assert (IZR N * ulp = 1) as Hone.
  { unfold N, ulp. rewrite <- (Z2Nat.id (23 - e)) at 1 by lia.
    rewrite <- pow_IZR, pow_powerRZ, Z2Nat.id by lia.
    rewrite <- powerRZ_add by lra. replace (23 - e + (e - 23))%Z with 0%Z by lia. done. }
  assert (IZR N = / ulp) as HN.
  { apply Rmult_eq_reg_r with ulp; [|lra]. rewrite Hone. field. lra. }
  apply Rabs_def2 in Hx as [Hx1 Hx2].
  pose proof (Rinv_0_lt_compat ulp Hulp) as Hinv.
  assert (x / ulp <= IZR N) as Hup.
  { rewrite HN. unfold Rdiv. nra. }
  assert (IZR (- N) <= x / ulp) as Hdown.
  { rewrite opp_IZR, HN. unfold Rdiv. nra. }
  apply nearest_even_le in Hup. apply nearest_even_ge in Hdown.
  apply IZR_le in Hup, Hdown. rewrite opp_IZR in Hdown.
  split.
  - replace (-1) with (- IZR N * ulp) by lra. apply Rmult_le_compat_r; lra.
  - rewrite <- Hone. apply Rmult_le_compat_r; lra.
Qed.

Lemma tanh32_closed_unit (x : R) : -1 <= Float32.tanh32 x <= 1.
Proof.
  apply round32_closed_unit. apply Rabs_def1; apply tanh_open_unit.
Qed.

Lemma exp_16_lower : 65536 < exp 16.
Proof.
  pose proof (exp_ineq1 1 ltac:(lra)) as H1.
  assert (4 < exp 2) as H2.
  { replace 2 with (1 + 1) by lra. rewrite exp_plus. nra. }
  assert (16 < exp 4) as H4.
  { replace 4 with (2 + 2) by lra. rewrite exp_plus. nra. }
  assert (256 < exp 8) as H8.
  { replace 8 with (4 + 4) by lra. rewrite exp_plus. nra. }
  replace 16 with (8 + 8) by lra. rewrite exp_plus. nra.
Qed.

Lemma tanh_16_bounds : 1 - / 33554432 < tanh 16 < 1.
Proof.
  split; [|apply tanh_open_unit].
  unfold tanh, sinh, cosh. rewrite exp_Ropp.
  pose proof exp_16_lower as Ha. set (a := exp 16) in *.
  assert (0 < / a) as Hb by (apply Rinv_0_lt_compat; lra).
  assert (a * / a = 1) as Hab by (apply Rinv_r; lra).
  set (b := / a) in *.
  replace ((a - b) / 2 / ((a + b) / 2)) with ((a - b) / (a + b)) by (field; lra).
  assert (65536 * b < 1) as Hsmall by nra.
  apply Rmult_lt_reg_r with (a + b); [lra|].
  unfold Rdiv at 1. rewrite Rmult_assoc, Rinv_l by lra.
  lra.
Qed.

Lemma powerRZ_2_neg_24 : powerRZ 2 (-24) = / 16777216.
Proof.
  change (-24)%Z with (- Z.of_nat 24)%Z. rewrite powerRZ_neg', <- pow_powerRZ.
  f_equal. simpl. lra.
Qed.

(** The rounded tanh is exactly 1 at 16: the real tanh is within half a
    unit in the last place of 1. *)
Lemma tanh32_16 : Float32.tanh32 16 = 1.
Proof.
  destruct tanh_16_bounds as [Hlo Hhi].
  unfold Float32.tanh32, Float32.round32.
  rewrite (exponent_eq (tanh 16) (-1)).
  2: lia.
  2:{ rewrite Rabs_pos_eq by lra. change (-1 + 1)%Z with 0%Z. rewrite powerRZ_O.
      change (-1)%Z with (- Z.of_nat 1)%Z. rewrite powerRZ_neg', <- pow_powerRZ, pow_1.
      lra. }
  change (-1 - 23)%Z with (-24)%Z. rewrite powerRZ_2_neg_24.
  set (t := tanh 16 / / 16777216).
  assert (t = tanh 16 * 16777216) as Ht by (unfold t; field).
  assert (Int_part t = 16777215%Z) as Hfloor.
  { symmetry. apply Int_part_spec. rewrite Ht. lra. }
  unfold Float32.nearest_even. rewrite Hfloor.
  destruct (Rlt_dec _ _) as [Hlt|_]; [rewrite Ht in Hlt; lra|].
  destruct (Rlt_dec _ _) as [_|Hnlt]; [|rewrite Ht in Hnlt; lra].
  change (16777215 + 1)%Z with 16777216%Z. field.
Qed.

Lemma in_closed_unit_tanh32 z : in_closed_unit (tmap Float32.tanh32 z).
Proof.
  unfold in_closed_unit, tmap. apply Forall_fmap, Forall_true. intros row.
  apply Forall_fmap, Forall_true. intros v. apply tanh32_closed_unit.
Qed.

Section SAC_facts.
Context `{Torch}.

Lemma length_Actor_forward θ state :
  length (SAC.Actor_forward θ state).1 = length state
  ∧ length (SAC.Actor_forward θ state).2 = length state.
Proof. cbn. by rewrite !length_fmap. Qed.

Lemma length_Normal_sample dist eps :
  length (Normal_sample dist eps) = Nat.min (length (loc dist)) (length (scale dist)).
Proof. unfold Normal_sample. by rewrite length_imap, length_zip_with. Qed.

Lemma length_sample det eps mu log_sigma :
  length mu = length log_sigma → length (SAC.sample det eps mu log_sigma) = length mu.
Proof.
  intros Hlen. unfold SAC.sample. destruct det; [done|].
  unfold tmap. rewrite length_fmap, length_Normal_sample. cbn.
  rewrite length_fmap. lia.
Qed.

Lemma Float32_Actor_forward_closed θ state :
  in_closed_unit (Float32.Actor_forward θ state).1.
Proof.
  cbn. apply Forall_fmap, Forall_true. intros x.
  apply Forall_fmap, Forall_true. intros v. apply tanh32_closed_unit.
Qed.

Lemma Float32_length_Actor_forward θ state :
  length (Float32.Actor_forward θ state).1 = length state
  ∧ length (Float32.Actor_forward θ state).2 = length state.
Proof. cbn. by rewrite !length_fmap. Qed.

Lemma Float32_sample_closed det eps mu log_sigma :
  in_closed_unit mu → in_closed_unit (Float32.sample det eps mu log_sigma).
Proof.
  unfold Float32.sample. destruct det; [done|]. intros _. apply in_closed_unit_tanh32.
Qed.

Lemma Float32_length_sample det eps mu log_sigma :
  length mu = length log_sigma → length (Float32.sample det eps mu log_sigma) = length mu.
Proof.
  intros Hlen. unfold Float32.sample. destruct det; [done|].
  unfold tmap. rewrite length_fmap, length_Normal_sample. cbn.
  rewrite length_fmap. lia.
Qed.

(** C7, as amended.  For every non-empty batch of observations, in
    stochastic and in deterministic mode and whatever the risk gate decides,
    [get_action] returns a pair of actions all of whose components lie
    between -1 and 1, the ends included: a sample is the rounded tanh of a
    Normal draw, and the mean the deterministic mode returns has gone
    through the rounded tanh of [Actor.forward]. *)
Theorem get_action_in_closed_unit (agent : SAC.t) (state : list Vec)
    (infos : list ReplayBuffer.info) (deterministic : bool) (eps_task eps_rec : Noise) :
  state ≠ [] →
  ∃ task_action action,
    Float32.get_action agent state infos deterministic eps_task eps_rec
    = Ok (task_action, action)
    ∧ in_closed_unit task_action ∧ in_closed_unit action.
Proof.
  intros Hstate. unfold Float32.get_action.
  pose proof (Float32_Actor_forward_closed (SAC.policy_net agent) state) as Hmu.
  pose proof (Float32_length_Actor_forward (SAC.policy_net agent) state) as [Hl1 Hl2].
  pose proof (Float32_Actor_forward_closed (SAC.policy_recovery_net agent) state) as Hmu_rec.
  destruct (Float32.Actor_forward (SAC.policy_net agent) state) as [mu ls].
  destruct (Float32.Actor_forward (SAC.policy_recovery_net agent) state) as [mu_rec ls_rec].
  cbn [fst snd] in *.
  pose proof (Float32_sample_closed deterministic eps_task mu ls Hmu) as Htask.
  pose proof (Float32_length_sample deterministic eps_task mu ls) as Hlen.
  destruct (SAC.use_recovery agent); [|by eauto].
  destruct state as [|x state]; [done|].
  destruct (Float32.sample deterministic eps_task mu ls) as [|a task_action].
  { cbn in *. lia. }
  unfold SAC.Q_forward. cbn [zip_with lookup list_lookup or_raise mbind result_bind].
  destruct (Rlt_dec _ _); [|by eauto].
  eexists _, _. split_and!; [done|done|]. by apply Float32_sample_closed.
Qed.

(** What the gate of [get_action] does: the risk estimate of the first
    element decides for the whole batch. *)
Lemma get_action_first_element_gate (agent : SAC.t) (x : Vec) (state : list Vec)
    (infos : list ReplayBuffer.info) (deterministic : bool) (eps_task eps_rec : Noise)
    (a : Vec) (task : list Vec) :
  SAC.use_recovery agent = true →
  SAC.sample deterministic eps_task
    (SAC.Actor_forward (SAC.policy_net agent) (x :: state)).1
    (SAC.Actor_forward (SAC.policy_net agent) (x :: state)).2 = a :: task →
  SAC.get_action agent (x :: state) infos deterministic eps_task eps_rec
  = Ok (a :: task,
        if Rlt_dec (q_out (SAC.Q_risk_net agent) x a) (- SAC.risk_thresh agent)
        then SAC.sample deterministic eps_rec
               (SAC.Actor_forward (SAC.policy_recovery_net agent) (x :: state)).1
               (SAC.Actor_forward (SAC.policy_recovery_net agent) (x :: state)).2
        else a :: task).
Proof.
  intros Hrec Htask. unfold SAC.get_action. rewrite Hrec.
  destruct (SAC.Actor_forward (SAC.policy_net agent) (x :: state)) as [mu ls].
  destruct (SAC.Actor_forward (SAC.policy_recovery_net agent) (x :: state))
    as [mu_rec ls_rec].
  cbn [fst snd] in *. rewrite Htask.
  unfold SAC.Q_forward. cbn [zip_with lookup list_lookup or_raise mbind result_bind].
  by destruct (Rlt_dec _ _).
Qed.

Lemma Normal_sample_lookup dist eps i m s :
  loc dist !! i = Some m → scale dist !! i = Some s →
  Normal_sample dist eps !! i
  = Some (imap (fun j '(mij, sij) => mij + sij * eps i j) (zip m s)).
Proof.
  intros Hm Hs. unfold Normal_sample.
  by rewrite list_lookup_imap, lookup_zip_with, Hm, Hs.
Qed.

Lemma policy_dist_lookup θ state i x :
  state !! i = Some x →
  loc (SAC.policy_dist θ state) !! i = Some (tanh <$> actor_mu θ x)
  ∧ scale (SAC.policy_dist θ state) !! i = Some (exp <$> actor_logstd θ x).
Proof.
  intros Hx. cbn. unfold tmap. by rewrite !list_lookup_fmap, Hx.
Qed.

Lemma policy_sample_lookup θ state eps i x :
  state !! i = Some x →
  Normal_sample (SAC.policy_dist θ state) eps !! i = Some (pre_squash θ x (eps i)).
Proof.
  intros Hx. destruct (policy_dist_lookup θ state i x Hx) as [Hm Hs].
  by rewrite (Normal_sample_lookup _ _ _ _ _ Hm Hs).
Qed.

Lemma corrected_row min_Val (ms : list (R * R)) : ∀ z : Vec,
  0 <= min_Val →
  zip_with Rminus
    (zip_with (fun '(m, s) vj => normal_log_density m s vj) ms z)
    ((fun a => ln (Rmax (1 - a ^ 2 + min_Val) 0 + 0.001)) <$> (tanh <$> z))
  = zip_with (fun '(m, s) zj => corrected_log_density (min_Val + 0.001) m s zj) ms z.
Proof.
  induction ms as [|[m s] ms IH]; intros [|zj z] Hmin; cbn; try done.
  rewrite IH by done. f_equal. unfold corrected_log_density. do 2 f_equal.
  pose proof (tanh_sqr_lt_1 zj). rewrite Rmax_left by lra. lra.
Qed.

Lemma squashed_log_prob_lookup min_Val dist z i m s zi :
  0 <= min_Val →
  loc dist !! i = Some m → scale dist !! i = Some s → z !! i = Some zi →
  SAC.squashed_log_prob min_Val dist z (tmap tanh z) !! i
  = Some (sum_R (zip_with (fun '(m, s) zj => corrected_log_density (min_Val + 0.001) m s zj)
                   (zip m s) zi)).
Proof.
  intros Hmin Hm Hs Hz.
  unfold SAC.squashed_log_prob, sum_dim1, tzip_with, Normal_log_prob, tmap.
  rewrite list_lookup_fmap, !lookup_zip_with, !list_lookup_fmap, Hm, Hs, Hz. cbn.
  by rewrite corrected_row.
Qed.

(** C5.  With a non-negative [min_Val], for every observation [x] of the
    batch, the action of [get_action_log_prob] is the tanh of the sampled
    pre-squash value [z], and its log-probability is the sum over the action
    dimensions of [log N(z) - log(1 - tanh(z)^2 + ε)] for the floor
    [ε = min_Val + 0.001 > 0]; the same holds for the recovery policy. *)
Theorem log_prob_change_of_variables (agent : SAC.t) (state : list Vec)
    (eps_task eps_rec : Noise) (i : nat) (x : Vec) :
  0 <= SAC.min_Val agent →
  state !! i = Some x →
  let ε := SAC.min_Val agent + 0.001 in
  let out := SAC.get_action_log_prob agent state eps_task eps_rec in
  0 < ε
  ∧ SAC.task_action out !! i
    = Some (tanh <$> pre_squash (SAC.policy_net agent) x (eps_task i))
  ∧ SAC.task_log_prob out !! i
    = Some (corrected_log_prob ε (SAC.policy_net agent) x (eps_task i))
  ∧ (SAC.use_recovery agent = true →
     SAC.mixed_action out !! i
     = Some (tanh <$> pre_squash (SAC.policy_recovery_net agent) x (eps_rec i))
     ∧ SAC.mixed_log_prob out !! i
       = Some (corrected_log_prob ε (SAC.policy_recovery_net agent) x (eps_rec i))).
Proof.
  intros Hmin Hx ε out. split; [unfold ε; lra|].
  assert (∀ θ eps,
    tmap tanh (Normal_sample (SAC.policy_dist θ state) eps) !! i
    = Some (tanh <$> pre_squash θ x (eps i))
    ∧ SAC.squashed_log_prob (SAC.min_Val agent) (SAC.policy_dist θ state)
        (Normal_sample (SAC.policy_dist θ state) eps)
        (tmap tanh (Normal_sample (SAC.policy_dist θ state) eps)) !! i
      = Some (corrected_log_prob ε θ x (eps i))) as Hrow.
  { intros θ eps. destruct (policy_dist_lookup θ state i x Hx) as [Hm Hs].
    pose proof (policy_sample_lookup θ state eps i x Hx) as Hz. split.
    - unfold tmap at 1. by rewrite list_lookup_fmap, Hz.
    - by rewrite (squashed_log_prob_lookup _ _ _ _ _ _ _ Hmin Hm Hs Hz). }
  unfold out, SAC.get_action_log_prob.
  destruct (SAC.use_recovery agent);
    cbn [SAC.task_action SAC.task_log_prob SAC.mixed_action SAC.mixed_log_prob].
  - destruct (Hrow (SAC.policy_net agent) eps_task) as [-> ->].
    destruct (Hrow (SAC.policy_recovery_net agent) eps_rec) as [-> ->]. done.
  - destruct (Hrow (SAC.policy_net agent) eps_task) as [-> ->]. done.
Qed.

(** C10.  When recovery is enabled, the [mixed_action] and the
    [mixed_log_prob] of [get_action_log_prob] are the sample of the recovery
    policy and its log-probability; an agent that differs in its risk-Q
    network, its risk threshold or its task policy returns the same two
    values, so the risk estimate and the threshold play no part. *)
Theorem mixed_sample_is_recovery (agent : SAC.t) (state : list Vec)
    (eps_task eps_rec : Noise) :
  SAC.use_recovery agent = true →
  let out := SAC.get_action_log_prob agent state eps_task eps_rec in
  let dist_rec := SAC.policy_dist (SAC.policy_recovery_net agent) state in
  let z_rec := Normal_sample dist_rec eps_rec in
  (SAC.mixed_action out = tmap tanh z_rec
   ∧ SAC.mixed_log_prob out
     = SAC.squashed_log_prob (SAC.min_Val agent) dist_rec z_rec (tmap tanh z_rec))
  ∧ ∀ agent' : SAC.t,
      SAC.use_recovery agent' = true →
      SAC.policy_recovery_net agent' = SAC.policy_recovery_net agent →
      SAC.min_Val agent' = SAC.min_Val agent →
      let out' := SAC.get_action_log_prob agent' state eps_task eps_rec in
      SAC.mixed_action out' = SAC.mixed_action out
      ∧ SAC.mixed_log_prob out' = SAC.mixed_log_prob out.
Proof.
  intros Hrec out dist_rec z_rec. unfold out, SAC.get_action_log_prob.
  rewrite Hrec. cbn. split; [done|].
  intros agent' Hrec' Hnet Hmin.
  unfold SAC.get_action_log_prob. rewrite Hrec'. cbn. by rewrite Hnet, Hmin.
Qed.

Lemma batch_rows_Ok batch key rows :
  SAC.batch_rows batch key = Ok rows ↔ batch !! key = Some (Arr2 rows).
Proof.
  unfold SAC.batch_rows. destruct (batch !! key) as [[xs|rs]|]; cbn; split; congruence.
Qed.

Lemma batch_scalars_Ok batch key xs :
  SAC.batch_scalars batch key = Ok xs ↔ batch !! key = Some (Arr1 xs).
Proof.
  unfold SAC.batch_scalars. destruct (batch !! key) as [[xs'|rs]|]; cbn; split; congruence.
Qed.

Lemma read_batch_Ok batch c :
  SAC.read_batch batch = Ok c ↔
  ∃ state task_action mixed_action reward risk n_state done,
    batch !! "state" = Some (Arr2 state)
    ∧ batch !! "task_action" = Some (Arr2 task_action)
    ∧ batch !! "mixed_action" = Some (Arr2 mixed_action)
    ∧ batch !! "reward" = Some (Arr1 reward)
    ∧ batch !! "risk" = Some (Arr1 risk)
    ∧ batch !! "n_state" = Some (Arr2 n_state)
    ∧ batch !! "done" = Some (Arr1 done)
    ∧ c = {| SAC.bn_s := state;
             SAC.bn_a_task := task_action;
             SAC.bn_a_mixed := mixed_action;
             SAC.bn_r := reward;
             SAC.bn_r_risk := Ropp <$> risk;
             SAC.bn_s_ := n_state;
             SAC.bn_d := (fun d => 1 - d) <$> done |}.
Proof.
  unfold SAC.read_batch. split.
  - intros Hc.
    repeat (apply bind_Ok in Hc as (? & ? & Hc)).
    repeat match goal with
      | H : SAC.batch_rows _ _ = Ok _ |- _ => apply batch_rows_Ok in H
      | H : SAC.batch_scalars _ _ = Ok _ |- _ => apply batch_scalars_Ok in H
      end.
    injection Hc as <-. by eexists _, _, _, _, _, _, _.
  - intros (state & ta & ma & reward & risk & n_state & done
            & Hs & Hta & Hma & Hr & Hk & Hn & Hd & ->).
    apply batch_rows_Ok in Hs, Hta, Hma, Hn. apply batch_scalars_Ok in Hr, Hk, Hd.
    by rewrite Hs, Hta, Hma, Hr, Hk, Hn, Hd.
Qed.

(** C1, as amended.  With recovery enabled, for row [i] of a batch with
    reward [r], risk [k], done flag [d] and next state [s'], the task target
    is [r + (1 - d) * γ * V_target(s')], and the risk target is built on the
    negated risk: [-k + (1 - d) * γ * V_risk_target(s')] plus the terminal
    term [clamp(-k / (1 - γ) * d - (-k), 0, 50 / (1 - γ))], whose factor is
    the done flag itself. *)
Theorem bootstrapped_targets (agent : SAC.t) (batch : gmap string ndarray) (c : SAC.Columns)
    (reward risk done : list R) (n_state : list Vec) (i : nat) (r k d : R) (s' : Vec) :
  SAC.use_recovery agent = true →
  SAC.read_batch batch = Ok c →
  batch !! "reward" = Some (Arr1 reward) →
  batch !! "risk" = Some (Arr1 risk) →
  batch !! "done" = Some (Arr1 done) →
  batch !! "n_state" = Some (Arr2 n_state) →
  reward !! i = Some r → risk !! i = Some k → done !! i = Some d →
  n_state !! i = Some s' →
  let γ := SAC.gamma agent in
  SAC.next_q_value agent c !! i
  = Some (r + (1 - d) * γ * critic_out (SAC.Target_value_net agent) s')
  ∧ SAC.next_q_risk_value agent c !! i
    = Some (- k + (1 - d) * γ * critic_out (SAC.Target_value_risk_net agent) s'
            + clamp (- k / (1 - γ) * d - - k) 0 (50 / (1 - γ))).
Proof.
  intros Hrec Hc Hreward Hrisk Hdone Hn Hr Hk Hd Hs' γ.
  apply read_batch_Ok in Hc
    as (? & ? & ? & ? & ? & ? & ? & _ & _ & _ & Hr' & Hk' & Hn' & Hd' & ->).
  simplify_eq. unfold SAC.next_q_value, SAC.next_q_risk_value, SAC.Critic_forward.
  rewrite Hrec. cbn [SAC.bn_r SAC.bn_r_risk SAC.bn_s_ SAC.bn_d].
  rewrite !lookup_zip_with, !list_lookup_fmap, Hr, Hk, Hd, Hs'. cbn.
  split; [done|]. unfold γ.
  replace (1 - (1 - d)) with d by ring. done.
Qed.

(** C3, as amended.  With suppression and recovery enabled, the gate of
    row [i] is [clamp(-new_Q_risk * 10 * 2, 0.25, 0.75)] for the constant
    weight 10, it lies in [0.25, 0.75], and the policy target is
    [(new_Q - V) * (1 - gate) + gate * (new_Q_risk - V_risk)]. *)
Theorem policy_target_blend (agent : SAC.t)
    (expected_new_Q expected_value expected_new_Q_risk expected_value_risk : list R)
    (i : nat) (q v qr vr : R) :
  SAC.use_suppression agent = true →
  SAC.use_recovery agent = true →
  expected_new_Q !! i = Some q → expected_value !! i = Some v →
  expected_new_Q_risk !! i = Some qr → expected_value_risk !! i = Some vr →
  let gate := clamp (- qr * 10 * 2) 0.25 0.75 in
  SAC.suppression_gate expected_new_Q_risk !! i = Some gate
  ∧ 0.25 <= gate <= 0.75
  ∧ SAC.log_policy_target agent expected_new_Q expected_value
      expected_new_Q_risk expected_value_risk !! i
    = Some ((q - v) * (1 - gate) + gate * (qr - vr)).
Proof.
  intros Hsup Hrec Hq Hv Hqr Hvr gate.
  assert (SAC.suppression_gate expected_new_Q_risk !! i = Some gate) as Hgate.
  { unfold SAC.suppression_gate.
    rewrite list_lookup_fmap, lookup_zip_with, list_lookup_fmap, Hqr. cbn.
    unfold gate. do 2 f_equal. unfold clamp. do 2 f_equal. ring. }
  split_and!; [done| | |].
  - unfold gate, clamp. apply Rmin_glb; [|lra].
    etransitivity; [|apply Rmax_r]. lra.
  - unfold gate, clamp. apply Rmin_r.
  - unfold SAC.log_policy_target. rewrite Hsup, Hrec.
    by rewrite !lookup_zip_with, Hgate, Hq, Hv, Hqr, Hvr.
Qed.

(** C8.  When [buffer_len] of the replay buffer is below
    [buffer_start_training], [train] returns the agent as it was (every
    network, optimizer and target) and consumes no draw; this holds for
    every implementation of [sample], also one that raises, so the buffer is
    not sampled. *)
Theorem train_below_warm_up {B} `{Replay B} (agent : SAC.t) (replay_buffer : B)
    (entropy : nat → Draw) (k : nat) :
  (replay_buffer_len replay_buffer < SAC.buffer_start_training agent)%Z →
  SAC.train agent replay_buffer entropy k = Ok (agent, k).
Proof. intros Hlen. unfold SAC.train. by rewrite decide_True. Qed.

(** C8 on the buffer of the repository: for a reachable buffer [buffer_len]
    is the number of stored transitions. *)
Lemma train_below_stored (agent : SAC.t) (b : ReplayBuffer.t)
    (entropy : nat → Draw) (k : nat) :
  reachable b →
  (Z.of_nat (stored b) < SAC.buffer_start_training agent)%Z →
  SAC.train agent b entropy k = Ok (agent, k).
Proof.
  intros Hb Hlen. destruct (reachable_aligned b Hb) as [_ Hstored].
  unfold SAC.train. cbn [replay_buffer_len ReplayBuffer_Replay].
  rewrite decide_True; [done|]. by rewrite Hstored.
Qed.

Lemma polyak_lookup tau t p j a b :
  t !! j = Some a → p !! j = Some b →
  SAC.polyak tau t p !! j = Some (a * (1 - tau) + b * tau).
Proof. intros Ha Hb. unfold SAC.polyak. by rewrite lookup_zip_with, Ha, Hb. Qed.

Lemma soft_update_param_at tau : ∀ target live i j a b,
  param_at target i j = Some a → param_at live i j = Some b →
  param_at (SAC.soft_update tau target live) i j = Some (a * (1 - tau) + b * tau).
Proof.
  unfold param_at.
  induction target as [|t target IH]; intros [|p live] [|i] j a b; cbn; try done.
  - apply polyak_lookup.
  - apply IH.
Qed.

Lemma same_shape_param_at θ1 θ2 i j a :
  same_shape θ1 θ2 → param_at θ1 i j = Some a → ∃ b, param_at θ2 i j = Some b.
Proof.
  unfold same_shape, param_at. intros Hs Ha.
  destruct (θ1 !! i) as [p1|] eqn:H1; [|done]. cbn in Ha.
  destruct (Forall2_lookup_l _ _ _ _ _ Hs H1) as (p2 & H2 & Hlen).
  rewrite H2. cbn. apply lookup_lt_is_Some. rewrite <- Hlen.
  by eapply lookup_lt_Some.
Qed.

Lemma same_shape_trans θ1 θ2 θ3 :
  same_shape θ1 θ2 → same_shape θ2 θ3 → same_shape θ1 θ3.
Proof.
  unfold same_shape. intros H12. revert θ3.
  induction H12 as [|p1 p2 θ1 θ2 Hp _ IH]; intros θ3 H23; inversion H23; subst.
  - constructor.
  - constructor; [congruence|by apply IH].
Qed.

Lemma polyak_0 : ∀ t p, length t = length p → SAC.polyak 0 t p = t.
Proof.
  unfold SAC.polyak. induction t as [|a t IH]; intros [|b p] Hlen; cbn in *; try done.
  rewrite IH by lia. f_equal. ring.
Qed.

Lemma polyak_1 : ∀ t p, length t = length p → SAC.polyak 1 t p = p.
Proof.
  unfold SAC.polyak. induction t as [|a t IH]; intros [|b p] Hlen; cbn in *; try done.
  rewrite IH by lia. f_equal. ring.
Qed.

Lemma soft_update_0 target live :
  same_shape target live → SAC.soft_update 0 target live = target.
Proof. induction 1; cbn; [done|]. by rewrite polyak_0, IHForall2. Qed.

Lemma soft_update_1 target live :
  same_shape target live → SAC.soft_update 1 target live = live.
Proof. induction 1; cbn; [done|]. by rewrite polyak_1, IHForall2. Qed.

Lemma polyak_length tau t p :
  length t = length p → length (SAC.polyak tau t p) = length p.
Proof. intros Hlen. unfold SAC.polyak. rewrite length_zip_with. lia. Qed.

(** A soft update keeps the shape of the target. *)
Lemma soft_update_same_shape tau target live :
  same_shape target live → same_shape (SAC.soft_update tau target live) live.
Proof.
  induction 1 as [|t p target live Hlen _ IH]; cbn; constructor; [|done].
  by apply polyak_length.
Qed.

(** The targets after one iteration, in terms of the live networks after
    their optimizer steps. *)
Lemma update_targets agent c eps_task eps_rec :
  let agent' := SAC.update agent c eps_task eps_rec in
  SAC.Target_value_net agent'
  = SAC.soft_update (SAC.tau agent) (SAC.Target_value_net agent) (SAC.value_net agent')
  ∧ SAC.Target_value_risk_net agent'
    = (if SAC.use_recovery agent
       then SAC.soft_update (SAC.tau agent) (SAC.Target_value_risk_net agent)
              (SAC.value_risk_net agent')
       else SAC.Target_value_risk_net agent)
  ∧ (∃ loss, SAC.value_net agent'
             = (optimizer_step (SAC.value_optimizer agent) (SAC.value_net agent) loss).2)
  ∧ (SAC.use_recovery agent = true →
     ∃ loss, SAC.value_risk_net agent'
             = (optimizer_step (SAC.value_risk_optimizer agent)
                  (SAC.value_risk_net agent) loss).2).
Proof.
  unfold SAC.update.
  repeat match goal with
    | |- context [optimizer_step ?o ?θ ?loss] =>
        let E := fresh "E" in
        destruct (optimizer_step o θ loss) as [? ?] eqn:E
    end.
  destruct (SAC.use_recovery agent); cbn; split_and!; try done.
  - eexists. by erewrite E.
  - intros _. eexists. by erewrite E2.
  - eexists. by erewrite E.
Qed.

(** Targets shaped as their live networks stay so over an iteration: the
    shape hypothesis of the soft update holds in every turn of the loop. *)
Lemma update_same_shape agent c eps_task eps_rec :
  (∀ o θ loss, same_shape θ (optimizer_step o θ loss).2) →
  same_shape (SAC.Target_value_net agent) (SAC.value_net agent) →
  same_shape (SAC.Target_value_risk_net agent) (SAC.value_risk_net agent) →
  let agent' := SAC.update agent c eps_task eps_rec in
  same_shape (SAC.Target_value_net agent') (SAC.value_net agent')
  ∧ same_shape (SAC.Target_value_risk_net agent') (SAC.value_risk_net agent').
Proof.
  intros Hstep Hv Hvr agent'.
  destruct (update_targets agent c eps_task eps_rec) as (Ht & Htr & [loss Hlive] & Hrisk).
  fold agent' in Ht, Htr, Hlive, Hrisk. split.
  - rewrite Ht. apply soft_update_same_shape. rewrite Hlive.
    eapply same_shape_trans; [done|apply Hstep].
  - rewrite Htr. destruct (SAC.use_recovery agent) eqn:Hrec.
    + apply soft_update_same_shape. destruct (Hrisk eq_refl) as [loss' ->].
      eapply same_shape_trans; [done|apply Hstep].
    + assert (SAC.value_risk_net agent' = SAC.value_risk_net agent) as ->; [|done].
      unfold agent', SAC.update. rewrite Hrec.
      repeat match goal with
        | |- context [optimizer_step ?o ?θ ?loss] =>
            destruct (optimizer_step o θ loss) as [? ?]
        end.
      done.
Qed.

(** C6.  One inner iteration on a readable batch, for an optimizer that keeps
    the shape of the parameters and targets shaped as their live networks:
    every parameter of a target network becomes its previous value times
    [1 - τ] plus the parameter of the live network, after its optimizer step,
    times [τ]; for [τ = 0] the targets are unchanged, for [τ = 1] they are
    the live parameters. *)
Theorem train_step_soft_update (agent : SAC.t) (batch : gmap string ndarray)
    (c : SAC.Columns) (eps_task eps_rec : Noise) :
  SAC.read_batch batch = Ok c →
  (∀ o θ loss, same_shape θ (optimizer_step o θ loss).2) →
  same_shape (SAC.Target_value_net agent) (SAC.value_net agent) →
  same_shape (SAC.Target_value_risk_net agent) (SAC.value_risk_net agent) →
  ∃ agent',
    SAC.train_step agent batch eps_task eps_rec = Ok agent'
    ∧ (∀ i j a, param_at (SAC.Target_value_net agent) i j = Some a →
         ∃ b, param_at (SAC.value_net agent') i j = Some b
            ∧ param_at (SAC.Target_value_net agent') i j
              = Some (a * (1 - SAC.tau agent) + b * SAC.tau agent))
    ∧ (SAC.use_recovery agent = true →
       ∀ i j a, param_at (SAC.Target_value_risk_net agent) i j = Some a →
         ∃ b, param_at (SAC.value_risk_net agent') i j = Some b
            ∧ param_at (SAC.Target_value_risk_net agent') i j
              = Some (a * (1 - SAC.tau agent) + b * SAC.tau agent))
    ∧ (SAC.tau agent = 0 →
       SAC.Target_value_net agent' = SAC.Target_value_net agent
       ∧ SAC.Target_value_risk_net agent' = SAC.Target_value_risk_net agent)
    ∧ (SAC.tau agent = 1 →
       SAC.Target_value_net agent' = SAC.value_net agent'
       ∧ (SAC.use_recovery agent = true →
          SAC.Target_value_risk_net agent' = SAC.value_risk_net agent')).
Proof.
  intros Hc Hstep Hv Hvr.
  exists (SAC.update agent c eps_task eps_rec).
  destruct (update_targets agent c eps_task eps_rec) as (Ht & Htr & [loss Hlive] & Hrisk).
  assert (same_shape (SAC.Target_value_net agent)
            (SAC.value_net (SAC.update agent c eps_task eps_rec))) as Hv'.
  { rewrite Hlive. eapply same_shape_trans; [done|apply Hstep]. }
  assert (SAC.use_recovery agent = true →
          same_shape (SAC.Target_value_risk_net agent)
            (SAC.value_risk_net (SAC.update agent c eps_task eps_rec))) as Hvr'.
  { intros Hrec. destruct (Hrisk Hrec) as [loss' ->].
    eapply same_shape_trans; [done|apply Hstep]. }
  split_and!.
  - unfold SAC.train_step. by rewrite Hc.
  - intros i j a Ha. destruct (same_shape_param_at _ _ i j a Hv' Ha) as [b Hb].
    exists b. split; [done|]. rewrite Ht. by apply soft_update_param_at.
  - intros Hrec i j a Ha.
    destruct (same_shape_param_at _ _ i j a (Hvr' Hrec) Ha) as [b Hb].
    exists b. split; [done|]. rewrite Htr, Hrec. by apply soft_update_param_at.
  - intros Hτ. rewrite Ht, Htr, Hτ. split; [by apply soft_update_0|].
    destruct (SAC.use_recovery agent); [|done]. by apply soft_update_0, Hvr'.
  - intros Hτ. rewrite Ht, Htr, Hτ. split; [by apply soft_update_1|].
    intros Hrec. rewrite Hrec. by apply soft_update_1, Hvr'.
Qed.

End SAC_facts.

(** ** The statements at concrete inputs *)

#[local] Existing Instance Demo.toy.

Lemma demo_buffer_reachable : reachable Demo.buffer.
Proof.
  apply (reachable_store (ReplayBuffer.init 2 "train_agent" 4) Demo.step).
  - constructor.
  - reflexivity.
Qed.

Lemma demo_cramped_reachable : reachable Demo.cramped.
Proof.
  apply (reachable_store (ReplayBuffer.init 2 "train_agent" 1) Demo.step).
  - constructor.
  - reflexivity.
Qed.

Lemma stackable_Forall {A} `{Shaped A} (sh : list nat) (xs : list A) :
  Forall (fun x => shape x = sh) xs → stackable xs.
Proof.
  rewrite Forall_forall. intros Hall x y Hx Hy. by rewrite (Hall x Hx), (Hall y Hy).
Qed.

Lemma sample_batch_rows_witness :
  ∃ sample_index action state n_state reward done,
    (ReplayBuffer.randint (length (pool 2 (ReplayBuffer.buffer_rewards Demo.buffer)))
       3 [0; 1; 0]%nat
     = Ok sample_index
     ∧ ReplayBuffer.randint_spec (length (pool 2 (ReplayBuffer.buffer_rewards Demo.buffer)))
         3 sample_index
     ∧ (ReplayBuffer.randint_spec (length (pool 2 (ReplayBuffer.buffer_rewards Demo.buffer)))
          3 [0; 1; 0]%nat
        → sample_index = [0; 1; 0]%nat))
    ∧ ReplayBuffer.sample Demo.buffer 3 [0; 1; 0]%nat
      = Ok ({[ "action" := Arr2 action; "state" := Arr2 state;
               "n_state" := Arr2 n_state; "reward" := Arr1 reward;
               "done" := Arr1 done ]} : gmap string ndarray)
    ∧ (Z.of_nat (length action) = 3%Z ∧ Z.of_nat (length state) = 3%Z
       ∧ Z.of_nat (length n_state) = 3%Z ∧ Z.of_nat (length reward) = 3%Z
       ∧ Z.of_nat (length done) = 3%Z)
    ∧ ∀ k i, sample_index !! k = Some i →
        (i < length (pool 2 (ReplayBuffer.buffer_rewards Demo.buffer)))%nat
        ∧ action !! k = pool 2 (action_field Demo.buffer) !! i
        ∧ state !! k = pool 2 (ReplayBuffer.buffer_obs Demo.buffer) !! i
        ∧ n_state !! k = pool 2 (ReplayBuffer.buffer_next_obs Demo.buffer) !! i
        ∧ reward !! k = pool 2 (ReplayBuffer.buffer_rewards Demo.buffer) !! i
        ∧ done !! k = pool 2 (ReplayBuffer.buffer_dones Demo.buffer) !! i.
Proof.
  apply (sample_batch_rows Demo.buffer 3 [0; 1; 0]%nat).
  - apply demo_buffer_reachable.
  - simpl. lia.
  - simpl. lia.
  - lia.
  - apply (stackable_Forall [1%nat]). simpl. repeat constructor.
  - apply (stackable_Forall [1%nat]). simpl. repeat constructor.
  - apply (stackable_Forall [1%nat]). simpl. repeat constructor.
Defined.

(** A reachable buffer with two stored transitions, two scenarios and
    capacity one: the window is [1 // 2 = 0], the pool is empty and [sample]
    raises for every batch size and every draw. *)
Lemma sample_cramped_raises :
  reachable Demo.cramped
  ∧ (0 < ReplayBuffer.buffer_len Demo.cramped)%Z
  ∧ ∀ batch_size sample_index,
      ReplayBuffer.sample Demo.cramped batch_size sample_index = Raise ValueError.
Proof.
  split_and!; [apply demo_cramped_reachable|done|].
  intros batch_size sample_index.
  assert (ReplayBuffer.prepare Demo.cramped = Ok ReplayBuffer.prepared_empty) as Hp
    by reflexivity.
  unfold ReplayBuffer.sample. rewrite Hp. cbn. unfold ReplayBuffer.randint. cbn.
  repeat case_decide; try done; cbn; by repeat case_decide.
Qed.

Lemma np_stack_not_stackable {A} `{Shaped A} (xs : list A) :
  ¬ stackable xs → np_stack xs = Raise ValueError.
Proof.
  intros Hragged. destruct (np_stack xs) as [arr|e] eqn:Hstack.
  - by apply np_stack_inv in Hstack as (_ & _ & Hst).
  - destruct xs; cbn in Hstack; [congruence|]. case_decide; congruence.
Qed.

Lemma demo_ragged_reachable : reachable Cases.ragged.
Proof.
  apply (reachable_store (ReplayBuffer.init 1 "train_agent" 4) Cases.ragged_steps).
  - constructor.
  - reflexivity.
Qed.

(** A reachable buffer with one scenario, capacity four and two stored
    transitions whose observations have the lengths 1 and 2: [np.stack]
    refuses the pooled observations, and [sample] raises for every batch
    size and every draw. *)
Lemma sample_ragged_raises :
  reachable Cases.ragged
  ∧ (0 < ReplayBuffer.num_scenario Cases.ragged ≤ ReplayBuffer.buffer_capacity Cases.ragged)%Z
  ∧ (0 < ReplayBuffer.buffer_len Cases.ragged)%Z
  ∧ ¬ stackable (pool 4 (ReplayBuffer.buffer_obs Cases.ragged))
  ∧ ∀ batch_size raw,
      ReplayBuffer.sample Cases.ragged batch_size raw = Raise ValueError.
Proof.
  assert (¬ stackable (pool 4 (ReplayBuffer.buffer_obs Cases.ragged))) as Hragged.
  { intros Hst. specialize (Hst [0] [0; 1]). cbn in Hst.
    assert ([1%nat] = [2%nat]) as Heq; [|discriminate Heq].
    apply Hst; set_solver. }
  split_and!; [apply demo_ragged_reachable|done|done|done|done|].
  intros batch_size raw.
  assert (ReplayBuffer.prepare Cases.ragged
          = Ok {| ReplayBuffer.prepared_ego_actions :=
                    pool 4 (ReplayBuffer.buffer_ego_actions Cases.ragged);
                  ReplayBuffer.prepared_scenario_actions :=
                    pool 4 (ReplayBuffer.buffer_scenario_actions Cases.ragged);
                  ReplayBuffer.prepared_obs := pool 4 (ReplayBuffer.buffer_obs Cases.ragged);
                  ReplayBuffer.prepared_next_obs :=
                    pool 4 (ReplayBuffer.buffer_next_obs Cases.ragged);
                  ReplayBuffer.prepared_rewards :=
                    pool 4 (ReplayBuffer.buffer_rewards Cases.ragged);
                  ReplayBuffer.prepared_dones :=
                    pool 4 (ReplayBuffer.buffer_dones Cases.ragged) |}) as Hp
    by reflexivity.
  unfold ReplayBuffer.sample. rewrite Hp. cbn [mbind result_bind ReplayBuffer.prepared_rewards].
  destruct (ReplayBuffer.randint _ batch_size raw) as [sample_index|e] eqn:Hdraw.
  2:{ unfold ReplayBuffer.randint in Hdraw.
      repeat case_decide; try discriminate; by injection Hdraw as <-. }
  apply randint_inv in Hdraw as [_ Hidx].
  cbn [mbind result_bind ReplayBuffer.prepared_ego_actions ReplayBuffer.prepared_obs
         ReplayBuffer.mode Cases.ragged].
  rewrite decide_True by done.
  rewrite (np_stack_Ok (pool 4 (ReplayBuffer.buffer_ego_actions Cases.ragged))).
  2: simpl; lia.
  2: apply (stackable_Forall [1%nat]); simpl; repeat constructor.
  destruct (take_index_Ok (pool 4 (ReplayBuffer.buffer_ego_actions Cases.ragged))
              sample_index Hidx) as (action & Hact & _).
  cbn [mbind result_bind]. rewrite Hact. cbn [mbind result_bind].
  by rewrite (np_stack_not_stackable _ Hragged).
Qed.

Lemma get_action_in_closed_unit_witness :
  [[0]; [-1]] ≠ ([] : list Vec)
  ∧ ∃ task_action action,
      Float32.get_action Demo.agent [[0]; [-1]] [] false Demo.no_noise Demo.no_noise
      = Ok (task_action, action)
      ∧ in_closed_unit task_action ∧ in_closed_unit action.
Proof.
  split; [discriminate|].
  apply (get_action_in_closed_unit Demo.agent). discriminate.
Defined.

(** C7, at a failing input.  With a mean head that puts out 16 the
    deterministic action is the rounded tanh of 16, and with the noise 15
    the stochastic action is the rounded tanh of [1 + exp(0) * 15]: both are
    exactly 1, which is not strictly below 1. *)
Lemma get_action_reaches_one :
  [[0]] ≠ ([] : list Vec)
  ∧ Float32.get_action Cases.saturated [[0]] [] true Demo.no_noise Demo.no_noise
    = Ok ([[1]], [[1]])
  ∧ Float32.get_action Cases.saturated [[0]] [] false (fun _ _ => 15) Demo.no_noise
    = Ok ([[1]], [[1]])
  ∧ ¬ in_open_unit [[1]].
Proof.
  split_and!.
  - discriminate.
  - cbn. rewrite tanh32_16. destruct (Rlt_dec _ _) as [Hlt|_]; [lra|reflexivity].
  - cbn. rewrite tanh32_16, exp_0.
    replace (1 + 1 * 15) with 16 by lra. rewrite tanh32_16.
    destruct (Rlt_dec _ _) as [Hlt|_]; [lra|reflexivity].
  - intros Hopen. apply Forall_cons in Hopen as [Hrow _].
    apply Forall_cons in Hrow as [[_ Hlt] _]. lra.
Qed.

Lemma log_prob_change_of_variables_witness :
  let ε := SAC.min_Val Demo.agent + 0.001 in
  let out :=
    SAC.get_action_log_prob (H:=Demo.toy) Demo.agent [[0]] Demo.no_noise Demo.no_noise in
  0 < ε
  ∧ SAC.task_action out !! 0%nat
    = Some (tanh <$> pre_squash (SAC.policy_net Demo.agent) [0] (Demo.no_noise 0%nat))
  ∧ SAC.task_log_prob out !! 0%nat
    = Some (corrected_log_prob ε (SAC.policy_net Demo.agent) [0] (Demo.no_noise 0%nat))
  ∧ (SAC.use_recovery Demo.agent = true →
     SAC.mixed_action out !! 0%nat
     = Some (tanh <$> pre_squash (SAC.policy_recovery_net Demo.agent) [0]
               (Demo.no_noise 0%nat))
     ∧ SAC.mixed_log_prob out !! 0%nat
       = Some (corrected_log_prob ε (SAC.policy_recovery_net Demo.agent) [0]
                 (Demo.no_noise 0%nat))).
Proof.
  apply (log_prob_change_of_variables (H:=Demo.toy) Demo.agent [[0]]
           Demo.no_noise Demo.no_noise 0 [0]).
  - simpl. lra.
  - reflexivity.
Defined.

Lemma mixed_sample_is_recovery_witness :
  let out :=
    SAC.get_action_log_prob (H:=Demo.toy) Demo.agent [[0]] Demo.no_noise Demo.no_noise in
  SAC.mixed_action out
  = tmap tanh (Normal_sample
                 (SAC.policy_dist (SAC.policy_recovery_net Demo.agent) [[0]])
                 Demo.no_noise).
Proof.
  destruct (mixed_sample_is_recovery (H:=Demo.toy) Demo.agent [[0]]
              Demo.no_noise Demo.no_noise) as [[Haction _] _].
  - reflexivity.
  - exact Haction.
Defined.

Lemma bootstrapped_targets_witness :
  SAC.next_q_value (H:=Demo.toy) Demo.agent Demo.columns !! 0%nat
  = Some (1 + (1 - 0) * SAC.gamma Demo.agent
              * critic_out (SAC.Target_value_net Demo.agent) [0])
  ∧ SAC.next_q_risk_value (H:=Demo.toy) Demo.agent Demo.columns !! 0%nat
    = Some (- 1 + (1 - 0) * SAC.gamma Demo.agent
                  * critic_out (SAC.Target_value_risk_net Demo.agent) [0]
            + clamp (- 1 / (1 - SAC.gamma Demo.agent) * 0 - - 1) 0
                (50 / (1 - SAC.gamma Demo.agent))).
Proof.
  apply (bootstrapped_targets (H:=Demo.toy) Demo.agent Demo.batch Demo.columns
           [1] [1] [0] [[0]] 0 1 1 0 [0]); reflexivity.
Defined.

Lemma policy_target_blend_witness :
  let gate := clamp (- -0.02 * 10 * 2) 0.25 0.75 in
  SAC.suppression_gate [-0.02] !! 0%nat = Some gate
  ∧ 0.25 <= gate <= 0.75
  ∧ SAC.log_policy_target (H:=Demo.toy) Demo.agent [1] [0] [-0.02] [0] !! 0%nat
    = Some ((1 - 0) * (1 - gate) + gate * (-0.02 - 0)).
Proof.
  apply (policy_target_blend (H:=Demo.toy) Demo.agent [1] [0] [-0.02] [0] 0 1 0 (-0.02) 0);
    reflexivity.
Defined.

Lemma train_below_warm_up_witness :
  SAC.train (H:=Demo.toy) Demo.agent (ReplayBuffer.init 2 "train_agent" 4) Demo.entropy 0
  = Ok (Demo.agent, 0%nat).
Proof.
  apply (train_below_warm_up (H:=Demo.toy) Demo.agent
           (ReplayBuffer.init 2 "train_agent" 4) Demo.entropy 0).
  simpl. lia.
Defined.

(** The optimizer of the small instance keeps the shape of the parameters. *)
Lemma toy_step_same_shape (o : @optimizer Demo.toy) (θ : Params) (loss : Params → R) :
  same_shape θ (@optimizer_step Demo.toy o θ loss).2.
Proof.
  cbn. unfold same_shape, tmap. induction θ as [|p θ IH]; constructor; [|done].
  by rewrite length_fmap.
Qed.

Lemma train_step_soft_update_witness :
  ∃ agent',
    SAC.train_step (H:=Demo.toy) Demo.agent Demo.batch Demo.no_noise Demo.no_noise
    = Ok agent'
    ∧ param_at (SAC.value_net agent') 0 0 = Some (1 / 2)
    ∧ param_at (SAC.Target_value_net agent') 0 0 = Some (0 * (1 - 0.5) + 1 / 2 * 0.5).
Proof.
  destruct (train_step_soft_update (H:=Demo.toy) Demo.agent Demo.batch Demo.columns
              Demo.no_noise Demo.no_noise) as (agent' & Hstep & Hv & _).
  - reflexivity.
  - apply toy_step_same_shape.
  - repeat constructor.
  - repeat constructor.
  - exists agent'. split; [exact Hstep|].
    destruct (Hv 0%nat 0%nat 0) as (b & Hb & Ht); [reflexivity|].
    injection Hstep as <-. cbn in Hb. injection Hb as <-.
    split; [reflexivity|exact Ht].
Defined.

Lemma clamp_inside x lo hi : lo <= x <= hi → clamp x lo hi = x.
Proof. intros [Hlo Hhi]. unfold clamp. rewrite Rmax_left by done. by rewrite Rmin_left. Qed.

Lemma clamp_below x lo hi : x <= lo <= hi → clamp x lo hi = lo.
Proof. intros [Hlo Hhi]. unfold clamp. rewrite Rmax_right by done. by rewrite Rmin_left. Qed.

(** For a batch row with risk 1 and done 0, γ = 0.5 and a target value 0 the
    code computes the risk target 0; the formula of the specification gives
    2 on the risk of the batch and -1 on the negated risk. *)
Lemma risk_target_not_as_claimed :
  SAC.read_batch Demo.batch = Ok Demo.columns
  ∧ Demo.batch !! "risk" = Some (Arr1 [1])
  ∧ Demo.batch !! "done" = Some (Arr1 [0])
  ∧ Demo.batch !! "n_state" = Some (Arr2 [[0]])
  ∧ SAC.use_recovery Demo.agent = true
  ∧ SAC.next_q_risk_value Demo.agent Demo.columns !! 0%nat
    ≠ Some (claimed_next_q_risk_value (SAC.gamma Demo.agent) 1 0
              (critic_out (SAC.Target_value_risk_net Demo.agent) [0]))
  ∧ SAC.next_q_risk_value Demo.agent Demo.columns !! 0%nat
    ≠ Some (claimed_next_q_risk_value (SAC.gamma Demo.agent) (- 1) 0
              (critic_out (SAC.Target_value_risk_net Demo.agent) [0])).
Proof.
  split_and!; try reflexivity.
  - cbn. unfold claimed_next_q_risk_value.
    rewrite (clamp_inside (-1 / (1 - 0.5) * (1 - (1 - 0)) - -1)) by lra.
    rewrite (clamp_inside (1 / (1 - 0.5) * (1 - 0) - 1)) by lra.
    intros [= Heq]. lra.
  - cbn. unfold claimed_next_q_risk_value.
    rewrite (clamp_inside (-1 / (1 - 0.5) * (1 - (1 - 0)) - -1)) by lra.
    rewrite (clamp_below (-1 / (1 - 0.5) * (1 - 0) - -1)) by lra.
    intros [= Heq]. lra.
Qed.

(** A configuration that sets [suppression_weight] to 5 is accepted by
    [__init__]; the gate at [new_Q_risk = -0.02] is still
    [clamp(0.02 * 10 * 2) = 0.4], where the weight 5 would give 0.25. *)
Lemma gate_weight_not_configured :
  cfg_float Demo.config "suppression_weight" = Ok 5
  ∧ ∃ agent,
      SAC.init Demo.config Demo.fresh = Ok agent
      ∧ SAC.use_suppression agent = true
      ∧ SAC.suppression_gate [-0.02] ≠ [claimed_gate Demo.config (-0.02)]
      ∧ SAC.log_policy_target agent [1] [0] [-0.02] [0]
        ≠ [(1 - 0) * (1 - claimed_gate Demo.config (-0.02))
           + claimed_gate Demo.config (-0.02) * (-0.02 - 0)].
Proof.
  assert (claimed_gate Demo.config (-0.02) = 0.25) as Hclaimed.
  { unfold claimed_gate.
    change (cfg_float Demo.config "suppression_weight") with (Ok (A:=R) 5).
    apply clamp_below. lra. }
  assert (SAC.suppression_gate [-0.02] = [0.4]) as Hgate.
  { cbn. rewrite clamp_inside by lra. f_equal. lra. }
  split; [reflexivity|]. eexists. split; [reflexivity|]. split; [reflexivity|].
  rewrite Hclaimed. split.
  - rewrite Hgate. intros [= Heq]. lra.
  - unfold SAC.log_policy_target. cbn [SAC.use_recovery SAC.use_suppression].
    rewrite Hgate. cbn. intros [= Heq]. lra.
Qed.

(** C2, at a failing input.  For the batch of the two observations [[0]] and
    [[-1]] the risk estimates are 0 and -1 and the threshold is -0.1: the
    gate reads the first estimate only, so the second element executes its
    task action [tanh 0] although its estimate is below the threshold and
    the recovery sample for it is [tanh 1]. *)
Theorem get_action_gates_on_first_element :
  let state := [[0]; [-1]] in
  let task := [[tanh 0]; [tanh 0]] in
  SAC.get_action Demo.agent state [] true Demo.no_noise Demo.no_noise = Ok (task, task)
  ∧ SAC.Q_forward (SAC.Q_risk_net Demo.agent) state task = [0; -1]
  ∧ -1 < - SAC.risk_thresh Demo.agent
  ∧ SAC.sample true Demo.no_noise
      (SAC.Actor_forward (SAC.policy_recovery_net Demo.agent) state).1
      (SAC.Actor_forward (SAC.policy_recovery_net Demo.agent) state).2
    = [[tanh 1]; [tanh 1]]
  ∧ [tanh 0] ≠ [tanh 1].
Proof.
  cbn. split_and!; try reflexivity.
  - destruct (Rlt_dec _ _) as [Hlt|_]; [lra|reflexivity].
  - lra.
  - intros [= Heq]. pose proof tanh_1_pos. rewrite tanh_0_eq in Heq. lra.
Qed.

(** Every batch [sample] returns has the five keys of its dictionary, and
    the reads of [train] stop at the missing key [task_action]. *)
Lemma sample_keys b batch_size sample_index batch :
  ReplayBuffer.sample b batch_size sample_index = Ok batch →
  dom batch = ({[ "action"; "state"; "n_state"; "reward"; "done" ]} : gset string)
  ∧ SAC.read_batch batch = Raise (KeyError "task_action").
Proof.
  unfold ReplayBuffer.sample. intros Hs.
  apply bind_Ok in Hs as (p & _ & Hs).
  repeat case_decide; try done;
    repeat (apply bind_Ok in Hs as (? & _ & Hs)); injection Hs as <-.
  all: split; [set_solver|reflexivity].
Qed.

(** C4, at a failing input.  The batch [sample] returns has exactly the keys
    action, state, n_state, reward and done; task_action, mixed_action and
    risk are missing, and [train] on this buffer raises
    [KeyError "task_action"]. *)
Theorem sample_batch_lacks_task_action :
  ∃ batch,
    ReplayBuffer.sample Demo.buffer 2 [0; 1]%nat = Ok batch
    ∧ dom batch = ({[ "action"; "state"; "n_state"; "reward"; "done" ]} : gset string)
    ∧ batch !! "task_action" = None
    ∧ batch !! "mixed_action" = None
    ∧ batch !! "risk" = None
    ∧ SAC.train Demo.agent Demo.buffer Demo.entropy 0 = Raise (KeyError "task_action").
Proof.
  eexists. split; [reflexivity|]. split_and!; reflexivity.
Qed.

Import Notions.

(** ** More about the replay buffer *)

Lemma append_at_Ok {A} sid (x : A) buf buf' :
  ReplayBuffer.append_at sid x buf = Ok buf' ↔
  ∃ traj, buf !! sid = Some traj ∧ buf' = <[sid := traj ++ [x]]> buf.
Proof.
  unfold ReplayBuffer.append_at. destruct (buf !! sid) as [traj|]; cbn; split.
  - intros [= <-]. eauto.
  - by intros (t & [= <-] & ->).
  - done.
  - by intros (t & [=] & _).
Qed.

Lemma append_at_lookup {A} sid (x : A) buf buf' s :
  ReplayBuffer.append_at sid x buf = Ok buf' →
  buf' !! s = (fun traj => if decide (sid = s) then traj ++ [x] else traj) <$> buf !! s.
Proof.
  intros (traj & Htraj & ->)%append_at_Ok.
  destruct (decide (sid = s)) as [<-|Hne].
  - rewrite list_lookup_insert_eq by (by eapply lookup_lt_Some). by rewrite Htraj.
  - rewrite list_lookup_insert_ne by done. by destruct (buf !! s).
Qed.

Lemma stored_with_cons {A} inf infos (x : A) xs s :
  stored_with (inf :: infos) (x :: xs) s
  = (if decide (ReplayBuffer.scenario_id inf = s) then [x] else []) ++ stored_with infos xs s.
Proof. unfold stored_with. cbn. by case_decide. Qed.

(** What one field holds after the loop of [store] has run from index [k]. *)
Lemma store_field_step {A} (infos : list ReplayBuffer.info) (xs : list A)
    (f f1 f' : list (list A)) k inf x s :
  infos !! k = Some inf → xs !! k = Some x →
  ReplayBuffer.append_at (ReplayBuffer.scenario_id inf) x f = Ok f1 →
  f' !! s = (fun traj => traj ++ stored_with (drop (S k) infos) (drop (S k) xs) s) <$> f1 !! s →
  f' !! s = (fun traj => traj ++ stored_with (drop k infos) (drop k xs) s) <$> f !! s.
Proof.
  intros Hinf Hx Hf1 ->. rewrite (append_at_lookup _ _ _ _ s Hf1).
  rewrite (drop_S _ _ _ Hinf), (drop_S _ _ _ Hx), stored_with_cons.
  destruct (f !! s) as [traj|]; cbn; [|done].
  case_decide; by rewrite <- ?app_assoc.
Qed.

Lemma store_loop_fields d m : ∀ k b b',
  (k + m = length (ReplayBuffer.infos d))%nat →
  ReplayBuffer.store_loop d b (seq k m) = Ok b' →
  ∀ s,
    ReplayBuffer.buffer_ego_actions b' !! s
    = (fun traj => traj ++ stored_with (drop k (ReplayBuffer.infos d))
                             (drop k (ReplayBuffer.ego_actions d)) s)
      <$> ReplayBuffer.buffer_ego_actions b !! s
    ∧ ReplayBuffer.buffer_scenario_actions b' !! s
      = (fun traj => traj ++ stored_with (drop k (ReplayBuffer.infos d))
                               (drop k (ReplayBuffer.scenario_actions d)) s)
        <$> ReplayBuffer.buffer_scenario_actions b !! s
    ∧ ReplayBuffer.buffer_obs b' !! s
      = (fun traj => traj ++ stored_with (drop k (ReplayBuffer.infos d))
                               (drop k (ReplayBuffer.obs d)) s)
        <$> ReplayBuffer.buffer_obs b !! s
    ∧ ReplayBuffer.buffer_next_obs b' !! s
      = (fun traj => traj ++ stored_with (drop k (ReplayBuffer.infos d))
                               (drop k (ReplayBuffer.next_obs d)) s)
        <$> ReplayBuffer.buffer_next_obs b !! s
    ∧ ReplayBuffer.buffer_rewards b' !! s
      = (fun traj => traj ++ stored_with (drop k (ReplayBuffer.infos d))
                               (drop k (ReplayBuffer.rewards d)) s)
        <$> ReplayBuffer.buffer_rewards b !! s
    ∧ ReplayBuffer.buffer_dones b' !! s
      = (fun traj => traj ++ stored_with (drop k (ReplayBuffer.infos d))
                               (drop k (ReplayBuffer.dones d)) s)
        <$> ReplayBuffer.buffer_dones b !! s.
Proof.
  induction m as [|m IH]; intros k b b' Hk Hloop s; cbn in Hloop.
  - injection Hloop as <-. rewrite (drop_ge (ReplayBuffer.infos d)) by lia.
    unfold stored_with. cbn.
    split_and!; by destruct (_ !! s) as [traj|]; cbn; rewrite ?app_nil_r.
  - apply bind_Ok in Hloop as (b1 & Hone & Hloop).
    destruct (IH (S k) b1 b' ltac:(lia) Hloop s) as (He & Hs & Ho & Hno & Hr & Hd).
    unfold ReplayBuffer.store_one in Hone.
    apply bind_Ok in Hone as (inf & Hinf%or_raise_Ok & Hone).
    apply bind_Ok in Hone as (a & Ha%or_raise_Ok & Hone).
    apply bind_Ok in Hone as (ea & Hea & Hone).
    apply bind_Ok in Hone as (a2 & Ha2%or_raise_Ok & Hone).
    apply bind_Ok in Hone as (sa & Hsa & Hone).
    apply bind_Ok in Hone as (o & Hobs%or_raise_Ok & Hone).
    apply bind_Ok in Hone as (ob & Hob & Hone).
    apply bind_Ok in Hone as (o2 & Hobs2%or_raise_Ok & Hone).
    apply bind_Ok in Hone as (nob & Hnob & Hone).
    apply bind_Ok in Hone as (r & Hrw%or_raise_Ok & Hone).
    apply bind_Ok in Hone as (rw & Hrwb & Hone).
    apply bind_Ok in Hone as (dn & Hdn%or_raise_Ok & Hone).
    apply bind_Ok in Hone as (dns & Hdns & Hone).
    injection Hone as <-. cbn in He, Hs, Ho, Hno, Hr, Hd.
    split_and!; eapply store_field_step; eauto.
Qed.

Lemma store_loop_scalars d idx : ∀ b b',
  ReplayBuffer.store_loop d b idx = Ok b' →
  ReplayBuffer.mode b' = ReplayBuffer.mode b
  ∧ ReplayBuffer.buffer_capacity b' = ReplayBuffer.buffer_capacity b
  ∧ ReplayBuffer.num_scenario b' = ReplayBuffer.num_scenario b
  ∧ ReplayBuffer.buffer_len b' = ReplayBuffer.buffer_len b.
Proof.
  induction idx as [|i idx IH]; intros b b' Hloop; cbn in Hloop.
  - by injection Hloop as <-.
  - apply bind_Ok in Hloop as (b1 & Hone & Hloop).
    destruct (IH _ _ Hloop) as (-> & -> & -> & ->).
    unfold ReplayBuffer.store_one in Hone.
    repeat (apply bind_Ok in Hone as (? & _ & Hone)). by injection Hone as <-.
Qed.

(** X1. A call of [store] that returns leaves mode, capacity and scenario
    count alone, adds [len(infos)] to [buffer_len], and appends to every
    trajectory of every field, at its end and in order, exactly the entries
    of the call that carry its scenario id: nothing stored before is dropped
    or moved. *)
Theorem store_appends (b : ReplayBuffer.t) (d : ReplayBuffer.data_list) (b' : ReplayBuffer.t) :
  ReplayBuffer.store b d = Ok b' →
  (ReplayBuffer.mode b' = ReplayBuffer.mode b
   ∧ ReplayBuffer.buffer_capacity b' = ReplayBuffer.buffer_capacity b
   ∧ ReplayBuffer.num_scenario b' = ReplayBuffer.num_scenario b
   ∧ ReplayBuffer.buffer_len b'
     = (ReplayBuffer.buffer_len b + Z.of_nat (length (ReplayBuffer.infos d)))%Z)
  ∧ ∀ s,
      ReplayBuffer.buffer_ego_actions b' !! s
      = (fun traj => traj ++ stored_with (ReplayBuffer.infos d) (ReplayBuffer.ego_actions d) s)
        <$> ReplayBuffer.buffer_ego_actions b !! s
      ∧ ReplayBuffer.buffer_scenario_actions b' !! s
        = (fun traj => traj ++ stored_with (ReplayBuffer.infos d)
                                 (ReplayBuffer.scenario_actions d) s)
          <$> ReplayBuffer.buffer_scenario_actions b !! s
      ∧ ReplayBuffer.buffer_obs b' !! s
        = (fun traj => traj ++ stored_with (ReplayBuffer.infos d) (ReplayBuffer.obs d) s)
          <$> ReplayBuffer.buffer_obs b !! s
      ∧ ReplayBuffer.buffer_next_obs b' !! s
        = (fun traj => traj ++ stored_with (ReplayBuffer.infos d) (ReplayBuffer.next_obs d) s)
          <$> ReplayBuffer.buffer_next_obs b !! s
      ∧ ReplayBuffer.buffer_rewards b' !! s
        = (fun traj => traj ++ stored_with (ReplayBuffer.infos d) (ReplayBuffer.rewards d) s)
          <$> ReplayBuffer.buffer_rewards b !! s
      ∧ ReplayBuffer.buffer_dones b' !! s
        = (fun traj => traj ++ stored_with (ReplayBuffer.infos d) (ReplayBuffer.dones d) s)
          <$> ReplayBuffer.buffer_dones b !! s.
Proof.
  unfold ReplayBuffer.store. intros Hloop. split.
  - by apply store_loop_scalars in Hloop as (-> & -> & -> & ->).
  - intros s. by apply (store_loop_fields d _ 0%nat _ b' eq_refl Hloop s).
Qed.

Lemma bind_Raise {A B} (m : result A) (f : A → result B) e :
  m ≫= f = Raise e ↔ m = Raise e ∨ ∃ a, m = Ok a ∧ f a = Raise e.
Proof.
  destruct m as [a|e']; cbn; split.
  - intros Hf. right. by exists a.
  - by intros [[=]|(a' & [= ->] & Hf)].
  - intros [= ->]. by left.
  - by intros [[= ->]|(a' & [=] & _)].
Qed.

Lemma or_raise_Raise {A} (o : option A) e0 e : o ?! e0 = Raise e → e = e0.
Proof. destruct o; cbn; congruence. Qed.

Lemma append_at_Raise {A} sid (x : A) buf e :
  ReplayBuffer.append_at sid x buf = Raise e → e = IndexError.
Proof.
  unfold ReplayBuffer.append_at. destruct (buf !! sid); cbn; congruence.
Qed.

Lemma store_one_Raise d b i e : ReplayBuffer.store_one d b i = Raise e → e = IndexError.
Proof.
  unfold ReplayBuffer.store_one. intros Hone.
  repeat match goal with
    | H : _ ≫= _ = Raise _ |- _ => apply bind_Raise in H as [H|(? & _ & H)]
    | H : _ ?! _ = Raise _ |- _ => by apply or_raise_Raise in H
    | H : ReplayBuffer.append_at _ _ _ = Raise _ |- _ => by apply append_at_Raise in H
    | H : Ok _ = Raise _ |- _ => discriminate H
    end.
Qed.

Lemma store_loop_Raise d idx : ∀ b e,
  ReplayBuffer.store_loop d b idx = Raise e → e = IndexError.
Proof.
  induction idx as [|i idx IH]; intros b e Hloop; cbn in Hloop; [done|].
  apply bind_Raise in Hloop as [Hone|(b1 & _ & Hloop)].
  - by eapply store_one_Raise.
  - by eapply IH.
Qed.

(** The six fields of [b] have [n] sub-buffers each. *)
Lemma aligned_fields_width b :
  aligned_fields b →
  let n := length (ReplayBuffer.buffer_rewards b) in
  length (ReplayBuffer.buffer_ego_actions b) = n
  ∧ length (ReplayBuffer.buffer_scenario_actions b) = n
  ∧ length (ReplayBuffer.buffer_obs b) = n
  ∧ length (ReplayBuffer.buffer_next_obs b) = n
  ∧ length (ReplayBuffer.buffer_dones b) = n.
Proof.
  intros [_ He Hs Ho Hno Hd]. cbn. split_and!; by apply aligned_length.
Qed.

Lemma store_one_Ok_inv d b i b' :
  ReplayBuffer.store_one d b i = Ok b' →
  (∃ inf, ReplayBuffer.infos d !! i = Some inf
        ∧ (ReplayBuffer.scenario_id inf < length (ReplayBuffer.buffer_rewards b))%nat)
  ∧ is_Some (ReplayBuffer.ego_actions d !! i)
  ∧ is_Some (ReplayBuffer.scenario_actions d !! i)
  ∧ is_Some (ReplayBuffer.obs d !! i)
  ∧ is_Some (ReplayBuffer.next_obs d !! i)
  ∧ is_Some (ReplayBuffer.rewards d !! i)
  ∧ is_Some (ReplayBuffer.dones d !! i)
  ∧ length (ReplayBuffer.buffer_rewards b') = length (ReplayBuffer.buffer_rewards b).
Proof.
  unfold ReplayBuffer.store_one. intros Hone.
  apply bind_Ok in Hone as (inf & Hinf%or_raise_Ok & Hone).
  apply bind_Ok in Hone as (a & Ha%or_raise_Ok & Hone).
  apply bind_Ok in Hone as (ea & Hea & Hone).
  apply bind_Ok in Hone as (a2 & Ha2%or_raise_Ok & Hone).
  apply bind_Ok in Hone as (sa & Hsa & Hone).
  apply bind_Ok in Hone as (o & Hobs%or_raise_Ok & Hone).
  apply bind_Ok in Hone as (ob & Hob & Hone).
  apply bind_Ok in Hone as (o2 & Hobs2%or_raise_Ok & Hone).
  apply bind_Ok in Hone as (nob & Hnob & Hone).
  apply bind_Ok in Hone as (r & Hrw%or_raise_Ok & Hone).
  apply bind_Ok in Hone as (rw & (traj & Htraj & ->)%append_at_Ok & Hone).
  apply bind_Ok in Hone as (dn & Hdn%or_raise_Ok & Hone).
  apply bind_Ok in Hone as (dns & Hdns & Hone).
  injection Hone as <-. cbn. rewrite length_insert.
  split_and!; eauto. exists inf. split; [done|]. by eapply lookup_lt_Some.
Qed.

Lemma store_loop_Ok_inv d m : ∀ k b b',
  ReplayBuffer.store_loop d b (seq k m) = Ok b' →
  ∀ i, (k ≤ i < k + m)%nat →
    (∃ inf, ReplayBuffer.infos d !! i = Some inf
          ∧ (ReplayBuffer.scenario_id inf < length (ReplayBuffer.buffer_rewards b))%nat)
    ∧ is_Some (ReplayBuffer.ego_actions d !! i)
    ∧ is_Some (ReplayBuffer.scenario_actions d !! i)
    ∧ is_Some (ReplayBuffer.obs d !! i)
    ∧ is_Some (ReplayBuffer.next_obs d !! i)
    ∧ is_Some (ReplayBuffer.rewards d !! i)
    ∧ is_Some (ReplayBuffer.dones d !! i).
Proof.
  induction m as [|m IH]; intros k b b' Hloop i Hi; [lia|]. cbn in Hloop.
  apply bind_Ok in Hloop as (b1 & Hone & Hloop).
  apply store_one_Ok_inv in Hone as (Hinf & He & Hs & Ho & Hno & Hr & Hd & Hlen).
  destruct (decide (i = k)) as [->|Hne]; [done|].
  destruct (IH _ _ _ Hloop i ltac:(lia)) as (Hinf' & Hrest).
  split; [|done]. destruct Hinf' as (inf & ? & ?). exists inf. split; [done|lia].
Qed.

Lemma append_at_total {A} sid (x : A) buf :
  (sid < length buf)%nat →
  ∃ buf', ReplayBuffer.append_at sid x buf = Ok buf' ∧ length buf' = length buf.
Proof.
  intros (traj & Htraj)%lookup_lt_is_Some. unfold ReplayBuffer.append_at.
  rewrite Htraj. cbn. eexists. split; [done|]. by rewrite length_insert.
Qed.

Lemma store_loop_total d n m : ∀ k b,
  length (ReplayBuffer.buffer_ego_actions b) = n →
  length (ReplayBuffer.buffer_scenario_actions b) = n →
  length (ReplayBuffer.buffer_obs b) = n →
  length (ReplayBuffer.buffer_next_obs b) = n →
  length (ReplayBuffer.buffer_rewards b) = n →
  length (ReplayBuffer.buffer_dones b) = n →
  Forall (fun inf => (ReplayBuffer.scenario_id inf < n)%nat) (ReplayBuffer.infos d) →
  (k + m ≤ length (ReplayBuffer.infos d))%nat →
  (k + m ≤ length (ReplayBuffer.ego_actions d))%nat →
  (k + m ≤ length (ReplayBuffer.scenario_actions d))%nat →
  (k + m ≤ length (ReplayBuffer.obs d))%nat →
  (k + m ≤ length (ReplayBuffer.next_obs d))%nat →
  (k + m ≤ length (ReplayBuffer.rewards d))%nat →
  (k + m ≤ length (ReplayBuffer.dones d))%nat →
  ∃ b', ReplayBuffer.store_loop d b (seq k m) = Ok b'.
Proof.
  induction m as [|m IH]; intros k b He Hs Ho Hno Hr Hd Hsid Li Le Ls Lo Lno Lr Ld; cbn.
  - by eexists.
  - destruct (lookup_lt_is_Some_2 (ReplayBuffer.infos d) k) as [inf Hinf]; [lia|].
    destruct (lookup_lt_is_Some_2 (ReplayBuffer.ego_actions d) k) as [a Ha]; [lia|].
    destruct (lookup_lt_is_Some_2 (ReplayBuffer.scenario_actions d) k) as [a2 Ha2]; [lia|].
    destruct (lookup_lt_is_Some_2 (ReplayBuffer.obs d) k) as [o Hob]; [lia|].
    destruct (lookup_lt_is_Some_2 (ReplayBuffer.next_obs d) k) as [o2 Hob2]; [lia|].
    destruct (lookup_lt_is_Some_2 (ReplayBuffer.rewards d) k) as [r Hrw]; [lia|].
    destruct (lookup_lt_is_Some_2 (ReplayBuffer.dones d) k) as [dn Hdn]; [lia|].
    pose proof (proj1 (Forall_lookup _ _) Hsid _ _ Hinf) as Hlt. cbn in Hlt.
    destruct (append_at_total (ReplayBuffer.scenario_id inf) a
                (ReplayBuffer.buffer_ego_actions b)) as (ea & Hea & Lea); [lia|].
    destruct (append_at_total (ReplayBuffer.scenario_id inf) a2
                (ReplayBuffer.buffer_scenario_actions b)) as (sa & Hsa & Lsa); [lia|].
    destruct (append_at_total (ReplayBuffer.scenario_id inf) o
                (ReplayBuffer.buffer_obs b)) as (ob & Hobb & Lob); [lia|].
    destruct (append_at_total (ReplayBuffer.scenario_id inf) o2
                (ReplayBuffer.buffer_next_obs b)) as (nob & Hnob & Lnob); [lia|].
    destruct (append_at_total (ReplayBuffer.scenario_id inf) r
                (ReplayBuffer.buffer_rewards b)) as (rw & Hrwb & Lrw); [lia|].
    destruct (append_at_total (ReplayBuffer.scenario_id inf) dn
                (ReplayBuffer.buffer_dones b)) as (dns & Hdns & Ldns); [lia|].
    unfold ReplayBuffer.store_one.
    rewrite Hinf, Ha, Ha2, Hob, Hob2, Hrw, Hdn. cbn.
    rewrite Hea. cbn. rewrite Hsa. cbn. rewrite Hobb. cbn. rewrite Hnob. cbn.
    rewrite Hrwb. cbn. rewrite Hdns. cbn.
    apply IH; cbn; try lia. done.
Qed.

(** X2. On a buffer with aligned fields, [store] returns exactly when its
    argument fits (every scenario id indexes a sub-buffer and no data
    sequence is shorter than [infos]); otherwise it raises [IndexError], and
    it raises nothing else. *)
Theorem store_returns_iff_fits (b : ReplayBuffer.t) (d : ReplayBuffer.data_list) :
  aligned_fields b →
  ((∃ b', ReplayBuffer.store b d = Ok b') ↔ fits b d)
  ∧ (¬ fits b d → ReplayBuffer.store b d = Raise IndexError).
Proof.
  intros Hb.
  assert ((∃ b', ReplayBuffer.store b d = Ok b') ↔ fits b d) as Hiff.
  { split.
    - intros [b' Hst]. unfold ReplayBuffer.store in Hst.
      pose proof (store_loop_Ok_inv d _ 0%nat _ _ Hst) as Hall. cbn in Hall.
      assert (∀ A (xs : list A),
        (∀ i, (i < length (ReplayBuffer.infos d))%nat → is_Some (xs !! i)) →
        (length (ReplayBuffer.infos d) ≤ length xs)%nat) as Hlen.
      { intros A xs Hxs. destruct (length (ReplayBuffer.infos d)) as [|n] eqn:Hn; [lia|].
        destruct (Hxs n ltac:(lia)) as [x Hx]. apply lookup_lt_Some in Hx. lia. }
      split_and!; try (apply Hlen; intros i Hi; apply (Hall i); lia).
      apply Forall_lookup. intros i inf Hinf.
      destruct (Hall i) as ((inf' & Hinf' & Hlt) & _).
      { apply lookup_lt_Some in Hinf. lia. }
      by simplify_eq.
    - intros (Hsid & Le & Ls & Lo & Lno & Lr & Ld).
      destruct (aligned_fields_width b Hb) as (He & Hs & Ho & Hno & Hd).
      unfold ReplayBuffer.store.
      eapply (store_loop_total d (length (ReplayBuffer.buffer_rewards b)));
        cbn; try done; lia. }
  split; [done|]. intros Hfits.
  destruct (ReplayBuffer.store b d) as [b'|e] eqn:Hst.
  - destruct Hfits. apply Hiff. by exists b'.
  - unfold ReplayBuffer.store in Hst. by apply store_loop_Raise in Hst as ->.
Qed.

Lemma sum_list_min_le (w : nat) (lens : list nat) :
  (sum_list (Nat.min w <$> lens) ≤ w * length lens)%nat
  ∧ (sum_list (Nat.min w <$> lens) ≤ sum_list lens)%nat.
Proof. induction lens as [|n lens [IH1 IH2]]; cbn; lia. Qed.

(** X3. With at least one scenario and a non-negative capacity, the pool the
    first loop of [sample] builds never holds more than [buffer_capacity]
    transitions, and its six lists have one length. *)
Theorem pool_within_capacity (b : ReplayBuffer.t) (p : ReplayBuffer.prepared) :
  aligned_fields b →
  (0 < ReplayBuffer.num_scenario b)%Z →
  (0 ≤ ReplayBuffer.buffer_capacity b)%Z →
  ReplayBuffer.prepare b = Ok p →
  (Z.of_nat (length (ReplayBuffer.prepared_rewards p)) ≤ ReplayBuffer.buffer_capacity b)%Z
  ∧ length (ReplayBuffer.prepared_ego_actions p) = length (ReplayBuffer.prepared_rewards p)
  ∧ length (ReplayBuffer.prepared_scenario_actions p)
    = length (ReplayBuffer.prepared_rewards p)
  ∧ length (ReplayBuffer.prepared_obs p) = length (ReplayBuffer.prepared_rewards p)
  ∧ length (ReplayBuffer.prepared_next_obs p) = length (ReplayBuffer.prepared_rewards p)
  ∧ length (ReplayBuffer.prepared_dones p) = length (ReplayBuffer.prepared_rewards p).
Proof.
  intros Hb Hn Hcap Hp. rewrite (prepare_Ok b Hb) in Hp by lia. injection Hp as <-.
  cbn. pose proof Hb as [Hlen He Hs Ho Hno Hd].
  rewrite !length_pool, He, Hs, Ho, Hno, Hd. split_and!; try done.
  set (w := (ReplayBuffer.buffer_capacity b `div` ReplayBuffer.num_scenario b)%Z).
  destruct (sum_list_min_le (Z.to_nat w) (length <$> ReplayBuffer.buffer_rewards b))
    as [Hle _].
  rewrite length_fmap, Hlen in Hle.
  assert (0 ≤ w)%Z by (apply Z.div_pos; lia).
  assert (ReplayBuffer.num_scenario b * w ≤ ReplayBuffer.buffer_capacity b)%Z
    by (apply Z.mul_div_le; lia).
  nia.
Qed.

Lemma sample_empty_pools b batch_size raw p :
  ReplayBuffer.prepare b = Ok p →
  ReplayBuffer.prepared_rewards p = [] →
  ReplayBuffer.prepared_ego_actions p = [] →
  ReplayBuffer.prepared_scenario_actions p = [] →
  ReplayBuffer.sample b batch_size raw = Raise ValueError.
Proof.
  intros Hp Hr He Hs. unfold ReplayBuffer.sample. rewrite Hp. cbn. rewrite Hr.
  unfold ReplayBuffer.randint. cbn.
  repeat case_decide; try done; cbn; rewrite ?He, ?Hs; by repeat case_decide.
Qed.

(** X4. A reachable buffer that holds no transition cannot be sampled: with
    a scenario count other than zero [sample] raises [ValueError] for every
    batch size and every draw, and with a scenario count of zero it raises
    [ZeroDivisionError]. *)
Theorem sample_empty_raises (b : ReplayBuffer.t) (batch_size : Z) (sample_index : list nat) :
  reachable b →
  ReplayBuffer.buffer_len b = 0%Z →
  ReplayBuffer.sample b batch_size sample_index
  = Raise (if decide (ReplayBuffer.num_scenario b = 0%Z)
           then ZeroDivisionError else ValueError).
Proof.
  intros Hreach Hlen. destruct (reachable_aligned b Hreach) as [Hb Hstored].
  destruct (decide (ReplayBuffer.num_scenario b = 0%Z)) as [Hn|Hn].
  - unfold ReplayBuffer.sample, ReplayBuffer.prepare. by rewrite decide_True.
  - set (w := (ReplayBuffer.buffer_capacity b `div` ReplayBuffer.num_scenario b)%Z).
    assert (length (pool w (ReplayBuffer.buffer_rewards b)) = 0%nat) as Hrw.
    { rewrite length_pool.
      destruct (sum_list_min_le (Z.to_nat w) (length <$> ReplayBuffer.buffer_rewards b))
        as [_ Hle].
      unfold stored in Hstored. lia. }
    pose proof Hb as [_ He Hs _ _ _].
    apply (sample_empty_pools b batch_size sample_index _ (prepare_Ok b Hb Hn)); cbn; fold w.
    + by apply nil_length_inv.
    + apply nil_length_inv. by rewrite length_pool, He, <- length_pool.
    + apply nil_length_inv. by rewrite length_pool, Hs, <- length_pool.
Qed.

Lemma take_index_inv {A} (pool : list A) (sample_index : list nat) : ∀ out,
  take_index pool sample_index = Ok out →
  length out = length sample_index
  ∧ ∀ k i, sample_index !! k = Some i → out !! k = pool !! i ∧ is_Some (pool !! i).
Proof.
  unfold take_index.
  induction sample_index as [|i idx IH]; intros out Hout; cbn in Hout.
  - injection Hout as <-. by split.
  - apply bind_Ok in Hout as (x & Hx%or_raise_Ok & Hout).
    apply bind_Ok in Hout as (rest & Hrest & Hout). injection Hout as <-.
    destruct (IH _ Hrest) as [Hlen Hrow]. split; [cbn; lia|].
    intros [|k] j; cbn.
    + intros [= <-]. by rewrite Hx.
    + apply Hrow.
Qed.

Lemma locate_spec w lens : ∀ i s t,
  locate w lens i = Some (s, t) →
  ∃ n, lens !! s = Some n ∧ (n - w ≤ t < n)%nat.
Proof.
  induction lens as [|n lens IH]; intros i s t; cbn; [done|].
  case_decide as Hi.
  - intros [= <- <-]. exists n. split; [done|lia].
  - destruct (locate w lens (i - Nat.min w n)) as [[s' t']|] eqn:Hloc; cbn; [|done].
    intros [= <- <-]. by apply (IH _ _ _ Hloc).
Qed.

Lemma pool_lookup_locate {A} (w : Z) (f : list (list A)) : ∀ i,
  pool w f !! i
  = '(s, t) ← locate (Z.to_nat w) (length <$> f) i; traj ← f !! s; traj !! t.
Proof.
  induction f as [|traj f IH]; intros i; [done|].
  rewrite pool_cons. cbn [fmap list_fmap locate]. case_decide as Hi.
  - rewrite lookup_app_l by (by rewrite length_window).
    unfold window. by rewrite lookup_drop.
  - rewrite lookup_app_r by (rewrite length_window; lia).
    rewrite length_window, IH.
    by destruct (locate (Z.to_nat w) (length <$> f) _) as [[s t]|].
Qed.

(** X5. Every row of a returned batch is one stored transition: for each
    of the [batch_size] positions [k] there are a scenario [s] and a time
    step [t], inside the window of the most recent
    [buffer_capacity // num_scenario] steps of that scenario, such that row
    [k] of action, state, n_state, reward and done are the entries [s][t] of
    the five fields of the buffer. *)
Theorem sampled_rows_are_transitions (b : ReplayBuffer.t) (batch_size : Z)
    (raw : list nat) (batch : gmap string ndarray) :
  reachable b →
  ReplayBuffer.sample b batch_size raw = Ok batch →
  ∃ action state n_state reward done,
    batch = {[ "action" := Arr2 action; "state" := Arr2 state;
               "n_state" := Arr2 n_state; "reward" := Arr1 reward;
               "done" := Arr1 done ]}
    ∧ ∀ k, (k < Z.to_nat batch_size)%nat →
        ∃ s t traj,
          ReplayBuffer.buffer_rewards b !! s = Some traj
          ∧ (length traj
             - Z.to_nat (ReplayBuffer.buffer_capacity b `div` ReplayBuffer.num_scenario b)
             ≤ t < length traj)%nat
          ∧ reward !! k = traj !! t
          ∧ action !! k = (rows ← action_field b !! s; rows !! t)
          ∧ state !! k = (rows ← ReplayBuffer.buffer_obs b !! s; rows !! t)
          ∧ n_state !! k = (rows ← ReplayBuffer.buffer_next_obs b !! s; rows !! t)
          ∧ done !! k = (rows ← ReplayBuffer.buffer_dones b !! s; rows !! t).
Proof.
  intros Hreach Hs. destruct (reachable_aligned b Hreach) as [Hb _].
  unfold ReplayBuffer.sample in Hs.
  apply bind_Ok in Hs as (p & Hp & Hs).
  assert (ReplayBuffer.num_scenario b ≠ 0%Z) as Hn.
  { intros Hz. unfold ReplayBuffer.prepare in Hp. by rewrite decide_True in Hp. }
  rewrite (prepare_Ok b Hb Hn) in Hp. injection Hp as <-. cbn in Hs.
  set (w := (ReplayBuffer.buffer_capacity b `div` ReplayBuffer.num_scenario b)%Z) in *.
  apply bind_Ok in Hs as (sample_index & [Hsize _]%randint_inv & Hs).
  repeat case_decide; try done.
  all: apply bind_Ok in Hs as (action & Hact & Hs).
  all: apply bind_Ok in Hact as (arr_a & (-> & _ & _)%np_stack_inv & Hact).
  all: apply bind_Ok in Hs as (arr_s & (-> & _ & _)%np_stack_inv & Hs).
  all: apply bind_Ok in Hs as (state & Hst & Hs).
  all: apply bind_Ok in Hs as (arr_n & (-> & _ & _)%np_stack_inv & Hs).
  all: apply bind_Ok in Hs as (n_state & Hnst & Hs).
  all: apply bind_Ok in Hs as (arr_r & (-> & _ & _)%np_stack_inv & Hs).
  all: apply bind_Ok in Hs as (reward & Hrw & Hs).
  all: apply bind_Ok in Hs as (arr_d & (-> & _ & _)%np_stack_inv & Hs).
  all: apply bind_Ok in Hs as (done & Hdn & Hs).
  all: injection Hs as <-.
  all: exists action, state, n_state, reward, done; split; [done|].
  all: intros k Hk.
  all: destruct (lookup_lt_is_Some_2 sample_index k ltac:(lia)) as [i Hi].
  all: apply take_index_inv in Hact as [_ Hact], Hst as [_ Hst], Hnst as [_ Hnst],
         Hrw as [_ Hrw], Hdn as [_ Hdn].
  all: destruct (Hact k i Hi) as [-> _], (Hst k i Hi) as [-> _], (Hnst k i Hi) as [-> _],
         (Hrw k i Hi) as [-> [r Hr]], (Hdn k i Hi) as [-> _].
  all: pose proof Hb as [_ He Hsa Ho Hno Hd].
  all: rewrite !pool_lookup_locate in *.
  all: unfold action_field; rewrite ?decide_True by done; rewrite ?decide_False by done.
  all: rewrite ?He, ?Hsa, Ho, Hno, Hd.
  all: destruct (locate (Z.to_nat w) (length <$> ReplayBuffer.buffer_rewards b) i)
         as [[s t]|] eqn:Hloc; [|done].
  all: cbn in Hr |- *.
  all: destruct (ReplayBuffer.buffer_rewards b !! s) as [traj|] eqn:Htraj; [|done].
  all: cbn in Hr |- *.
  all: apply locate_spec in Hloc as (n & Hlen & Hwin).
  all: rewrite list_lookup_fmap, Htraj in Hlen; injection Hlen as <-.
  all: by exists s, t, traj.
Qed.

(** ** More about the agent *)

Import AgentNotions.

Section More_SAC_facts.
Context `{Torch}.

Lemma copy_params_same_shape target live :
  same_shape target live → SAC.copy_params target live = live.
Proof. induction 1; cbn; [done|]. by f_equal. Qed.

(** X6. After [__init__], when the fresh target networks have the shape of
    their live networks, each target network holds the parameters of its
    live network, and the agent has recovery and suppression enabled, the
    threshold 0.1, the weight [lam = 2] and the mode train, whatever the
    configuration says. *)
Theorem init_copies_targets (config : gmap string value) (fresh : SAC.Fresh) (agent : SAC.t) :
  same_shape (SAC.fresh_Target_value_net fresh) (SAC.fresh_value_net fresh) →
  same_shape (SAC.fresh_Target_value_risk_net fresh) (SAC.fresh_value_risk_net fresh) →
  SAC.init config fresh = Ok agent →
  SAC.Target_value_net agent = SAC.value_net agent
  ∧ SAC.Target_value_risk_net agent = SAC.value_risk_net agent
  ∧ SAC.value_net agent = SAC.fresh_value_net fresh
  ∧ SAC.value_risk_net agent = SAC.fresh_value_risk_net fresh
  ∧ SAC.use_recovery agent = true
  ∧ SAC.use_suppression agent = true
  ∧ SAC.risk_thresh agent = 0.1
  ∧ SAC.lam agent = 2
  ∧ SAC.mode agent = "train".
Proof.
  intros Hv Hvr Hinit. unfold SAC.init in Hinit.
  repeat (apply bind_Ok in Hinit as (? & _ & Hinit)). injection Hinit as <-. cbn.
  rewrite !copy_params_same_shape by done. by split_and!.
Qed.

(** X7. [__init__] reads its twelve keys and no other: two configurations
    that agree on them give the same agent, or the same exception. *)
Theorem init_reads_its_keys (config1 config2 : gmap string value) (fresh : SAC.Fresh) :
  Forall (fun key => config1 !! key = config2 !! key) init_keys →
  SAC.init config1 fresh = SAC.init config2 fresh.
Proof.
  unfold init_keys. intros Hkeys.
  repeat match goal with
    | H : Forall _ (_ :: _) |- _ => apply Forall_cons in H as [? H]
    end.
  unfold SAC.init, cfg_int, cfg_float.
  repeat match goal with H : config1 !! _ = _ |- _ => rewrite H; clear H end.
  done.
Qed.

(** X8. On a non-empty batch [get_action] returns one row per observation in
    both arrays; the first array is the task sample, and the second is
    either that same array or, with recovery enabled, the recovery sample of
    the whole batch: the gate never mixes the two. *)
Theorem get_action_all_or_nothing (agent : SAC.t) (state : list Vec)
    (infos : list ReplayBuffer.info) (deterministic : bool) (eps_task eps_rec : Noise) :
  state ≠ [] →
  let task :=
    SAC.sample deterministic eps_task
      (SAC.Actor_forward (SAC.policy_net agent) state).1
      (SAC.Actor_forward (SAC.policy_net agent) state).2 in
  let recovery :=
    SAC.sample deterministic eps_rec
      (SAC.Actor_forward (SAC.policy_recovery_net agent) state).1
      (SAC.Actor_forward (SAC.policy_recovery_net agent) state).2 in
  ∃ action,
    SAC.get_action agent state infos deterministic eps_task eps_rec = Ok (task, action)
    ∧ (action = task ∨ (SAC.use_recovery agent = true ∧ action = recovery))
    ∧ length task = length state ∧ length action = length state.
Proof.
  intros Hstate task recovery.
  assert (∀ θ eps,
    length (SAC.sample deterministic eps (SAC.Actor_forward θ state).1
              (SAC.Actor_forward θ state).2) = length state) as Hlen.
  { intros θ eps. destruct (length_Actor_forward θ state) as [Hmu Hls].
    rewrite length_sample by congruence. done. }
  pose proof (Hlen (SAC.policy_net agent) eps_task) as Htask.
  pose proof (Hlen (SAC.policy_recovery_net agent) eps_rec) as Hrecovery.
  fold task in Htask. fold recovery in Hrecovery.
  destruct (SAC.use_recovery agent) eqn:Hrec.
  - destruct state as [|x state]; [done|].
    destruct task as [|a rest] eqn:Ha; [done|].
    rewrite (get_action_first_element_gate agent x state infos deterministic
               eps_task eps_rec a rest Hrec Ha).
    fold recovery. destruct (Rlt_dec _ _); eexists; split_and!; eauto.
  - exists task. split_and!; auto.
    unfold SAC.get_action. rewrite Hrec. fold task.
    unfold task. by destruct (SAC.Actor_forward (SAC.policy_net agent) state).
Qed.


Lemma clamp_bounds x lo hi : lo <= hi → lo <= clamp x lo hi <= hi.
Proof.
  intros Hle. unfold clamp. split.
  - apply Rmin_glb; [apply Rmax_r|done].
  - apply Rmin_r.
Qed.

Lemma clamp_monotone x y lo hi : x <= y → clamp x lo hi <= clamp y lo hi.
Proof.
  intros Hxy. unfold clamp. apply Rle_min_compat_r. by apply Rle_max_compat_r.
Qed.

Lemma clamp_middle x lo hi : lo <= x <= hi → clamp x lo hi = x.
Proof. intros [Hlo Hhi]. unfold clamp. rewrite Rmax_left by done. by rewrite Rmin_left. Qed.

Lemma clamp_low x lo hi : x <= lo → lo <= hi → clamp x lo hi = lo.
Proof. intros Hlo Hhi. unfold clamp. rewrite Rmax_right by done. by rewrite Rmin_left. Qed.

Lemma clamp_high x lo hi : hi <= x → lo <= hi → clamp x lo hi = hi.
Proof.
  intros Hhi Hle. unfold clamp. rewrite Rmin_right; [done|].
  etransitivity; [exact Hhi|apply Rmax_l].
Qed.

Lemma suppression_gate_lookup (expected_new_Q_risk : list R) i q :
  expected_new_Q_risk !! i = Some q →
  SAC.suppression_gate expected_new_Q_risk !! i = Some (clamp (- q * 10 * 2) 0.25 0.75).
Proof.
  intros Hq. unfold SAC.suppression_gate.
  rewrite list_lookup_fmap, lookup_zip_with, list_lookup_fmap, Hq. cbn.
  do 2 f_equal. ring.
Qed.

(** X9. The suppression gate answers to the risk estimate only inside the
    band from -0.0375 to -0.0125: there it is [-20 * new_Q_risk], above the
    band it is 0.25, below it 0.75, and a lower (worse) estimate never gives
    a smaller gate. *)
Theorem suppression_gate_band (qs1 qs2 : list R) (i j : nat) (q1 q2 : R) :
  qs1 !! i = Some q1 → qs2 !! j = Some q2 → q1 <= q2 →
  ∃ g1 g2,
    SAC.suppression_gate qs1 !! i = Some g1
    ∧ SAC.suppression_gate qs2 !! j = Some g2
    ∧ g2 <= g1
    ∧ (-0.0125 <= q1 → g1 = 0.25)
    ∧ (q1 <= -0.0375 → g1 = 0.75)
    ∧ (-0.0375 <= q1 <= -0.0125 → g1 = -20 * q1).
Proof.
  intros H1 H2 Hle. eexists _, _.
  split; [by apply suppression_gate_lookup|].
  split; [by apply suppression_gate_lookup|]. split_and!.
  - apply clamp_monotone. lra.
  - intros Hq. apply clamp_low; lra.
  - intros Hq. apply clamp_high; lra.
  - intros Hq. rewrite clamp_middle by lra. lra.
Qed.

(** X10. With suppression and recovery enabled the blended policy target of a
    row lies between its task target [new_Q - V] and its recovery target
    [new_Q_risk - V_risk], at least a quarter of the way from either. *)
Theorem policy_target_between (agent : SAC.t)
    (expected_new_Q expected_value expected_new_Q_risk expected_value_risk : list R)
    (i : nat) (q v qr vr : R) :
  SAC.use_suppression agent = true →
  SAC.use_recovery agent = true →
  expected_new_Q !! i = Some q → expected_value !! i = Some v →
  expected_new_Q_risk !! i = Some qr → expected_value_risk !! i = Some vr →
  ∃ target,
    SAC.log_policy_target agent expected_new_Q expected_value
      expected_new_Q_risk expected_value_risk !! i = Some target
    ∧ Rmin (q - v) (qr - vr) <= target <= Rmax (q - v) (qr - vr)
    ∧ Rabs (target - (q - v)) >= 0.25 * Rabs ((qr - vr) - (q - v))
    ∧ Rabs (target - (qr - vr)) >= 0.25 * Rabs ((qr - vr) - (q - v)).
Proof.
  intros Hsup Hrec Hq Hv Hqr Hvr.
  pose proof (suppression_gate_lookup _ _ _ Hqr) as Hgate.
  pose proof (clamp_bounds (- qr * 10 * 2) 0.25 0.75 ltac:(lra)) as Hg.
  set (g := clamp (- qr * 10 * 2) 0.25 0.75) in *.
  exists ((q - v) * (1 - g) + g * (qr - vr)). split.
  { unfold SAC.log_policy_target. rewrite Hsup, Hrec.
    by rewrite !lookup_zip_with, Hgate, Hq, Hv, Hqr, Hvr. }
  set (a := q - v). set (b := qr - vr).
  replace (a * (1 - g) + g * b - a) with (g * (b - a)) by ring.
  replace (a * (1 - g) + g * b - b) with (- ((1 - g) * (b - a))) by ring.
  rewrite Rabs_Ropp, !Rabs_mult, (Rabs_pos_eq g), (Rabs_pos_eq (1 - g)) by lra.
  pose proof (Rabs_pos (b - a)).
  split_and!; try nra.
  - unfold Rmin. destruct (Rle_dec a b); nra.
  - unfold Rmax. destruct (Rle_dec a b); nra.
Qed.

Lemma next_q_risk_value_lookup (agent : SAC.t) (c : SAC.Columns) i r nd s' :
  SAC.bn_r_risk c !! i = Some r → SAC.bn_d c !! i = Some nd →
  SAC.bn_s_ c !! i = Some s' →
  SAC.next_q_risk_value agent c !! i
  = Some (r + nd * SAC.gamma agent * critic_out (SAC.Target_value_risk_net agent) s'
          + clamp (r / (1 - SAC.gamma agent) * (1 - nd) - r) 0
              (50 / (1 - SAC.gamma agent))).
Proof.
  intros Hr Hd Hs. unfold SAC.next_q_risk_value, SAC.Critic_forward.
  by rewrite !lookup_zip_with, list_lookup_fmap, Hr, Hd, Hs.
Qed.

(** X11. For a discount [0 <= γ < 1] and a non-positive negated risk [r]
    (a non-negative risk in the batch): on a non-terminal row ([bn_d = 1])
    with [-r] up to [50 / (1 - γ)] the terminal term cancels [r] and the risk
    target is [γ * V_risk_target(next_state)] alone; on a terminal row
    ([bn_d = 0]) the terminal term is zero and the risk target is [r]. *)
Theorem risk_target_cases (agent : SAC.t) (c : SAC.Columns) (i : nat) (r nd : R) (s' : Vec) :
  0 <= SAC.gamma agent < 1 →
  r <= 0 →
  SAC.bn_r_risk c !! i = Some r → SAC.bn_d c !! i = Some nd →
  SAC.bn_s_ c !! i = Some s' →
  (nd = 1 → - r <= 50 / (1 - SAC.gamma agent) →
   SAC.next_q_risk_value agent c !! i
   = Some (SAC.gamma agent * critic_out (SAC.Target_value_risk_net agent) s'))
  ∧ (nd = 0 → SAC.next_q_risk_value agent c !! i = Some r).
Proof.
  intros Hγ Hr Hrisk Hd Hs.
  rewrite (next_q_risk_value_lookup agent c i r nd s' Hrisk Hd Hs).
  assert (0 < 50 / (1 - SAC.gamma agent)) as Hhi.
  { apply Rdiv_lt_0_compat; lra. }
  split.
  - intros -> Hcap. f_equal.
    replace (r / (1 - SAC.gamma agent) * (1 - 1) - r) with (- r)
      by (unfold Rdiv; ring).
    rewrite clamp_middle by lra. ring.
  - intros ->. f_equal.
    rewrite clamp_low; [ring| |lra].
    replace (r / (1 - SAC.gamma agent) * (1 - 0) - r)
      with (r * (SAC.gamma agent / (1 - SAC.gamma agent))) by (field; lra).
    assert (0 <= SAC.gamma agent / (1 - SAC.gamma agent))
      by (apply Rle_mult_inv_pos; lra).
    nra.
Qed.

Lemma next_q_value_lookup (agent : SAC.t) (c : SAC.Columns) i r k nd s' :
  SAC.bn_r c !! i = Some r → SAC.bn_r_risk c !! i = Some k →
  SAC.bn_d c !! i = Some nd → SAC.bn_s_ c !! i = Some s' →
  SAC.next_q_value agent c !! i
  = Some ((if SAC.use_recovery agent then r else r + SAC.lam agent * k)
          + nd * SAC.gamma agent * critic_out (SAC.Target_value_net agent) s').
Proof.
  intros Hr Hk Hd Hs. unfold SAC.next_q_value, SAC.Critic_forward.
  destruct (SAC.use_recovery agent);
    by rewrite !lookup_zip_with, list_lookup_fmap, ?Hr, ?Hk, Hd, Hs.
Qed.

(** X12. Without recovery the task target of a batch row with reward [r],
    risk [k], done flag [d] and next state [s'] is
    [r - lam * k + (1 - d) * γ * V_target(s')]: the reward absorbs the
    risk, weighted by [lam]. *)
Theorem task_target_without_recovery (agent : SAC.t) (batch : gmap string ndarray)
    (c : SAC.Columns) (reward risk done : list R) (n_state : list Vec)
    (i : nat) (r k d : R) (s' : Vec) :
  SAC.use_recovery agent = false →
  SAC.read_batch batch = Ok c →
  batch !! "reward" = Some (Arr1 reward) →
  batch !! "risk" = Some (Arr1 risk) →
  batch !! "done" = Some (Arr1 done) →
  batch !! "n_state" = Some (Arr2 n_state) →
  reward !! i = Some r → risk !! i = Some k → done !! i = Some d →
  n_state !! i = Some s' →
  SAC.next_q_value agent c !! i
  = Some (r - SAC.lam agent * k
          + (1 - d) * SAC.gamma agent * critic_out (SAC.Target_value_net agent) s').
Proof.
  intros Hrec Hc Hreward Hrisk Hdone Hn Hr Hk Hd Hs'.
  apply read_batch_Ok in Hc
    as (? & ? & ? & ? & ? & ? & ? & _ & _ & _ & Hr' & Hk' & Hn' & Hd' & ->).
  simplify_eq.
  rewrite (next_q_value_lookup agent _ i r (- k) (1 - d) s'); cbn;
    rewrite ?list_lookup_fmap, ?Hr, ?Hk, ?Hd, ?Hs'; try done.
  rewrite Hrec. f_equal. ring.
Qed.

(** X13. For [0 <= τ <= 1] a soft update moves every target parameter that
    has a live counterpart to a value between the two, and [n] soft updates
    towards one live network leave the gap [(1 - τ)^n] times the first gap. *)
Theorem soft_updates_contract (n : nat) (tau : R) (target live : Params)
    (i j : nat) (a b : R) :
  0 <= tau <= 1 →
  param_at target i j = Some a → param_at live i j = Some b →
  ∃ c,
    param_at (soft_updates n tau target live) i j = Some c
    ∧ c - b = (1 - tau) ^ n * (a - b)
    ∧ Rmin a b <= c <= Rmax a b.
Proof.
  intros Hτ Ha Hb.
  assert (∃ c, param_at (soft_updates n tau target live) i j = Some c
             ∧ c - b = (1 - tau) ^ n * (a - b)) as (c & Hc & Hgap).
  { induction n as [|n (c & Hc & Hgap)].
    - exists a. split; [done|]. cbn. ring.
    - eexists. split.
      + unfold soft_updates in *. cbn. by apply soft_update_param_at.
      + cbn. replace (c * (1 - tau) + b * tau - b) with ((1 - tau) * (c - b)) by ring.
        rewrite Hgap. ring. }
  assert (0 <= (1 - tau) ^ n <= 1) as Hp.
  { split; [apply pow_le; lra|].
    pose proof (pow_incr (1 - tau) 1 n ltac:(lra)) as Hle. by rewrite pow1 in Hle. }
  exists c. split_and!; [done|done| |].
  - unfold Rmin. destruct (Rle_dec a b); nra.
  - unfold Rmax. destruct (Rle_dec a b); nra.
Qed.

Lemma update_same_configuration agent c eps_task eps_rec :
  same_configuration agent (SAC.update agent c eps_task eps_rec).
Proof.
  unfold SAC.update.
  repeat match goal with
    | |- context [optimizer_step ?o ?θ ?loss] =>
        destruct (optimizer_step o θ loss) as [? ?]
    end.
  unfold same_configuration. destruct (SAC.use_recovery agent); cbn; by repeat split.
Qed.

Lemma same_configuration_trans a1 a2 a3 :
  same_configuration a1 a2 → same_configuration a2 a3 → same_configuration a1 a3.
Proof.
  unfold same_configuration. intros H12 H23.
  destruct H12 as (?&?&?&?&?&?&?&?&?&?&?&?&?&?&?).
  destruct H23 as (?&?&?&?&?&?&?&?&?&?&?&?&?&?&?).
  repeat split; congruence.
Qed.

Lemma train_loop_Ok {B} `{Replay B} (replay_buffer : B) (entropy : nat → Draw) n :
  ∀ agent k agent' k',
  SAC.train_loop n agent replay_buffer entropy k = Ok (agent', k') →
  same_configuration agent agent' ∧ k' = (k + n)%nat.
Proof.
  induction n as [|n IH]; intros agent k agent' k' Hloop; cbn in Hloop.
  - injection Hloop as <- <-. split; [by repeat split|lia].
  - apply bind_Ok in Hloop as (batch & _ & Hloop).
    apply bind_Ok in Hloop as (agent1 & Hstep & Hloop).
    unfold SAC.train_step in Hstep.
    apply bind_Ok in Hstep as (c & _ & Hstep). injection Hstep as <-.
    apply bind_Ok in Hloop as (bound & _ & Hloop).
    destruct (IH _ _ _ _ Hloop) as [Hcfg ->]. split; [|lia].
    eapply same_configuration_trans; [apply update_same_configuration|done].
Qed.

(** X14. A call of [train] that returns never changes a flag, a constant or
    an option of the agent (only networks and optimizers), and it has used
    no draw below the warm-up threshold and exactly [update_iteration]
    draws (none for a non-positive count) above it. *)
Theorem train_keeps_configuration {B} `{Replay B} (agent : SAC.t) (replay_buffer : B)
    (entropy : nat → Draw) (k : nat) (agent' : SAC.t) (k' : nat) :
  SAC.train agent replay_buffer entropy k = Ok (agent', k') →
  same_configuration agent agent'
  ∧ k' = (if decide (replay_buffer_len replay_buffer < SAC.buffer_start_training agent)%Z
          then k else k + Z.to_nat (SAC.update_iteration agent))%nat.
Proof.
  unfold SAC.train. case_decide.
  - intros [= <- <-]. split; [by repeat split|done].
  - apply train_loop_Ok.
Qed.

Lemma max_terminal_bound_Ok (agent : SAC.t) :
  SAC.gamma agent ≠ 1 → SAC.max_terminal_bound agent = Ok (50 / (1 - SAC.gamma agent)).
Proof.
  intros Hγ. unfold SAC.max_terminal_bound. destruct (Req_dec_T _ _) as [Heq|_]; [|done].
  exfalso. apply Hγ. lra.
Qed.


Lemma train_loop_total {B} `{Replay B} (replay_buffer : B) (entropy : nat → Draw) n :
  (∀ batch_size sample_index, ∃ batch c,
      replay_sample replay_buffer batch_size sample_index = Ok batch
      ∧ SAC.read_batch batch = Ok c) →
  ∀ agent k,
    (SAC.use_recovery agent = true → SAC.gamma agent ≠ 1) →
    ∃ agent', SAC.train_loop n agent replay_buffer entropy k = Ok (agent', (k + n)%nat).
Proof.
  intros Hgood. induction n as [|n IH]; intros agent k Hγ; cbn.
  - exists agent. do 2 f_equal. lia.
  - destruct (Hgood (SAC.batch_size agent) (sample_index (entropy k)))
      as (batch & c & -> & Hc). cbn.
    unfold SAC.train_step. rewrite Hc. cbn.
    assert ((if SAC.use_recovery agent then SAC.max_terminal_bound agent else Ok 0)
            = Ok (if SAC.use_recovery agent then 50 / (1 - SAC.gamma agent) else 0)) as ->.
    { destruct (SAC.use_recovery agent); [|done]. by apply max_terminal_bound_Ok, Hγ. }
    cbn.
    destruct (IH (SAC.update agent c (eps_task (entropy k)) (eps_rec (entropy k))) (S k))
      as [agent' ->].
    { destruct (update_same_configuration agent c (eps_task (entropy k))
                  (eps_rec (entropy k))) as (_ & <- & _ & _ & _ & _ & _ & _ & _ & _ & _ & <- & _).
      exact Hγ. }
    exists agent'. do 2 f_equal. lia.
Qed.


(** X16. On the replay buffer of the repository [train] cannot complete an
    iteration: at or above the warm-up threshold and with a positive
    iteration count it raises the exception of [sample], or, when [sample]
    returns, [KeyError] for the key task_action. *)
Theorem train_on_ReplayBuffer_raises (agent : SAC.t) (b : ReplayBuffer.t)
    (entropy : nat → Draw) (k : nat) :
  (SAC.buffer_start_training agent ≤ ReplayBuffer.buffer_len b)%Z →
  (0 < SAC.update_iteration agent)%Z →
  SAC.train agent b entropy k
  = Raise (match ReplayBuffer.sample b (SAC.batch_size agent) (sample_index (entropy k)) with
           | Ok _ => KeyError "task_action"
           | Raise e => e
           end).
Proof.
  intros Hwarm Hiter. unfold SAC.train. cbn [replay_buffer_len ReplayBuffer_Replay].
  rewrite decide_False by lia.
  destruct (Z.to_nat (SAC.update_iteration agent)) as [|n] eqn:Hn; [lia|].
  cbn [SAC.train_loop replay_sample ReplayBuffer_Replay].
  destruct (ReplayBuffer.sample b _ _) as [batch|e] eqn:Hs; [|done].
  apply sample_keys in Hs as [_ Hread]. cbn.
  unfold SAC.train_step. by rewrite Hread.
Qed.

(** X17. Without recovery one iteration leaves the three risk networks,
    their optimizers and the risk target network as they were. *)
Theorem update_without_recovery (agent : SAC.t) (c : SAC.Columns) (eps_task eps_rec : Noise) :
  SAC.use_recovery agent = false →
  let agent' := SAC.update agent c eps_task eps_rec in
  SAC.value_risk_net agent' = SAC.value_risk_net agent
  ∧ SAC.Q_risk_net agent' = SAC.Q_risk_net agent
  ∧ SAC.policy_recovery_net agent' = SAC.policy_recovery_net agent
  ∧ SAC.Target_value_risk_net agent' = SAC.Target_value_risk_net agent
  ∧ SAC.value_risk_optimizer agent' = SAC.value_risk_optimizer agent
  ∧ SAC.Q_risk_optimizer agent' = SAC.Q_risk_optimizer agent
  ∧ SAC.policy_recovery_optimizer agent' = SAC.policy_recovery_optimizer agent.
Proof.
  intros Hrec. cbn. unfold SAC.update. rewrite Hrec.
  repeat match goal with
    | |- context [optimizer_step ?o ?θ ?loss] =>
        destruct (optimizer_step o θ loss) as [? ?]
    end.
  by repeat split.
Qed.

End More_SAC_facts.

(** ** Checkpoints and modes *)

Lemma append_cons c (s1 s2 : string) : String c s1 +:+ s2 = String c (s1 +:+ s2).
Proof. reflexivity. Qed.

Lemma chars_append (s1 s2 : string) :
  Stdlib.Strings.String.list_ascii_of_string (s1 +:+ s2)
  = Stdlib.Strings.String.list_ascii_of_string s1
    ++ Stdlib.Strings.String.list_ascii_of_string s2.
Proof. induction s1 as [|c s1 IH]; [done|]. rewrite append_cons. cbn. by rewrite IH. Qed.

Lemma chars_inj (s1 s2 : string) :
  Stdlib.Strings.String.list_ascii_of_string s1
  = Stdlib.Strings.String.list_ascii_of_string s2 → s1 = s2.
Proof.
  intros Heq. rewrite <- (Stdlib.Strings.String.string_of_list_ascii_of_string s1),
    <- (Stdlib.Strings.String.string_of_list_ascii_of_string s2). by rewrite Heq.
Qed.

Lemma append_assoc (s1 s2 s3 : string) : (s1 +:+ s2) +:+ s3 = s1 +:+ (s2 +:+ s3).
Proof. induction s1 as [|c s1 IH]; [done|]. by rewrite !append_cons, IH. Qed.

Lemma append_inv_tail (s1 s2 t : string) : s1 +:+ t = s2 +:+ t → s1 = s2.
Proof.
  intros Heq. apply chars_inj. apply (f_equal Stdlib.Strings.String.list_ascii_of_string) in Heq.
  rewrite !chars_append in Heq. by apply app_inv_tail in Heq.
Qed.

Lemma append_inv_head (s t1 t2 : string) : s +:+ t1 = s +:+ t2 → t1 = t2.
Proof.
  induction s as [|c s IH]; [done|]. rewrite !append_cons. intros [= Heq]. by apply IH.
Qed.

Lemma split_on_nonempty sep s : Checkpoint.split_on sep s ≠ [].
Proof.
  destruct s as [|c s]; cbn; [done|].
  destruct (Ascii.eqb c sep); [done|]. by destruct (Checkpoint.split_on sep s).
Qed.

Lemma split_on_append sep (s1 s2 : string) :
  Checkpoint.split_on sep (s1 +:+ String sep s2)
  = Checkpoint.split_on sep s1 ++ Checkpoint.split_on sep s2.
Proof.
  induction s1 as [|c s1 IH].
  - change ("" +:+ String sep s2) with (String sep s2). cbn. by rewrite Ascii.eqb_refl.
  - rewrite append_cons. cbn. rewrite IH. destruct (Ascii.eqb c sep); [done|].
    pose proof (split_on_nonempty sep s1).
    by destruct (Checkpoint.split_on sep s1).
Qed.

Lemma split_on_absent sep (s : string) :
  sep ∉ Stdlib.Strings.String.list_ascii_of_string s → Checkpoint.split_on sep s = [s].
Proof.
  induction s as [|c s IH]; cbn; [done|].
  intros [Hc Hs]%not_elem_of_cons. rewrite (IH Hs).
  destruct (Ascii.eqb_spec c sep); [by subst|done].
Qed.

Lemma second_last_app {A} (xs : list A) (x y : A) :
  Checkpoint.second_last (xs ++ [x; y]) = Ok x.
Proof.
  unfold Checkpoint.second_last. rewrite length_app. cbn.
  rewrite decide_True by lia.
  replace (length xs + 2 - 2)%nat with (length xs + 0)%nat by lia.
  by rewrite lookup_app_r, Nat.add_0_r, Nat.sub_diag by lia.
Qed.

Lemma digits_no_dot (d : Decimal.uint) :
  Checkpoint.dot ∉ Stdlib.Strings.String.list_ascii_of_string
                     (DecimalString.NilEmpty.string_of_uint d).
Proof.
  induction d; cbn; rewrite ?not_elem_of_cons; try (split; [done|]); try done.
  apply not_elem_of_nil.
Qed.

Lemma zfill_no_dot (w : nat) (s : string) :
  Checkpoint.dot ∉ Stdlib.Strings.String.list_ascii_of_string s →
  Checkpoint.dot ∉ Stdlib.Strings.String.list_ascii_of_string (Checkpoint.zfill w s).
Proof.
  intros Hs. unfold Checkpoint.zfill.
  induction (w - Stdlib.Strings.String.length s)%nat as [|n IH]; cbn; [done|].
  by apply not_elem_of_cons.
Qed.

Lemma format_04_no_dot (episode : Z) :
  Checkpoint.dot ∉ Stdlib.Strings.String.list_ascii_of_string (Checkpoint.format_04 episode).
Proof.
  unfold Checkpoint.format_04.
  assert (Checkpoint.dot ∉ Stdlib.Strings.String.list_ascii_of_string
            (DecimalString.NilZero.string_of_uint (N.to_uint (Z.abs_N episode)))) as Hd.
  { unfold DecimalString.NilZero.string_of_uint.
    destruct (N.to_uint (Z.abs_N episode)) eqn:Hu; try (rewrite <- Hu; apply digits_no_dot).
    cbn. rewrite not_elem_of_cons. split; [done|apply not_elem_of_nil]. }
  case_decide; cbn; [apply not_elem_of_cons; split; [done|]|]; by apply zfill_no_dot.
Qed.

Lemma file_name_split (model_id : string) (episode : Z) :
  Checkpoint.second_last (Checkpoint.split_on Checkpoint.dot
                            (Checkpoint.file_name model_id episode))
  = Ok (Checkpoint.format_04 episode).
Proof.
  unfold Checkpoint.file_name.
  change ("." +:+ Checkpoint.format_04 episode +:+ ".torch")
    with (String Checkpoint.dot (Checkpoint.format_04 episode +:+ String Checkpoint.dot "torch")).
  rewrite <- append_assoc, !split_on_append.
  rewrite (split_on_absent _ (Checkpoint.format_04 episode)) by apply format_04_no_dot.
  change (Checkpoint.split_on Checkpoint.dot "torch") with ["torch"].
  apply second_last_app.
Qed.

Lemma file_name_ends_with_torch (model_id : string) (episode : Z) :
  Checkpoint.ends_with_torch (Checkpoint.file_name model_id episode) = true.
Proof.
  unfold Checkpoint.ends_with_torch, Checkpoint.file_name. apply bool_decide_eq_true.
  rewrite !chars_append.
  change (Stdlib.Strings.String.list_ascii_of_string ".torch")
    with ([Checkpoint.dot] ++ Stdlib.Strings.String.list_ascii_of_string "torch").
  rewrite !app_assoc. apply suffix_app_r. done.
Qed.

Section Checkpoint_facts.
Context `{Torch} `{Checkpoint.Python}.

Lemma saved_states_recovery (agent : SAC.t) (states : gmap string Params) :
  states = <["policy_recovery_net" := SAC.policy_recovery_net agent]>
             (<["value_risk_net" := SAC.value_risk_net agent]>
                (<["Q_risk_net" := SAC.Q_risk_net agent]>
                   {[ "policy_net" := SAC.policy_net agent;
                      "value_net" := SAC.value_net agent;
                      "Q_net" := SAC.Q_net agent ]})) →
  states !! "policy_net" = Some (SAC.policy_net agent)
  ∧ states !! "value_net" = Some (SAC.value_net agent)
  ∧ states !! "Q_net" = Some (SAC.Q_net agent)
  ∧ states !! "policy_recovery_net" = Some (SAC.policy_recovery_net agent)
  ∧ states !! "value_risk_net" = Some (SAC.value_risk_net agent)
  ∧ states !! "Q_risk_net" = Some (SAC.Q_risk_net agent).
Proof. intros ->. split_and!; by simplify_map_eq. Qed.

(** X18. A checkpoint restores the six live networks and the episode
    counter, and nothing else: after [save_model(e)] by one agent,
    [load_model(e)] in an agent of the same model id (both with recovery)
    returns with the six networks of the saving agent and
    [continue_episode = e], while the two target networks and the six
    optimizers of the loading agent stay as they were. *)
Theorem save_then_load (agent loader : SAC.t) (model_id : string)
    (d : Checkpoint.Dir) (episode : Z) :
  SAC.use_recovery agent = true →
  SAC.use_recovery loader = true →
  ∃ loaded,
    Checkpoint.load_model loader model_id
      (Checkpoint.save_model agent model_id d episode) (Some episode)
    = (loaded, Ok ())
    ∧ (SAC.policy_net loaded = SAC.policy_net agent
       ∧ SAC.value_net loaded = SAC.value_net agent
       ∧ SAC.Q_net loaded = SAC.Q_net agent
       ∧ SAC.policy_recovery_net loaded = SAC.policy_recovery_net agent
       ∧ SAC.value_risk_net loaded = SAC.value_risk_net agent
       ∧ SAC.Q_risk_net loaded = SAC.Q_risk_net agent
       ∧ SAC.continue_episode loaded = episode)
    ∧ (SAC.Target_value_net loaded = SAC.Target_value_net loader
       ∧ SAC.Target_value_risk_net loaded = SAC.Target_value_risk_net loader
       ∧ SAC.policy_optimizer loaded = SAC.policy_optimizer loader
       ∧ SAC.value_optimizer loaded = SAC.value_optimizer loader
       ∧ SAC.Q_optimizer loaded = SAC.Q_optimizer loader
       ∧ SAC.policy_recovery_optimizer loaded = SAC.policy_recovery_optimizer loader
       ∧ SAC.value_risk_optimizer loaded = SAC.value_risk_optimizer loader
       ∧ SAC.Q_risk_optimizer loaded = SAC.Q_risk_optimizer loader).
Proof.
  intros Hagent Hloader.
  unfold Checkpoint.load_model, Checkpoint.save_model. rewrite Hagent.
  cbn [Checkpoint.top]. rewrite lookup_insert_eq.
  destruct (saved_states_recovery agent _ eq_refl) as (Hp & Hv & Hq & Hpr & Hvr & Hqr).
  unfold Checkpoint.load_state_dicts.
  rewrite Hp, Hv, Hq, Hpr, Hvr, Hqr. cbv zeta.
  replace (SAC.use_recovery _) with true by (symmetry; exact Hloader).
  eexists. split; [reflexivity|]. split_and!; reflexivity.
Qed.

(** X19. A checkpoint written without recovery networks breaks a loading
    agent with recovery half way: [load_model] raises
    [KeyError] for policy_recovery_net after it has replaced the three task
    networks and set [continue_episode], and the recovery networks stay as
    they were. *)
Theorem load_without_recovery_keys (agent loader : SAC.t) (model_id : string)
    (d : Checkpoint.Dir) (episode : Z) :
  SAC.use_recovery agent = false →
  SAC.use_recovery loader = true →
  Checkpoint.load_model loader model_id
    (Checkpoint.save_model agent model_id d episode) (Some episode)
  = (Checkpoint.with_state loader (SAC.policy_net agent) (SAC.value_net agent)
       (SAC.Q_net agent) (SAC.policy_recovery_net loader) (SAC.value_risk_net loader)
       (SAC.Q_risk_net loader) episode (SAC.mode loader),
     Raise (KeyError "policy_recovery_net")).
Proof.
  intros Hagent Hloader.
  unfold Checkpoint.load_model, Checkpoint.save_model. rewrite Hagent.
  cbn [Checkpoint.top]. rewrite lookup_insert_eq.
  unfold Checkpoint.load_state_dicts.
  assert (∀ (p v q : Params),
    ({[ "policy_net" := p; "value_net" := v; "Q_net" := q ]} : gmap string Params)
      !! "policy_net" = Some p
    ∧ ({[ "policy_net" := p; "value_net" := v; "Q_net" := q ]} : gmap string Params)
        !! "value_net" = Some v
    ∧ ({[ "policy_net" := p; "value_net" := v; "Q_net" := q ]} : gmap string Params)
        !! "Q_net" = Some q
    ∧ ({[ "policy_net" := p; "value_net" := v; "Q_net" := q ]} : gmap string Params)
        !! "policy_recovery_net" = None) as Hkeys by (intros; split_and!; by simplify_map_eq).
  destruct (Hkeys (SAC.policy_net agent) (SAC.value_net agent) (SAC.Q_net agent))
    as (-> & -> & -> & Hnone).
  cbv zeta. rewrite Hnone.
  replace (SAC.use_recovery _) with true by (symmetry; exact Hloader).
  reflexivity.
Qed.

Lemma load_state_dicts_shape (agent : SAC.t) (episode : Z)
    (checkpoint : gmap string Params) :
  ∃ policy_net value_net Q_net policy_recovery_net value_risk_net Q_risk_net
    continue_episode,
    (Checkpoint.load_state_dicts agent episode checkpoint).1
    = Checkpoint.with_state agent policy_net value_net Q_net policy_recovery_net
        value_risk_net Q_risk_net continue_episode (SAC.mode agent).
Proof.
  destruct agent. unfold Checkpoint.load_state_dicts. cbv zeta.
  destruct (checkpoint !! "policy_net"); [|by repeat eexists].
  destruct (checkpoint !! "value_net"); [|vm_compute; by repeat eexists].
  destruct (checkpoint !! "Q_net"); [|vm_compute; by repeat eexists].
  destruct (checkpoint !! "policy_recovery_net"), (checkpoint !! "value_risk_net"),
    (checkpoint !! "Q_risk_net"); vm_compute;
    match goal with |- context [if ?b then _ else _] => destruct b end;
    by repeat eexists.
Qed.

Lemma with_state_frame (agent : SAC.t) (policy_net value_net Q_net : Params)
    (policy_recovery_net value_risk_net Q_risk_net : Params) (continue_episode : Z) :
  let loaded :=
    Checkpoint.with_state agent policy_net value_net Q_net policy_recovery_net
      value_risk_net Q_risk_net continue_episode (SAC.mode agent) in
  AgentNotions.same_configuration
    (Checkpoint.with_state agent (SAC.policy_net agent) (SAC.value_net agent)
       (SAC.Q_net agent) (SAC.policy_recovery_net agent) (SAC.value_risk_net agent)
       (SAC.Q_risk_net agent) (SAC.continue_episode loaded) (SAC.mode agent))
    loaded
  ∧ SAC.Target_value_net loaded = SAC.Target_value_net agent
  ∧ SAC.Target_value_risk_net loaded = SAC.Target_value_risk_net agent
  ∧ SAC.policy_optimizer loaded = SAC.policy_optimizer agent
  ∧ SAC.value_optimizer loaded = SAC.value_optimizer agent
  ∧ SAC.Q_optimizer loaded = SAC.Q_optimizer agent
  ∧ SAC.policy_recovery_optimizer loaded = SAC.policy_recovery_optimizer agent
  ∧ SAC.value_risk_optimizer loaded = SAC.value_risk_optimizer agent
  ∧ SAC.Q_risk_optimizer loaded = SAC.Q_risk_optimizer agent.
Proof. cbn. by repeat split. Qed.

Lemma with_state_same (agent : SAC.t) :
  Checkpoint.with_state agent (SAC.policy_net agent) (SAC.value_net agent)
    (SAC.Q_net agent) (SAC.policy_recovery_net agent) (SAC.value_risk_net agent)
    (SAC.Q_risk_net agent) (SAC.continue_episode agent) (SAC.mode agent)
  = agent.
Proof. by destruct agent. Qed.

(** X20. Whatever [load_model] is asked and however it ends, it changes no
    target network, no optimizer, no flag, constant or option of the agent
    other than [continue_episode]; and when the directory holds no file of
    the agent's model id for the episode asked, it returns with the agent
    as it was. *)
Theorem load_model_frame (agent : SAC.t) (model_id : string) (d : Checkpoint.Dir)
    (episode : option Z) :
  let loaded := (Checkpoint.load_model agent model_id d episode).1 in
  (AgentNotions.same_configuration
     (Checkpoint.with_state agent (SAC.policy_net agent) (SAC.value_net agent)
        (SAC.Q_net agent) (SAC.policy_recovery_net agent) (SAC.value_risk_net agent)
        (SAC.Q_risk_net agent) (SAC.continue_episode loaded) (SAC.mode agent))
     loaded
   ∧ SAC.Target_value_net loaded = SAC.Target_value_net agent
   ∧ SAC.Target_value_risk_net loaded = SAC.Target_value_risk_net agent
   ∧ SAC.policy_optimizer loaded = SAC.policy_optimizer agent
   ∧ SAC.value_optimizer loaded = SAC.value_optimizer agent
   ∧ SAC.Q_optimizer loaded = SAC.Q_optimizer agent
   ∧ SAC.policy_recovery_optimizer loaded = SAC.policy_recovery_optimizer agent
   ∧ SAC.value_risk_optimizer loaded = SAC.value_risk_optimizer agent
   ∧ SAC.Q_risk_optimizer loaded = SAC.Q_risk_optimizer agent)
  ∧ ∀ e, episode = Some e →
      Checkpoint.top d !! Checkpoint.file_name model_id e = None →
      Checkpoint.load_model agent model_id d episode = (agent, Ok ()).
Proof.
  cbv zeta. split.
  - unfold Checkpoint.load_model.
    destruct (match episode with
              | Some e => Ok e
              | None => Checkpoint.scan (Checkpoint.walk d) (-1)
              end) as [e|err]; cbn [fst].
    + destruct (Checkpoint.top d !! Checkpoint.file_name model_id e) as [checkpoint|].
      * destruct (load_state_dicts_shape agent e checkpoint)
          as (p & v & q & pr & vr & qr & ce & ->).
        apply with_state_frame.
      * cbn [fst]. rewrite <- (with_state_same agent) at 11. apply with_state_frame.
    + rewrite <- (with_state_same agent) at 11. apply with_state_frame.
  - intros e -> Hnone. unfold Checkpoint.load_model. by rewrite Hnone.
Qed.

Lemma scan_maximum (names : list string) : ∀ e0,
  (∀ name, name ∈ names → Checkpoint.ends_with_torch name = true →
     ∃ e, Checkpoint.episode_of name = Ok e) →
  ∃ e_max,
    Checkpoint.scan names e0 = Ok e_max
    ∧ (e0 ≤ e_max)%Z
    ∧ (e_max = e0
       ∨ ∃ name, name ∈ names ∧ Checkpoint.ends_with_torch name = true
                 ∧ Checkpoint.episode_of name = Ok e_max)
    ∧ ∀ name e, name ∈ names → Checkpoint.ends_with_torch name = true →
        Checkpoint.episode_of name = Ok e → (e ≤ e_max)%Z.
Proof.
  induction names as [|name names IH]; intros e0 Hall.
  - exists e0. split_and!; [done|lia|by left|]. intros ? ? Hin. by apply elem_of_nil in Hin.
  - cbn [Checkpoint.scan].
    destruct (Checkpoint.ends_with_torch name) eqn:Htorch.
    + destruct (Hall name) as [e He]; [left|done|]. rewrite He. cbn.
      destruct (IH (if decide (e0 < e)%Z then e else e0)) as (e_max & Hscan & Hle & Hfrom & Hmax).
      { intros n Hn. apply Hall. by right. }
      exists e_max. split_and!; [done|case_decide; lia| |].
      * destruct Hfrom as [->|(n & Hn & Ht & Hen)].
        -- case_decide; [|by left]. right. exists name. split_and!; [left|done|done].
        -- right. exists n. split_and!; [by right|done|done].
      * intros n e' Hn Ht Hen. apply elem_of_cons in Hn as [->|Hn].
        -- rewrite He in Hen. injection Hen as <-. case_decide; lia.
        -- by apply (Hmax n).
    + destruct (IH e0) as (e_max & Hscan & Hle & Hfrom & Hmax).
      { intros n Hn. apply Hall. by right. }
      exists e_max. split_and!; [done|done| |].
      * destruct Hfrom as [->|(n & Hn & Ht & Hen)]; [by left|].
        right. exists n. split_and!; [by right|done|done].
      * intros n e' Hn Ht Hen. apply elem_of_cons in Hn as [->|Hn].
        -- congruence.
        -- by apply (Hmax n).
Qed.

Lemma scan_Raise (names : list string) : ∀ e0 name err0,
  name ∈ names → Checkpoint.ends_with_torch name = true →
  Checkpoint.episode_of name = Raise err0 →
  ∃ err, Checkpoint.scan names e0 = Raise err.
Proof.
  induction names as [|n names IH]; intros e0 name err0 Hin Htorch Herr.
  - by apply elem_of_nil in Hin.
  - cbn [Checkpoint.scan]. apply elem_of_cons in Hin as [<-|Hin].
    + rewrite Htorch, Herr. by eexists.
    + destruct (Checkpoint.ends_with_torch n).
      * destruct (Checkpoint.episode_of n) as [e|err]; cbn; [|by eexists].
        by apply (IH _ name err0).
      * by apply (IH _ name err0).
Qed.

Lemma walk_save_model (agent : SAC.t) (model_id : string) (d : Checkpoint.Dir)
    (episode : Z) (name : string) :
  name ∈ Checkpoint.walk (Checkpoint.save_model agent model_id d episode)
  ↔ name = Checkpoint.file_name model_id episode ∨ name ∈ Checkpoint.walk d.
Proof.
  unfold Checkpoint.walk, Checkpoint.save_model. cbn [Checkpoint.top Checkpoint.nested].
  rewrite !elem_of_app, !list_elem_of_fmap. split.
  - intros [([k v] & -> & Hin)|Hin]; [|by right; right].
    apply elem_of_map_to_list in Hin. apply lookup_insert_Some in Hin as [[<- _]|[_ Hin]].
    + by left.
    + right. left. exists (k, v). split; [done|]. by apply elem_of_map_to_list.
  - intros [->|[([k v] & -> & Hin)|Hin]]; [| |by right].
    + left. eexists (_, _). split; [done|]. apply elem_of_map_to_list, lookup_insert_eq.
    + apply elem_of_map_to_list in Hin. cbn.
      destruct (decide (k = Checkpoint.file_name model_id episode)) as [->|Hne].
      * left. eexists (_, _). split; [done|]. apply elem_of_map_to_list, lookup_insert_eq.
      * left. exists (k, v). split; [done|]. apply elem_of_map_to_list.
        by rewrite lookup_insert_ne.
Qed.

(** X21. Without an episode, [load_model] loads the highest episode the
    walked names carry, whatever model the names belong to: when every
    walked name that ends in torch has an integer before its last dot,
    [load_model()] is [load_model(e)] for an [e] that is at least -1, at
    least the episode of every such name, and either -1 or the episode of
    one of them. *)
Theorem load_latest_is_maximum (agent : SAC.t) (model_id : string) (d : Checkpoint.Dir) :
  (∀ name, name ∈ Checkpoint.walk d → Checkpoint.ends_with_torch name = true →
     ∃ e, Checkpoint.episode_of name = Ok e) →
  ∃ e_max,
    Checkpoint.load_model agent model_id d None
    = Checkpoint.load_model agent model_id d (Some e_max)
    ∧ (-1 ≤ e_max)%Z
    ∧ (e_max = (-1)%Z
       ∨ ∃ name, name ∈ Checkpoint.walk d ∧ Checkpoint.ends_with_torch name = true
                 ∧ Checkpoint.episode_of name = Ok e_max)
    ∧ ∀ name e, name ∈ Checkpoint.walk d → Checkpoint.ends_with_torch name = true →
        Checkpoint.episode_of name = Ok e → (e ≤ e_max)%Z.
Proof.
  intros Hall.
  destruct (scan_maximum (Checkpoint.walk d) (-1) Hall) as (e_max & Hscan & Hle & Hfrom & Hmax).
  exists e_max. split_and!; [|done|done|done].
  unfold Checkpoint.load_model. by rewrite Hscan.
Qed.

(** X22. [load_model()] right after [save_model(e)] resumes at [e],
    provided [int] reads the formatted episode back, [e] is at least -1 and
    no other walked name that ends in torch carries a higher episode (each
    of them carrying one). *)
Theorem save_then_load_latest (agent loader : SAC.t) (model_id : string)
    (d : Checkpoint.Dir) (episode : Z) :
  Checkpoint.py_int (Checkpoint.format_04 episode) = Ok episode →
  (-1 ≤ episode)%Z →
  (∀ name, name ∈ Checkpoint.walk d → Checkpoint.ends_with_torch name = true →
     ∃ e, Checkpoint.episode_of name = Ok e ∧ (e ≤ episode)%Z) →
  Checkpoint.load_model loader model_id
    (Checkpoint.save_model agent model_id d episode) None
  = Checkpoint.load_model loader model_id
      (Checkpoint.save_model agent model_id d episode) (Some episode).
Proof.
  intros Hint Hlow Hothers.
  assert (Checkpoint.episode_of (Checkpoint.file_name model_id episode) = Ok episode) as Hown.
  { unfold Checkpoint.episode_of. by rewrite file_name_split. }
  set (d' := Checkpoint.save_model agent model_id d episode).
  destruct (scan_maximum (Checkpoint.walk d') (-1)) as (e_max & Hscan & _ & Hfrom & Hmax).
  { intros name Hin Htorch. apply walk_save_model in Hin as [->|Hin]; [by eexists|].
    destruct (Hothers name Hin Htorch) as (e & He & _). by eexists. }
  assert (e_max = episode) as ->.
  { apply Z.le_antisymm.
    - destruct Hfrom as [->|(name & Hin & Htorch & He)]; [done|].
      apply walk_save_model in Hin as [->|Hin].
      + rewrite Hown in He. injection He as <-. lia.
      + destruct (Hothers name Hin Htorch) as (e & He' & Hle).
        rewrite He' in He. injection He as <-. lia.
    - apply (Hmax (Checkpoint.file_name model_id episode)); [|apply file_name_ends_with_torch|done].
      apply walk_save_model. by left. }
  unfold Checkpoint.load_model. by rewrite Hscan.
Qed.

(** X23. A higher episode under another name hides the agent's own
    checkpoints: when some walked name that ends in torch carries an episode
    above every episode the agent's model id has a file for, [load_model()]
    returns without loading anything. *)
Theorem load_latest_shadowed (agent : SAC.t) (model_id : string) (d : Checkpoint.Dir)
    (other : string) (e_other : Z) :
  (∀ name, name ∈ Checkpoint.walk d → Checkpoint.ends_with_torch name = true →
     ∃ e, Checkpoint.episode_of name = Ok e) →
  other ∈ Checkpoint.walk d →
  Checkpoint.ends_with_torch other = true →
  Checkpoint.episode_of other = Ok e_other →
  (∀ e, is_Some (Checkpoint.top d !! Checkpoint.file_name model_id e) → (e < e_other)%Z) →
  Checkpoint.load_model agent model_id d None = (agent, Ok ()).
Proof.
  intros Hall Hin Htorch Hother Hown.
  destruct (scan_maximum (Checkpoint.walk d) (-1) Hall) as (e_max & Hscan & _ & _ & Hmax).
  unfold Checkpoint.load_model. rewrite Hscan.
  destruct (Checkpoint.top d !! Checkpoint.file_name model_id e_max) eqn:Hfile; [|done].
  pose proof (Hmax other e_other Hin Htorch Hother).
  pose proof (Hown e_max ltac:(by rewrite Hfile)). lia.
Qed.

(** X24. One stray name is enough to break [load_model()]: when a walked
    name that ends in torch has no integer before its last dot (or no dot
    at all), the call raises and the agent is as it was. *)
Theorem load_latest_stray_name (agent : SAC.t) (model_id : string) (d : Checkpoint.Dir)
    (name : string) (err0 : exn) :
  name ∈ Checkpoint.walk d →
  Checkpoint.ends_with_torch name = true →
  Checkpoint.episode_of name = Raise err0 →
  ∃ err, Checkpoint.load_model agent model_id d None = (agent, Raise err).
Proof.
  intros Hin Htorch Herr.
  destruct (scan_Raise (Checkpoint.walk d) (-1) name err0 Hin Htorch Herr) as [err Hscan].
  exists err. unfold Checkpoint.load_model. by rewrite Hscan.
Qed.

(** X25. [set_mode] stores the mode before it checks it.  A mode other than
    train and eval raises [ValueError] with the training flags as they were
    but the agent's [mode] already the unknown one; and a later valid mode
    gives the agent and the flags it would have given without the earlier
    call. *)
Theorem set_mode_stores_first (agent : SAC.t) (flags : Checkpoint.Flags)
    (mode1 mode2 : string) :
  (mode1 ≠ "train" → mode1 ≠ "eval" →
     (Checkpoint.set_mode agent flags mode1).2 = Raise ValueError
     ∧ (Checkpoint.set_mode agent flags mode1).1.2 = flags
     ∧ SAC.mode (Checkpoint.set_mode agent flags mode1).1.1 = mode1)
  ∧ (mode2 = "train" ∨ mode2 = "eval" →
     Checkpoint.set_mode (Checkpoint.set_mode agent flags mode1).1.1
       (Checkpoint.set_mode agent flags mode1).1.2 mode2
     = Checkpoint.set_mode agent flags mode2).
Proof.
  split.
  - intros H1 H2. unfold Checkpoint.set_mode. by rewrite !decide_False by done.
  - intros Hmode. unfold Checkpoint.set_mode.
    destruct (decide (mode1 = "train")), (decide (mode1 = "eval")),
      Hmode as [->| ->]; cbn; destruct (SAC.use_recovery agent); reflexivity.
Qed.

End Checkpoint_facts.

Section Checkpoint_names.
Context `{Torch} `{Checkpoint.Python}.

Lemma file_name_inj (id1 id2 : string) (e1 e2 : Z) :
  Checkpoint.py_int (Checkpoint.format_04 e1) = Ok e1 →
  Checkpoint.py_int (Checkpoint.format_04 e2) = Ok e2 →
  Checkpoint.file_name id1 e1 = Checkpoint.file_name id2 e2 →
  id1 = id2 ∧ e1 = e2.
Proof.
  intros H1 H2 Heq.
  assert (Checkpoint.format_04 e1 = Checkpoint.format_04 e2) as Hfmt.
  { pose proof (file_name_split id1 e1) as Hs1.
    rewrite Heq, file_name_split in Hs1. by injection Hs1. }
  assert (e1 = e2) as <-.
  { rewrite Hfmt, H2 in H1. by injection H1. }
  split; [|done].
  unfold Checkpoint.file_name in Heq.
  apply append_inv_head in Heq. by apply append_inv_tail in Heq.
Qed.

(** X26. [save_model] writes one file and touches no other: when [int]
    reads the two formatted episodes back, a checkpoint of another model id
    or another episode loads after the call as it did before. *)
Theorem save_model_keeps_others (agent loader : SAC.t) (saved_id model_id : string)
    (d : Checkpoint.Dir) (saved_episode episode : Z) :
  Checkpoint.py_int (Checkpoint.format_04 saved_episode) = Ok saved_episode →
  Checkpoint.py_int (Checkpoint.format_04 episode) = Ok episode →
  saved_id ≠ model_id ∨ saved_episode ≠ episode →
  Checkpoint.load_model loader model_id
    (Checkpoint.save_model agent saved_id d saved_episode) (Some episode)
  = Checkpoint.load_model loader model_id d (Some episode).
Proof.
  intros Hsaved Hepisode Hother.
  unfold Checkpoint.load_model, Checkpoint.save_model. cbn [Checkpoint.top].
  rewrite lookup_insert_ne; [done|].
  intros Heq. apply file_name_inj in Heq as [-> ->]; [|done|done].
  by destruct Hother.
Qed.

End Checkpoint_names.

(** *** The decimal reader *)

Lemma uint_of_string_zeros (m : nat) (s : string) :
  DecimalString.NilEmpty.uint_of_string (Nat.iter m (String Checkpoint.digit_0) s)
  = Nat.iter m Decimal.D0 <$> DecimalString.NilEmpty.uint_of_string s.
Proof.
  induction m as [|m IH].
  - change (Nat.iter 0 (String Checkpoint.digit_0) s) with s.
    destruct (DecimalString.NilEmpty.uint_of_string s); reflexivity.
  - rewrite Nat.iter_succ. cbn [DecimalString.NilEmpty.uint_of_string]. rewrite IH.
    destruct (DecimalString.NilEmpty.uint_of_string s); reflexivity.
Qed.

Lemma of_uint_zeros (m : nat) (u : Decimal.uint) :
  N.of_uint (Nat.iter m Decimal.D0 u) = N.of_uint u.
Proof. induction m as [|m IH]; [done|]. rewrite Nat.iter_succ. exact IH. Qed.

Lemma to_uint_digits (n : N) :
  DecimalString.NilZero.string_of_uint (N.to_uint n)
  = DecimalString.NilEmpty.string_of_uint (N.to_uint n)
  ∧ DecimalString.NilEmpty.string_of_uint (N.to_uint n) ≠ EmptyString.
Proof.
  assert (N.to_uint n ≠ Decimal.Nil) as Hnil.
  { destruct n as [|p]; [done|]. apply DecimalPos.Unsigned.to_uint_nonnil. }
  destruct (N.to_uint n); done.
Qed.

Lemma uint_of_zfill (w : nat) (n : N) :
  DecimalString.NilZero.uint_of_string
    (Checkpoint.zfill w (DecimalString.NilZero.string_of_uint (N.to_uint n)))
  = Some (Nat.iter
            (w - Stdlib.Strings.String.length
                   (DecimalString.NilZero.string_of_uint (N.to_uint n)))
            Decimal.D0 (N.to_uint n)).
Proof.
  destruct (to_uint_digits n) as [-> Hne]. unfold Checkpoint.zfill.
  set (m := (w - _)%nat).
  assert (DecimalString.NilZero.uint_of_string
            (Nat.iter m (String Checkpoint.digit_0)
               (DecimalString.NilEmpty.string_of_uint (N.to_uint n)))
          = DecimalString.NilEmpty.uint_of_string
              (Nat.iter m (String Checkpoint.digit_0)
                 (DecimalString.NilEmpty.string_of_uint (N.to_uint n)))) as ->.
  { destruct m as [|m]; [|by rewrite Nat.iter_succ].
    change (Nat.iter 0 _ ?s) with s.
    by destruct (DecimalString.NilEmpty.string_of_uint (N.to_uint n)). }
  by rewrite uint_of_string_zeros, DecimalString.NilEmpty.usu.
Qed.

Lemma decimal_format_04 (episode : Z) :
  Cases.decimal_int (Checkpoint.format_04 episode) = Ok episode.
Proof.
  unfold Checkpoint.format_04, Cases.decimal_int. case_decide as Hneg.
  - cbn [DecimalString.NilZero.uint_of_string DecimalString.NilEmpty.uint_of_string].
    replace (DecimalString.uint_of_char Checkpoint.minus _) with (@None Decimal.uint)
      by (by destruct (DecimalString.NilEmpty.uint_of_string _)).
    rewrite Ascii.eqb_refl, uint_of_zfill. cbn.
    rewrite of_uint_zeros, DecimalN.Unsigned.of_to. f_equal. lia.
  - rewrite uint_of_zfill, of_uint_zeros, DecimalN.Unsigned.of_to. f_equal. lia.
Qed.

(** ** The further statements at concrete inputs *)

#[local] Existing Instance Cases.decimal.

Lemma store_appends_witness :
  ReplayBuffer.store (ReplayBuffer.init 2 "train_agent" 4) Demo.step = Ok Demo.buffer
  ∧ ReplayBuffer.buffer_len Demo.buffer
    = (ReplayBuffer.buffer_len (ReplayBuffer.init 2 "train_agent" 4)
       + Z.of_nat (length (ReplayBuffer.infos Demo.step)))%Z
  ∧ ReplayBuffer.buffer_rewards Demo.buffer !! 1%nat
    = (fun traj => traj ++ stored_with (ReplayBuffer.infos Demo.step)
                             (ReplayBuffer.rewards Demo.step) 1)
      <$> ReplayBuffer.buffer_rewards (ReplayBuffer.init 2 "train_agent" 4) !! 1%nat.
Proof.
  split; [reflexivity|].
  destruct (store_appends (ReplayBuffer.init 2 "train_agent" 4) Demo.step Demo.buffer)
    as [(_ & _ & _ & Hlen) Hfields]; [reflexivity|].
  split; [exact Hlen|]. exact (proj1 (proj2 (proj2 (proj2 (proj2 (Hfields 1%nat)))))).
Defined.

Lemma init_aligned_fields num_scenario mode buffer_capacity :
  aligned_fields (ReplayBuffer.init num_scenario mode buffer_capacity).
Proof. apply init_aligned. Qed.

Lemma store_returns_iff_fits_witness :
  ((∃ b', ReplayBuffer.store (ReplayBuffer.init 2 "train_agent" 4) Demo.step = Ok b')
   ↔ fits (ReplayBuffer.init 2 "train_agent" 4) Demo.step)
  ∧ (¬ fits (ReplayBuffer.init 2 "train_agent" 4) Demo.step →
     ReplayBuffer.store (ReplayBuffer.init 2 "train_agent" 4) Demo.step = Raise IndexError).
Proof.
  apply (store_returns_iff_fits (ReplayBuffer.init 2 "train_agent" 4) Demo.step).
  apply init_aligned_fields.
Defined.

Lemma pool_within_capacity_witness :
  ∃ p,
    ReplayBuffer.prepare Demo.buffer = Ok p
    ∧ (Z.of_nat (length (ReplayBuffer.prepared_rewards p))
       ≤ ReplayBuffer.buffer_capacity Demo.buffer)%Z
    ∧ length (ReplayBuffer.prepared_obs p) = length (ReplayBuffer.prepared_rewards p).
Proof.
  eexists. split; [reflexivity|].
  destruct (pool_within_capacity Demo.buffer _
              (proj1 (reachable_aligned _ demo_buffer_reachable))
              ltac:(simpl; lia) ltac:(simpl; lia) eq_refl)
    as (Hcap & _ & _ & Hobs & _).
  split; [exact Hcap|exact Hobs].
Defined.

Lemma sample_empty_raises_witness :
  ReplayBuffer.sample (ReplayBuffer.init 2 "train_agent" 4) 3 [0; 1; 0]%nat
  = Raise ValueError.
Proof.
  apply (sample_empty_raises (ReplayBuffer.init 2 "train_agent" 4) 3 [0; 1; 0]%nat).
  - constructor.
  - reflexivity.
Defined.

Lemma sampled_rows_are_transitions_witness :
  ∃ batch action state n_state reward done,
    ReplayBuffer.sample Demo.buffer 3 [0; 1; 0]%nat = Ok batch
    ∧ batch = {[ "action" := Arr2 action; "state" := Arr2 state;
                 "n_state" := Arr2 n_state; "reward" := Arr1 reward;
                 "done" := Arr1 done ]}
    ∧ ∀ k, (k < 3)%nat →
        ∃ s t traj,
          ReplayBuffer.buffer_rewards Demo.buffer !! s = Some traj
          ∧ (length traj - Z.to_nat (4 `div` 2) ≤ t < length traj)%nat
          ∧ reward !! k = traj !! t
          ∧ action !! k = (rows ← action_field Demo.buffer !! s; rows !! t)
          ∧ state !! k = (rows ← ReplayBuffer.buffer_obs Demo.buffer !! s; rows !! t)
          ∧ n_state !! k = (rows ← ReplayBuffer.buffer_next_obs Demo.buffer !! s; rows !! t)
          ∧ done !! k = (rows ← ReplayBuffer.buffer_dones Demo.buffer !! s; rows !! t).
Proof.
  eexists.
  destruct (sampled_rows_are_transitions Demo.buffer 3 [0; 1; 0]%nat _
              demo_buffer_reachable eq_refl)
    as (action & state & n_state & reward & done & Hbatch & Hrows).
  exists action, state, n_state, reward, done.
  split; [reflexivity|]. split; [exact Hbatch|exact Hrows].
Defined.

Lemma init_copies_targets_witness :
  ∃ agent,
    SAC.init Demo.config Demo.fresh = Ok agent
    ∧ SAC.Target_value_net agent = SAC.value_net agent
    ∧ SAC.Target_value_risk_net agent = SAC.value_risk_net agent
    ∧ SAC.value_net agent = SAC.fresh_value_net Demo.fresh
    ∧ SAC.value_risk_net agent = SAC.fresh_value_risk_net Demo.fresh
    ∧ SAC.use_recovery agent = true
    ∧ SAC.use_suppression agent = true
    ∧ SAC.risk_thresh agent = 0.1
    ∧ SAC.lam agent = 2
    ∧ SAC.mode agent = "train".
Proof.
  eexists. split; [reflexivity|].
  apply (init_copies_targets Demo.config Demo.fresh).
  - repeat constructor.
  - repeat constructor.
  - reflexivity.
Defined.

Lemma init_reads_its_keys_witness :
  SAC.init (<["suppression_weight" := VFloat 7]> Demo.config) Demo.fresh
  = SAC.init (delete "suppression_weight" Demo.config) Demo.fresh.
Proof.
  apply (init_reads_its_keys (<["suppression_weight" := VFloat 7]> Demo.config)
           (delete "suppression_weight" Demo.config) Demo.fresh).
  repeat constructor.
Defined.

Lemma get_action_all_or_nothing_witness :
  let state := [[0]; [-1]] in
  let task :=
    SAC.sample false Demo.no_noise
      (SAC.Actor_forward (SAC.policy_net Demo.agent) state).1
      (SAC.Actor_forward (SAC.policy_net Demo.agent) state).2 in
  let recovery :=
    SAC.sample false Demo.no_noise
      (SAC.Actor_forward (SAC.policy_recovery_net Demo.agent) state).1
      (SAC.Actor_forward (SAC.policy_recovery_net Demo.agent) state).2 in
  ∃ action,
    SAC.get_action Demo.agent state [] false Demo.no_noise Demo.no_noise = Ok (task, action)
    ∧ (action = task ∨ (SAC.use_recovery Demo.agent = true ∧ action = recovery))
    ∧ length task = length state ∧ length action = length state.
Proof.
  apply (get_action_all_or_nothing Demo.agent [[0]; [-1]] [] false
           Demo.no_noise Demo.no_noise).
  discriminate.
Defined.

Lemma suppression_gate_band_witness :
  ∃ g1 g2,
    SAC.suppression_gate [-0.02] !! 0%nat = Some g1
    ∧ SAC.suppression_gate [-0.01] !! 0%nat = Some g2
    ∧ g2 <= g1
    ∧ (-0.0125 <= -0.02 → g1 = 0.25)
    ∧ (-0.02 <= -0.0375 → g1 = 0.75)
    ∧ (-0.0375 <= -0.02 <= -0.0125 → g1 = -20 * -0.02).
Proof.
  apply (suppression_gate_band [-0.02] [-0.01] 0 0 (-0.02) (-0.01)).
  - reflexivity.
  - reflexivity.
  - lra.
Defined.

Lemma policy_target_between_witness :
  ∃ target,
    SAC.log_policy_target Demo.agent [1] [0] [-0.02] [0] !! 0%nat = Some target
    ∧ Rmin (1 - 0) (-0.02 - 0) <= target <= Rmax (1 - 0) (-0.02 - 0)
    ∧ Rabs (target - (1 - 0)) >= 0.25 * Rabs ((-0.02 - 0) - (1 - 0))
    ∧ Rabs (target - (-0.02 - 0)) >= 0.25 * Rabs ((-0.02 - 0) - (1 - 0)).
Proof.
  apply (policy_target_between Demo.agent [1] [0] [-0.02] [0] 0 1 0 (-0.02) 0);
    reflexivity.
Defined.

Lemma risk_target_cases_witness :
  (1 - 0 = 1 → - - 1 <= 50 / (1 - SAC.gamma Demo.agent) →
   SAC.next_q_risk_value Demo.agent Demo.columns !! 0%nat
   = Some (SAC.gamma Demo.agent * critic_out (SAC.Target_value_risk_net Demo.agent) [0]))
  ∧ (1 - 0 = 0 → SAC.next_q_risk_value Demo.agent Demo.columns !! 0%nat = Some (- 1)).
Proof.
  apply (risk_target_cases Demo.agent Demo.columns 0 (- 1) (1 - 0) [0]).
  - simpl. lra.
  - lra.
  - reflexivity.
  - reflexivity.
  - reflexivity.
Defined.

Lemma task_target_without_recovery_witness :
  SAC.next_q_value Cases.plain Demo.columns !! 0%nat
  = Some (1 - SAC.lam Cases.plain * 1
          + (1 - 0) * SAC.gamma Cases.plain
            * critic_out (SAC.Target_value_net Cases.plain) [0]).
Proof.
  apply (task_target_without_recovery Cases.plain Demo.batch Demo.columns
           [1] [1] [0] [[0]] 0 1 1 0 [0]); reflexivity.
Defined.

Lemma soft_updates_contract_witness :
  ∃ c,
    param_at (soft_updates 2 0.5 [[0]] [[1]]) 0 0 = Some c
    ∧ c - 1 = (1 - 0.5) ^ 2 * (0 - 1)
    ∧ Rmin 0 1 <= c <= Rmax 0 1.
Proof.
  apply (soft_updates_contract 2 0.5 [[0]] [[1]] 0 0 0 1).
  - lra.
  - reflexivity.
  - reflexivity.
Defined.

Lemma train_keeps_configuration_witness :
  ∃ agent',
    SAC.train (H0:=Cases.steady) Demo.agent tt Demo.entropy 0 = Ok (agent', 1%nat)
    ∧ same_configuration Demo.agent agent'
    ∧ 1%nat
      = (if decide (replay_buffer_len (Replay:=Cases.steady) tt
                    < SAC.buffer_start_training Demo.agent)%Z
         then 0 else 0 + Z.to_nat (SAC.update_iteration Demo.agent))%nat.
Proof.
  destruct (train_loop_total (H0:=Cases.steady) tt Demo.entropy 1
              ltac:(intros; exists Demo.batch, Demo.columns; split; reflexivity)
              Demo.agent 0 ltac:(intros _; simpl; lra)) as [agent' Hloop].
  exists agent'.
  assert (SAC.train (H0:=Cases.steady) Demo.agent tt Demo.entropy 0 = Ok (agent', 1%nat))
    as Htrain by exact Hloop.
  split; [exact Htrain|].
  apply (train_keeps_configuration (H0:=Cases.steady) Demo.agent tt Demo.entropy 0 agent' 1).
  exact Htrain.
Defined.


Lemma train_on_ReplayBuffer_raises_witness :
  SAC.train Demo.agent Demo.buffer Demo.entropy 0
  = Raise (match ReplayBuffer.sample Demo.buffer (SAC.batch_size Demo.agent)
                   (sample_index (Demo.entropy 0%nat)) with
           | Ok _ => KeyError "task_action"
           | Raise e => e
           end).
Proof.
  apply (train_on_ReplayBuffer_raises Demo.agent Demo.buffer Demo.entropy 0).
  - simpl. lia.
  - simpl. lia.
Defined.

Lemma update_without_recovery_witness :
  let agent' := SAC.update Cases.plain Demo.columns Demo.no_noise Demo.no_noise in
  SAC.value_risk_net agent' = SAC.value_risk_net Cases.plain
  ∧ SAC.Q_risk_net agent' = SAC.Q_risk_net Cases.plain
  ∧ SAC.policy_recovery_net agent' = SAC.policy_recovery_net Cases.plain
  ∧ SAC.Target_value_risk_net agent' = SAC.Target_value_risk_net Cases.plain
  ∧ SAC.value_risk_optimizer agent' = SAC.value_risk_optimizer Cases.plain
  ∧ SAC.Q_risk_optimizer agent' = SAC.Q_risk_optimizer Cases.plain
  ∧ SAC.policy_recovery_optimizer agent' = SAC.policy_recovery_optimizer Cases.plain.
Proof.
  apply (update_without_recovery Cases.plain Demo.columns Demo.no_noise Demo.no_noise).
  reflexivity.
Defined.

Lemma save_then_load_witness :
  ∃ loaded,
    Checkpoint.load_model Cases.blank "0"
      (Checkpoint.save_model Demo.agent "0" Cases.dir 12) (Some 12%Z)
    = (loaded, Ok ())
    ∧ SAC.policy_net loaded = SAC.policy_net Demo.agent
    ∧ SAC.continue_episode loaded = 12%Z
    ∧ SAC.Target_value_net loaded = SAC.Target_value_net Cases.blank.
Proof.
  destruct (save_then_load Demo.agent Cases.blank "0" Cases.dir 12 eq_refl eq_refl)
    as (loaded & Hload & (Hpolicy & _ & _ & _ & _ & _ & Hepisode) & Htarget & _).
  exists loaded. split_and!; [exact Hload|exact Hpolicy|exact Hepisode|exact Htarget].
Defined.

Lemma load_without_recovery_keys_witness :
  Checkpoint.load_model Cases.blank "0"
    (Checkpoint.save_model Cases.plain "0" Cases.dir 12) (Some 12%Z)
  = (Checkpoint.with_state Cases.blank (SAC.policy_net Cases.plain)
       (SAC.value_net Cases.plain) (SAC.Q_net Cases.plain)
       (SAC.policy_recovery_net Cases.blank) (SAC.value_risk_net Cases.blank)
       (SAC.Q_risk_net Cases.blank) 12 (SAC.mode Cases.blank),
     Raise (KeyError "policy_recovery_net")).
Proof.
  apply (load_without_recovery_keys Cases.plain Cases.blank "0" Cases.dir 12);
    reflexivity.
Defined.

Lemma cases_dir_walk :
  Checkpoint.walk Cases.dir
  = ["model.sac.0.0003.torch"; "model.sac.1.0007.torch"; "notes.txt"].
Proof. unfold Checkpoint.walk, Cases.dir. cbn. by rewrite map_to_list_singleton. Qed.

Lemma cases_dir_episodes (name : string) :
  name ∈ Checkpoint.walk Cases.dir → Checkpoint.ends_with_torch name = true →
  ∃ e, Checkpoint.episode_of name = Ok e ∧ (e ≤ 7)%Z.
Proof.
  rewrite cases_dir_walk. intros Hin Htorch.
  apply elem_of_cons in Hin as [->|Hin]; [by exists 3%Z|].
  apply elem_of_cons in Hin as [->|Hin]; [by exists 7%Z|].
  apply list_elem_of_singleton in Hin as ->. discriminate Htorch.
Qed.

Lemma cases_dir_parses (name : string) :
  name ∈ Checkpoint.walk Cases.dir → Checkpoint.ends_with_torch name = true →
  ∃ e, Checkpoint.episode_of name = Ok e.
Proof.
  intros Hin Htorch. destruct (cases_dir_episodes name Hin Htorch) as (e & He & _).
  by exists e.
Qed.

Lemma load_latest_is_maximum_witness :
  ∃ e_max,
    Checkpoint.load_model Demo.agent "0" Cases.dir None
    = Checkpoint.load_model Demo.agent "0" Cases.dir (Some e_max)
    ∧ (-1 ≤ e_max)%Z
    ∧ (e_max = (-1)%Z
       ∨ ∃ name, name ∈ Checkpoint.walk Cases.dir ∧ Checkpoint.ends_with_torch name = true
                 ∧ Checkpoint.episode_of name = Ok e_max)
    ∧ ∀ name e, name ∈ Checkpoint.walk Cases.dir → Checkpoint.ends_with_torch name = true →
        Checkpoint.episode_of name = Ok e → (e ≤ e_max)%Z.
Proof.
  apply (load_latest_is_maximum Demo.agent "0" Cases.dir). exact cases_dir_parses.
Defined.

Lemma save_then_load_latest_witness :
  Checkpoint.load_model Cases.blank "0"
    (Checkpoint.save_model Demo.agent "0" Cases.dir 12) None
  = Checkpoint.load_model Cases.blank "0"
      (Checkpoint.save_model Demo.agent "0" Cases.dir 12) (Some 12%Z).
Proof.
  apply (save_then_load_latest Demo.agent Cases.blank "0" Cases.dir 12).
  - apply decimal_format_04.
  - lia.
  - intros name Hin Htorch. destruct (cases_dir_episodes name Hin Htorch) as (e & He & Hle).
    exists e. split; [exact He|lia].
Defined.

Lemma cases_dir_own_files (e : Z) :
  is_Some (Checkpoint.top Cases.dir !! Checkpoint.file_name "0" e) → (e < 7)%Z.
Proof.
  intros [states Hfile]. unfold Cases.dir in Hfile. cbn [Checkpoint.top] in Hfile.
  apply lookup_singleton_Some in Hfile as [Hname _].
  change "model.sac.0.0003.torch" with (Checkpoint.file_name "0" 3) in Hname.
  apply file_name_inj in Hname as [_ <-]; [lia| |]; apply decimal_format_04.
Qed.

Lemma load_latest_shadowed_witness :
  is_Some (Checkpoint.top Cases.dir !! Checkpoint.file_name "0" 3)
  ∧ Checkpoint.load_model Demo.agent "0" Cases.dir None = (Demo.agent, Ok ()).
Proof.
  split; [by eexists|].
  apply (load_latest_shadowed Demo.agent "0" Cases.dir "model.sac.1.0007.torch" 7).
  - exact cases_dir_parses.
  - rewrite cases_dir_walk. apply elem_of_cons. right. apply elem_of_cons. by left.
  - reflexivity.
  - reflexivity.
  - exact cases_dir_own_files.
Defined.

Lemma load_latest_stray_name_witness :
  ∃ err, Checkpoint.load_model Demo.agent "0" Cases.stray None = (Demo.agent, Raise err).
Proof.
  apply (load_latest_stray_name Demo.agent "0" Cases.stray "best.torch" ValueError).
  - unfold Checkpoint.walk, Cases.stray. cbn. rewrite map_to_list_empty. apply elem_of_cons. by left.
  - reflexivity.
  - reflexivity.
Defined.

Lemma save_model_keeps_others_witness :
  Checkpoint.load_model Cases.blank "0"
    (Checkpoint.save_model Demo.agent "0" Cases.dir 12) (Some 3%Z)
  = Checkpoint.load_model Cases.blank "0" Cases.dir (Some 3%Z).
Proof.
  apply (save_model_keeps_others Demo.agent Cases.blank "0" "0" Cases.dir 12 3).
  - reflexivity.
  - reflexivity.
  - right. lia.
Defined.
